(** * Constraint resolution core of the physics engine

    A shallow embedding of [src/constraints/Distance.js] and
    [src/constraints/collision/ContactManifold.js], followed by the
    properties of the specification that were checked against it.

    Conventions of the embedding.
    - A JavaScript number is an exact rational ([Q]): rounding, infinities
      (so also a division by zero) and NaN are outside the model.  [Math.sqrt] and [Math.PI] have no
      rational counterpart and are taken from an interface ([MathLib]); no
      theorem below relies on a property of either.
    - Objects that are shared and mutated (bodies, manifolds) live in a
      store and are named by references; a method becomes a function that
      takes the store and [this] and returns the new store and the new
      [this].
    - The module-level scratch vectors ([VEC1_REGISTER], ...) are always
      written before they are read inside one call, so each one is a [let].
    - Calls into the collaborators of the bodies (impulses, events) are
      appended to a log in the order in which the code performs them.
    - A property access on [null]/[undefined] and a read of an undeclared
      identifier throw; such functions return a [result]. *)

From Stdlib Require Import QArith Qabs Lqa ZArith String List.
From stdpp Require Import base option list gmap.

Local Open Scope Q_scope.

(** ** JavaScript numbers and operators *)

(** [a < b] *)
Definition Qltb (a b : Q) : bool := negb (Qle_bool b a).

(** [Math.max(a, b)] *)
Definition Math_max (a b : Q) : Q := if Qltb a b then b else a.

(** [Math.min(a, b)] *)
Definition Math_min (a b : Q) : Q := if Qltb b a then b else a.

(** [Math.abs(a)] *)
Definition Math_abs (a : Q) : Q := Qabs a.

(** Truthiness of a number: every number but zero. *)
Definition truthy (a : Q) : bool := negb (Qeq_bool a 0).

(** [v || d] on a numeric property.  An option that was not given reads as
    [undefined], which [||] treats like [0]: both are written [0] here. *)
Definition js_or (v d : Q) : Q := if truthy v then v else d.

(** The part of [Math] that is not rational arithmetic. *)
Class MathLib := { Math_sqrt : Q -> Q; Math_PI : Q }.

(** A square root that is exact on squares of rationals, to run the model
    on concrete inputs. *)
Definition Qsqrt (a : Q) : Q :=
  Qmake (Z.sqrt (Qnum a * Zpos (Qden a))) (Qden a).

Definition exactMath : MathLib := {| Math_sqrt := Qsqrt; Math_PI := 355 # 113 |}.

(** Outcome of a call that may throw. *)
Inductive JsError := ReferenceError | TypeError.

Inductive result (A : Type) :=
| Ok (a : A)
| Throw (e : JsError).
Arguments Ok {A} a.
Arguments Throw {A} e.

(** ** Arrays *)

(** [a[i] = v]: a write past the end extends the array with holes. *)
Definition array_set {A} (a : list (option A)) (i : nat) (v : option A) : list (option A) :=
  if decide (i < length a)%nat then <[i := v]> a
  else a ++ replicate (i - length a) None ++ [v].

(** [a[i]], where a hole, [null] and [undefined] are all [None]. *)
Definition array_get {A} (a : list (option A)) (i : nat) : option A :=
  mjoin (a !! i).

(** [a.push(v)] *)
Definition array_push {A} (a : list A) (v : A) : list A := a ++ [v].

(** [a.pop()] on a non-empty array: the last element and the rest. *)
Definition array_pop {A} (a : list A) : option (A * list A) :=
  match last a with
  | Some v => Some (v, removelast a)
  | None => None
  end.

(** ** Vectors and matrices (famous-math) *)

Module Vec3.

Record t := mk { x : Q; y : Q; z : Q }.

Definition zero : t := mk 0 0 0.

(** Modelled from the spec: [Vec3] of famous-math is not among the sources;
    the spec calls it "3D vector arithmetic".  [add], [subtract], [scale],
    [cross] and [dot] are the static functions (the output register is the
    result), [invert] and [clear] the in-place methods. *)
Definition add (a b : t) : t := mk (x a + x b) (y a + y b) (z a + z b).

Definition subtract (a b : t) : t := mk (x a - x b) (y a - y b) (z a - z b).

Definition scale (a : t) (s : Q) : t := mk (x a * s) (y a * s) (z a * s).

Definition invert (a : t) : t := mk (- x a) (- y a) (- z a).

Definition clear (a : t) : t := zero.

Definition dot (a b : t) : Q := x a * x b + y a * y b + z a * z b.

Definition cross (a b : t) : t :=
  mk (y a * z b - z a * y b) (z a * x b - x a * z b) (x a * y b - y a * x b).

Definition length `{MathLib} (a : t) : Q :=
  Math_sqrt (x a * x a + y a * y a + z a * z a).

Definition normalize `{MathLib} (a : t) : t :=
  let len := length a in
  let len := if truthy len then len else 1 in
  scale a (1 / len).

End Vec3.

Module Mat33.

Record t := mk { m0 : Q; m1 : Q; m2 : Q; m3 : Q; m4 : Q; m5 : Q; m6 : Q; m7 : Q; m8 : Q }.

Definition zero : t := mk 0 0 0 0 0 0 0 0 0.

(** Modelled from the spec: [Mat33] of famous-math is not among the sources;
    the spec calls it "inverse-inertia tensor application".  Row-major
    product of the matrix with a column vector. *)
Definition vectorMultiply (m : t) (v : Vec3.t) : Vec3.t :=
  Vec3.mk (m0 m * Vec3.x v + m1 m * Vec3.y v + m2 m * Vec3.z v)
          (m3 m * Vec3.x v + m4 m * Vec3.y v + m5 m * Vec3.z v)
          (m6 m * Vec3.x v + m7 m * Vec3.y v + m8 m * Vec3.z v).

End Mat33.

(** ** Data model *)

Definition BodyRef := nat.
Definition ManifoldRef := nat.

Module Body.

Record t := mk {
  _ID : Z;
  position : Vec3.t;
  velocity : Vec3.t;
  angularVelocity : Vec3.t;
  inverseMass : Q;
  inverseInertia : Mat33.t;
  restitution : Q;
  friction : Q
}.

Definition zero : t := mk 0 Vec3.zero Vec3.zero Vec3.zero 0 Mat33.zero 0 0.

End Body.

Module CollisionData.

Record t := mk {
  normal : Vec3.t;
  localContactA : Vec3.t;
  localContactB : Vec3.t;
  worldContactA : Vec3.t;
  worldContactB : Vec3.t;
  penetration : Q
}.

End CollisionData.

Module Contact.

Record t := mk {
  bodyA : BodyRef;
  bodyB : BodyRef;
  data : option CollisionData.t;
  normalImpulse : Q;
  tangentImpulse1 : Q;
  tangentImpulse2 : Q;
  impulse : Vec3.t;
  angImpulseA : Vec3.t;
  angImpulseB : Vec3.t;
  tangent1 : Vec3.t;
  tangent2 : Vec3.t;
  effNormalMass : Q;
  effTangentialMass1 : Q;
  effTangentialMass2 : Q;
  restitution : Q;
  friction : Q;
  velocityBias : Q
}.

End Contact.

Module Manifold.

Record t := mk {
  lowID : Z;
  highID : Z;
  contacts : list (option Contact.t);
  numContacts : Z;
  bodyA : BodyRef;
  bodyB : BodyRef;
  lru : nat
}.

End Manifold.

Module ContactManifoldTable.

Record t := mk {
  manifolds : list (option ManifoldRef);
  collisionMatrix : gmap Z (gmap Z (option nat));
  _IDPool : list nat
}.

End ContactManifoldTable.

Module Distance.

Record t := mk {
  a : BodyRef;
  b : BodyRef;
  length : Q;
  minLength : Q;
  period : Q;
  dampingRatio : Q;
  stiffness : Q;
  damping : Q;
  impulse : Q;
  distance : Q;
  normal : Vec3.t;
  velocityBias : Q;
  divisor : Q
}.

End Distance.

(** ** The store and the log *)

(** What the code does to its collaborators.  A [Trigger] also records the
    table and the manifold pool as the listener finds them when called. *)
Inductive Event :=
| ApplyImpulse (body : BodyRef) (impulse : Vec3.t)
| ApplyAngularImpulse (body : BodyRef) (angularImpulse : Vec3.t)
| Trigger (body : BodyRef) (name : string) (payload : ManifoldRef)
          (table : ContactManifoldTable.t) (pool : list ManifoldRef).

Record World := mkWorld {
  bodies : gmap BodyRef Body.t;
  heap : gmap ManifoldRef Manifold.t;
  poolManifold : list ManifoldRef;
  poolContact : list Contact.t;
  poolCollisionData : list (option CollisionData.t);
  log : list Event
}.

#[global] Instance Body_inhabited : Inhabited Body.t := populate Body.zero.

Definition getBody (w : World) (r : BodyRef) : Body.t := bodies w !!! r.

Definition setBody (w : World) (r : BodyRef) (b : Body.t) : World :=
  mkWorld (<[r := b]> (bodies w)) (heap w) (poolManifold w) (poolContact w)
          (poolCollisionData w) (log w).

Definition emit (w : World) (e : Event) : World :=
  mkWorld (bodies w) (heap w) (poolManifold w) (poolContact w)
          (poolCollisionData w) (log w ++ [e]).

(** Modelled from the spec: the body is a collaborator that is not among
    the sources; its [applyImpulse] and [applyAngularImpulse] are "additive,
    sign-sensitive".  The impulse changes the velocity by the inverse mass
    (the angular one by the inverse inertia), and the call is logged with
    the vector it was given. *)
Definition applyImpulse (w : World) (r : BodyRef) (impulse : Vec3.t) : World :=
  let b := getBody w r in
  let b' := Body.mk (Body._ID b) (Body.position b)
              (Vec3.add (Body.velocity b) (Vec3.scale impulse (Body.inverseMass b)))
              (Body.angularVelocity b) (Body.inverseMass b) (Body.inverseInertia b)
              (Body.restitution b) (Body.friction b) in
  emit (setBody w r b') (ApplyImpulse r impulse).

Definition applyAngularImpulse (w : World) (r : BodyRef) (angularImpulse : Vec3.t) : World :=
  let b := getBody w r in
  let b' := Body.mk (Body._ID b) (Body.position b) (Body.velocity b)
              (Vec3.add (Body.angularVelocity b)
                        (Mat33.vectorMultiply (Body.inverseInertia b) angularImpulse))
              (Body.inverseMass b) (Body.inverseInertia b)
              (Body.restitution b) (Body.friction b) in
  emit (setBody w r b') (ApplyAngularImpulse r angularImpulse).

(** ** Contact *)

Definition Contact_set_velocityBias (c : Contact.t) (v : Q) : Contact.t :=
  Contact.mk (Contact.bodyA c) (Contact.bodyB c) (Contact.data c)
    (Contact.normalImpulse c) (Contact.tangentImpulse1 c) (Contact.tangentImpulse2 c)
    (Contact.impulse c) (Contact.angImpulseA c) (Contact.angImpulseB c)
    (Contact.tangent1 c) (Contact.tangent2 c)
    (Contact.effNormalMass c) (Contact.effTangentialMass1 c) (Contact.effTangentialMass2 c)
    (Contact.restitution c) (Contact.friction c) v.

Definition Contact_set_data (c : Contact.t) (d : option CollisionData.t) : Contact.t :=
  Contact.mk (Contact.bodyA c) (Contact.bodyB c) d
    (Contact.normalImpulse c) (Contact.tangentImpulse1 c) (Contact.tangentImpulse2 c)
    (Contact.impulse c) (Contact.angImpulseA c) (Contact.angImpulseB c)
    (Contact.tangent1 c) (Contact.tangent2 c)
    (Contact.effNormalMass c) (Contact.effTangentialMass1 c) (Contact.effTangentialMass2 c)
    (Contact.restitution c) (Contact.friction c) (Contact.velocityBias c).

(** Writes the three scalar accumulators. *)
Definition Contact_set_scalars (c : Contact.t) (n t1 t2 : Q) : Contact.t :=
  Contact.mk (Contact.bodyA c) (Contact.bodyB c) (Contact.data c)
    n t1 t2
    (Contact.impulse c) (Contact.angImpulseA c) (Contact.angImpulseB c)
    (Contact.tangent1 c) (Contact.tangent2 c)
    (Contact.effNormalMass c) (Contact.effTangentialMass1 c) (Contact.effTangentialMass2 c)
    (Contact.restitution c) (Contact.friction c) (Contact.velocityBias c).

(** Writes the three vector accumulators. *)
Definition Contact_set_vectors (c : Contact.t) (i aA aB : Vec3.t) : Contact.t :=
  Contact.mk (Contact.bodyA c) (Contact.bodyB c) (Contact.data c)
    (Contact.normalImpulse c) (Contact.tangentImpulse1 c) (Contact.tangentImpulse2 c)
    i aA aB
    (Contact.tangent1 c) (Contact.tangent2 c)
    (Contact.effNormalMass c) (Contact.effTangentialMass1 c) (Contact.effTangentialMass2 c)
    (Contact.restitution c) (Contact.friction c) (Contact.velocityBias c).

(** [new Contact()] as the pool constructs it: without collision data
    [init] is not run, and the fields that [reset] and [init] assign hold
    placeholders.  [velocityBias] is assigned by neither the constructor nor
    [reset] nor [init]: in the code it is [undefined] until the first
    [update], and arithmetic on it gives NaN, which the numbers of this
    model do not have.  The [0] below stands in for it.  [update] assigns
    the field without reading it, so no state after an [update] depends on
    the stand-in; what [resolve] computes on a contact that has not been
    through [update] is outside the model. *)
Definition Contact_new : Contact.t :=
  Contact.mk 0%nat 0%nat None 0 0 0 Vec3.zero Vec3.zero Vec3.zero
    Vec3.zero Vec3.zero 0 0 0 0 0 0.

(** [clamp(value, lower, upper)] *)
Definition clamp (value lower upper : Q) : Q :=
  if Qltb value lower then lower else if Qltb upper value then upper else value.

(** The term [dot(r, inverseInertia.vectorMultiply(r))] of an effective mass. *)
Definition inertiaTerm (b : Body.t) (r : Vec3.t) : Q :=
  Vec3.dot r (Mat33.vectorMultiply (Body.inverseInertia b) r).

(** [Contact.prototype.init] *)
Definition Contact_init `{MathLib} (w : World) (c : Contact.t) : result Contact.t :=
  match Contact.data c with
  | None => Throw TypeError
  | Some data =>
    let n := CollisionData.normal data in
    let t1 :=
      if Qle_bool 0.57735 (Vec3.x n)
      then Vec3.mk (Vec3.y n) (- Vec3.x n) 0
      else Vec3.mk 0 (Vec3.z n) (- Vec3.y n) in
    let t1 := Vec3.normalize t1 in
    let t2 := Vec3.cross n t1 in
    let bodyA := getBody w (Contact.bodyA c) in
    let bodyB := getBody w (Contact.bodyB c) in
    let rBodyA := CollisionData.localContactA data in
    let rBodyB := CollisionData.localContactB data in
    let invEffectiveMass := Body.inverseMass bodyA + Body.inverseMass bodyB in
    let r1n := Vec3.cross rBodyA n in
    let r2n := Vec3.cross rBodyB n in
    let effNormalMass :=
      1 / (invEffectiveMass + inertiaTerm bodyA r1n + inertiaTerm bodyB r2n) in
    let r1t1 := Vec3.cross rBodyA t1 in
    let r2t1 := Vec3.cross rBodyB t1 in
    let effTangentialMass1 :=
      1 / (invEffectiveMass + inertiaTerm bodyA r1t1 + inertiaTerm bodyB r2t1) in
    let r1t2 := Vec3.cross rBodyA t2 in
    let r2t2 := Vec3.cross rBodyB t2 in
    let effTangentialMass2 :=
      1 / (invEffectiveMass + inertiaTerm bodyA r1t2 + inertiaTerm bodyB r2t2) in
    Ok (Contact.mk (Contact.bodyA c) (Contact.bodyB c) (Contact.data c)
          (Contact.normalImpulse c) (Contact.tangentImpulse1 c) (Contact.tangentImpulse2 c)
          (Contact.impulse c) (Contact.angImpulseA c) (Contact.angImpulseB c)
          t1 t2 effNormalMass effTangentialMass1 effTangentialMass2
          (Math_min (Body.restitution bodyA) (Body.restitution bodyB))
          (Body.friction bodyA * Body.friction bodyB)
          (Contact.velocityBias c))
  end.

(** [Contact.prototype.reset], run on the object [c] that the pool handed out. *)
Definition Contact_reset `{MathLib} (w : World) (c : Contact.t)
    (bodyA bodyB : BodyRef) (collisionData : option CollisionData.t) : result Contact.t :=
  Contact_init w
    (Contact.mk bodyA bodyB collisionData 0 0 0
       (Vec3.clear (Contact.impulse c)) (Vec3.clear (Contact.angImpulseA c))
       (Vec3.clear (Contact.angImpulseB c))
       (Contact.tangent1 c) (Contact.tangent2 c)
       (Contact.effNormalMass c) (Contact.effTangentialMass1 c) (Contact.effTangentialMass2 c)
       (Contact.restitution c) (Contact.friction c) (Contact.velocityBias c)).

(** Velocity of the contact point of a body: [velocity + angularVelocity x r]. *)
Definition pointVelocity (b : Body.t) (r : Vec3.t) : Vec3.t :=
  Vec3.add (Body.velocity b) (Vec3.cross (Body.angularVelocity b) r).

(** [Contact.prototype.update] *)
Definition Contact_update (w : World) (c : Contact.t) (dt : Q) : result (World * Contact.t) :=
  match Contact.data c with
  | None => Throw TypeError
  | Some data =>
    let bodyA := Contact.bodyA c in
    let bodyB := Contact.bodyB c in
    let rBodyA := CollisionData.localContactA data in
    let rBodyB := CollisionData.localContactB data in
    let n := CollisionData.normal data in
    let vb1 := pointVelocity (getBody w bodyA) rBodyA in
    let vb2 := pointVelocity (getBody w bodyB) rBodyB in
    let relativeVelocity := Vec3.subtract vb2 vb1 in
    let contactSpeed := Vec3.dot relativeVelocity n in
    let beta := 0.15 in
    let slop := 1.5 in
    let velocityTolerance := 20 in
    let restitution :=
      if Qltb (Math_abs contactSpeed) velocityTolerance then 0 else Contact.restitution c in
    let c := Contact_set_velocityBias c
               (- beta * Math_max (CollisionData.penetration data - slop) 0 / dt) in
    let c := Contact_set_velocityBias c (Contact.velocityBias c + restitution * contactSpeed) in
    (* the three locals alias the accumulators of the contact, scaled in place *)
    let c := Contact_set_vectors c (Vec3.scale (Contact.impulse c) 0.25)
               (Vec3.scale (Contact.angImpulseA c) 0.25)
               (Vec3.scale (Contact.angImpulseB c) 0.25) in
    let w := applyImpulse w bodyB (Contact.impulse c) in
    let w := applyAngularImpulse w bodyB (Contact.angImpulseB c) in
    let c := Contact_set_vectors c (Vec3.invert (Contact.impulse c))
               (Contact.angImpulseA c) (Contact.angImpulseB c) in
    let w := applyImpulse w bodyA (Contact.impulse c) in
    let w := applyAngularImpulse w bodyA (Contact.angImpulseA c) in
    let c := Contact_set_scalars c 0 0 0 in
    let c := Contact_set_vectors c (Vec3.clear (Contact.impulse c))
               (Vec3.clear (Contact.angImpulseA c)) (Vec3.clear (Contact.angImpulseB c)) in
    Ok (w, c)
  end.

(** [Contact.prototype.resolve] *)
Definition Contact_resolve (w : World) (c : Contact.t) : result (World * Contact.t) :=
  match Contact.data c with
  | None => Throw TypeError
  | Some data =>
    let bodyA := Contact.bodyA c in
    let bodyB := Contact.bodyB c in
    let rBodyA := CollisionData.localContactA data in
    let rBodyB := CollisionData.localContactB data in
    let n := CollisionData.normal data in
    let t1 := Contact.tangent1 c in
    let t2 := Contact.tangent2 c in
    let vb1 := pointVelocity (getBody w bodyA) rBodyA in
    let vb2 := pointVelocity (getBody w bodyB) rBodyB in
    let relativeVelocity := Vec3.subtract vb2 vb1 in
    let normalLambda :=
      - (Vec3.dot relativeVelocity n + Contact.velocityBias c) * Contact.effNormalMass c in
    let newNormalImpulse := Math_max (Contact.normalImpulse c + normalLambda) 0 in
    let normalLambda := newNormalImpulse - Contact.normalImpulse c in
    let maxFriction := Contact.friction c * newNormalImpulse in
    let tangentLambda1 := - Vec3.dot relativeVelocity t1 * Contact.effTangentialMass1 c in
    let newTangentImpulse1 :=
      clamp (Contact.tangentImpulse1 c + tangentLambda1) (- maxFriction) maxFriction in
    let tangentLambda1 := newTangentImpulse1 - Contact.tangentImpulse1 c in
    let tangentLambda2 := - Vec3.dot relativeVelocity t2 * Contact.effTangentialMass2 c in
    let newTangentImpulse2 :=
      clamp (Contact.tangentImpulse2 c + tangentLambda2) (- maxFriction) maxFriction in
    let tangentLambda2 := newTangentImpulse2 - Contact.tangentImpulse2 c in
    let impulse := Vec3.scale n normalLambda in
    let tangentImpulse1 := Vec3.scale t1 tangentLambda1 in
    let tangentImpulse2 := Vec3.scale t2 tangentLambda2 in
    let impulse := Vec3.add (Vec3.add impulse tangentImpulse1) tangentImpulse2 in
    let angImpulseB := Vec3.cross rBodyB impulse in
    let angImpulseA := Vec3.invert (Vec3.cross rBodyA impulse) in
    let w := applyImpulse w bodyB impulse in
    let w := applyAngularImpulse w bodyB angImpulseB in
    (* [impulse.invert()] negates the scratch vector in place *)
    let impulse := Vec3.invert impulse in
    let w := applyImpulse w bodyA impulse in
    let w := applyAngularImpulse w bodyA angImpulseA in
    let c := Contact_set_scalars c newNormalImpulse newTangentImpulse1 newTangentImpulse2 in
    let c := Contact_set_vectors c (Vec3.add (Contact.impulse c) impulse)
               (Vec3.add (Contact.angImpulseA c) angImpulseA)
               (Vec3.add (Contact.angImpulseB c) angImpulseB) in
    Ok (w, c)
  end.

(** ** Distance *)

(** What the free identifier [period] of [Distance.prototype.update] refers
    to.  The file declares no such variable, so the identifier is looked up
    in the global scope when the comparison runs. *)
Inductive GlobalBinding :=
| Undeclared
| DeclaredNumber (v : Q)
| DeclaredOther.

(** [period === 0], with [period] the free identifier. *)
Definition period_is_zero (g : GlobalBinding) : result bool :=
  match g with
  | Undeclared => Throw ReferenceError
  | DeclaredNumber v => Ok (Qeq_bool v 0)
  | DeclaredOther => Ok false
  end.

(** Modelled from the spec: [getVelocity] of the body, which is not among
    the sources, reads the linear velocity. *)
Definition getVelocity (w : World) (r : BodyRef) : Vec3.t := Body.velocity (getBody w r).

(** [Distance.prototype.init] *)
Definition Distance_init `{MathLib} (w : World) (d : Distance.t) : Distance.t :=
  let length :=
    js_or (Distance.length d)
      (Vec3.length (Vec3.subtract (Body.position (getBody w (Distance.b d)))
                                  (Body.position (getBody w (Distance.a d))))) in
  let minLength := js_or (Distance.minLength d) 0 in
  let period := js_or (Distance.period d) 0.2 in
  let dampingRatio := js_or (Distance.dampingRatio d) 0.5 in
  Distance.mk (Distance.a d) (Distance.b d) length minLength period dampingRatio
    (4 * Math_PI * Math_PI / (period * period))
    (4 * Math_PI * dampingRatio / period)
    (Distance.impulse d) (Distance.distance d) (Distance.normal d)
    (Distance.velocityBias d) (Distance.divisor d).

(** The constructor: the options are copied onto the object by the base
    class, which then runs [init]; the cached state starts at zero. *)
Definition Distance_new `{MathLib} (w : World) (a b : BodyRef)
    (length minLength period dampingRatio : Q) : Distance.t :=
  Distance_init w
    (Distance.mk a b length minLength period dampingRatio 0 0 0 0 Vec3.zero 0 0).

(** The two soft-constraint coefficients [(gamma, beta)] of [update]. *)
Definition Distance_coefficients (d : Distance.t) (rigid : bool) (effectiveMass dt : Q) : Q * Q :=
  if rigid then (0, 1)
  else
    let c := Distance.damping d * effectiveMass in
    let k := Distance.stiffness d * effectiveMass in
    (1 / (dt * (c + dt * k)), dt * k / (c + dt * k)).

(** [Distance.prototype.update] *)
Definition Distance_update `{MathLib} (g : GlobalBinding) (w : World) (d : Distance.t)
    (time dt : Q) : result (World * Distance.t) :=
  let a := Distance.a d in
  let b := Distance.b d in
  let length := Distance.length d in
  let p1 := Body.position (getBody w a) in
  let w1 := Body.inverseMass (getBody w a) in
  let p2 := Body.position (getBody w b) in
  let w2 := Body.inverseMass (getBody w b) in
  let diffP := Vec3.subtract p2 p1 in
  let separation := Vec3.length diffP in
  let n := Vec3.scale diffP (1 / separation) in
  let dist := separation - length in
  let invEffectiveMass := w1 + w2 in
  let effectiveMass := 1 / invEffectiveMass in
  match period_is_zero g with
  | Throw e => Throw e
  | Ok rigid =>
    let (gamma, beta) := Distance_coefficients d rigid effectiveMass dt in
    let baumgarte := beta * dist / dt in
    let divisor := gamma + invEffectiveMass in
    let lambda := Distance.impulse d in
    let impulse := Vec3.scale n lambda in
    let w := applyImpulse w b impulse in
    let w := applyImpulse w a (Vec3.invert impulse) in
    Ok (w, Distance.mk a b (Distance.length d) (Distance.minLength d) (Distance.period d)
             (Distance.dampingRatio d) (Distance.stiffness d) (Distance.damping d)
             0 dist n baumgarte divisor)
  end.

(** [Distance.prototype.resolve] *)
Definition Distance_resolve (w : World) (d : Distance.t) : World * Distance.t :=
  let a := Distance.a d in
  let b := Distance.b d in
  let minLength := Distance.minLength d in
  let dist := Distance.distance d in
  if Qltb (Math_abs dist) minLength then (w, d)
  else
    let v1 := getVelocity w a in
    let v2 := getVelocity w b in
    let n := Distance.normal d in
    let diffV := Vec3.subtract v2 v1 in
    let lambda := - (Vec3.dot n diffV + Distance.velocityBias d) / Distance.divisor d in
    let impulse := Vec3.scale n lambda in
    let w := applyImpulse w b impulse in
    let w := applyImpulse w a (Vec3.invert impulse) in
    (w, Distance.mk a b (Distance.length d) (Distance.minLength d) (Distance.period d)
          (Distance.dampingRatio d) (Distance.stiffness d) (Distance.damping d)
          (Distance.impulse d + lambda) (Distance.distance d) (Distance.normal d)
          (Distance.velocityBias d) (Distance.divisor d)).

(** ** Sequencing of calls that may throw *)

#[global] Instance result_bind : MBind result := fun A B k r =>
  match r with
  | Ok a => k a
  | Throw e => Throw e
  end.

(** [for (var i = from; i < from + count; i++) body(i)] *)
Fixpoint for_loop {St} (body : nat -> St -> result St) (from count : nat) (s : St) : result St :=
  match count with
  | O => Ok s
  | S count' => s' ← body from s; for_loop body (S from) count' s'
  end.

(** ** ObjectManager (famous-utilities) *)

(** Modelled from the spec: the pooling collaborator is not among the
    sources; "request<Type>() returning a reusable, possibly-dirty instance
    that the caller must reset(...) before use, and free<Type>(instance)
    returning it to the pool".  A pool is a stack; an empty pool constructs
    a new object. *)
Definition OMFreeContact (w : World) (c : Contact.t) : World :=
  mkWorld (bodies w) (heap w) (poolManifold w) (array_push (poolContact w) c)
          (poolCollisionData w) (log w).

Definition freeCollisionData (w : World) (d : option CollisionData.t) : World :=
  mkWorld (bodies w) (heap w) (poolManifold w) (poolContact w)
          (array_push (poolCollisionData w) d) (log w).

Definition OMRequestContact (w : World) : World * Contact.t :=
  match array_pop (poolContact w) with
  | Some (c, rest) =>
      (mkWorld (bodies w) (heap w) (poolManifold w) rest (poolCollisionData w) (log w), c)
  | None => (w, Contact_new)
  end.

Definition OMFreeManifold (w : World) (r : ManifoldRef) : World :=
  mkWorld (bodies w) (heap w) (array_push (poolManifold w) r) (poolContact w)
          (poolCollisionData w) (log w).

(** [new Manifold()] as the pool constructs it. *)
Definition Manifold_new : Manifold.t := Manifold.mk 0 0 [] 0 0%nat 0%nat 0%nat.

#[global] Instance Manifold_inhabited : Inhabited Manifold.t := populate Manifold_new.

Definition getManifold (w : World) (r : ManifoldRef) : Manifold.t := heap w !!! r.

Definition setManifold (w : World) (r : ManifoldRef) (m : Manifold.t) : World :=
  mkWorld (bodies w) (<[r := m]> (heap w)) (poolManifold w) (poolContact w)
          (poolCollisionData w) (log w).

Definition OMRequestManifold (w : World) : World * ManifoldRef :=
  match array_pop (poolManifold w) with
  | Some (r, rest) =>
      (mkWorld (bodies w) (heap w) rest (poolContact w) (poolCollisionData w) (log w), r)
  | None =>
      let r := fresh (dom (heap w)) in
      (setManifold w r Manifold_new, r)
  end.

(** ** Manifold *)

Definition THRESHOLD : Q := 10.

(** [Manifold.prototype.reset] *)
Definition Manifold_reset (m : Manifold.t) (lowID highID : Z) (bodyA bodyB : BodyRef) : Manifold.t :=
  Manifold.mk lowID highID [] 0 bodyA bodyB 0.

Definition Manifold_set_contacts (m : Manifold.t) (cs : list (option Contact.t)) : Manifold.t :=
  Manifold.mk (Manifold.lowID m) (Manifold.highID m) cs (Manifold.numContacts m)
    (Manifold.bodyA m) (Manifold.bodyB m) (Manifold.lru m).

Definition Manifold_set_numContacts (m : Manifold.t) (n : Z) : Manifold.t :=
  Manifold.mk (Manifold.lowID m) (Manifold.highID m) (Manifold.contacts m) n
    (Manifold.bodyA m) (Manifold.bodyB m) (Manifold.lru m).

Definition Manifold_set_lru (m : Manifold.t) (lru : nat) : Manifold.t :=
  Manifold.mk (Manifold.lowID m) (Manifold.highID m) (Manifold.contacts m)
    (Manifold.numContacts m) (Manifold.bodyA m) (Manifold.bodyB m) lru.

(** [Manifold.prototype.removeContact] *)
Definition Manifold_removeContact (w : World) (m : Manifold.t) (contact : Contact.t)
    (index : nat) : World * Manifold.t :=
  let m := Manifold_set_contacts m (array_set (Manifold.contacts m) index None) in
  let m := Manifold_set_numContacts m (Manifold.numContacts m - 1)%Z in
  let w := freeCollisionData w (Contact.data contact) in
  let contact := Contact_set_data contact None in
  let w := OMFreeContact w contact in
  (w, m).

(** [Manifold.prototype.addContact] *)
Definition Manifold_addContact `{MathLib} (w : World) (m : Manifold.t)
    (bodyA bodyB : BodyRef) (collisionData : CollisionData.t) : result (World * Manifold.t) :=
  let index := Manifold.lru m in
  let (w, m) :=
    match array_get (Manifold.contacts m) index with
    | Some old => Manifold_removeContact w m old index
    | None => (w, m)
    end in
  let (w, pooled) := OMRequestContact w in
  contact ← Contact_reset w pooled bodyA bodyB (Some collisionData);
  let m := Manifold_set_contacts m (array_set (Manifold.contacts m) index (Some contact)) in
  let m := Manifold_set_lru m ((Manifold.lru m + 1) mod 4)%nat in
  let m := Manifold_set_numContacts m (Manifold.numContacts m + 1)%Z in
  Ok (w, m).

(** The loop of [Manifold.prototype.contains]: slots [i .. i + count - 1]. *)
Fixpoint Manifold_contains_loop `{MathLib} (wA wB : Vec3.t) (i count : nat)
    (w : World) (m : Manifold.t) : result (World * Manifold.t * bool) :=
  match count with
  | O => Ok (w, m, false)
  | S count' =>
    match array_get (Manifold.contacts m) i with
    | None => Manifold_contains_loop wA wB (S i) count' w m
    | Some contact =>
      match Contact.data contact with
      | None => Throw TypeError
      | Some data =>
        let distA := Vec3.length (Vec3.subtract (CollisionData.worldContactA data) wA) in
        let distB := Vec3.length (Vec3.subtract (CollisionData.worldContactB data) wB) in
        if Qltb distA THRESHOLD || Qltb distB THRESHOLD then
          let (w, m) := Manifold_removeContact w m contact i in
          Ok (w, m, true)
        else Manifold_contains_loop wA wB (S i) count' w m
      end
    end
  end.

(** [Manifold.prototype.contains] *)
Definition Manifold_contains `{MathLib} (w : World) (m : Manifold.t)
    (collisionData : CollisionData.t) : result (World * Manifold.t * bool) :=
  let wA := CollisionData.worldContactA collisionData in
  let wB := CollisionData.worldContactB collisionData in
  Manifold_contains_loop wA wB 0 (List.length (Manifold.contacts m)) w m.

(** The test of [Manifold.prototype.update] on one contact: has it drifted
    in the frame of either body, or stopped penetrating? *)
Definition Manifold_stale `{MathLib} (posA posB : Vec3.t) (data : CollisionData.t) : bool :=
  let n := CollisionData.normal data in
  let rA := CollisionData.localContactA data in
  let rB := CollisionData.localContactB data in
  let cached_wA := CollisionData.worldContactA data in
  let cached_wB := CollisionData.worldContactB data in
  let wA := Vec3.add posA rA in
  let wB := Vec3.add posB rB in
  let notPenetrating := Qltb 0 (Vec3.dot (Vec3.subtract wB wA) n) in
  let driftA := Vec3.subtract cached_wA wA in
  let driftB := Vec3.subtract cached_wB wB in
  Qle_bool THRESHOLD (Vec3.length driftA) || Qle_bool THRESHOLD (Vec3.length driftB)
  || notPenetrating.

(** One iteration of the loop of [Manifold.prototype.update]. *)
Definition Manifold_update_step `{MathLib} (posA posB : Vec3.t) (i : nat)
    (s : World * Manifold.t) : result (World * Manifold.t) :=
  let (w, m) := s in
  match array_get (Manifold.contacts m) i with
  | None => Ok (w, m)
  | Some contact =>
    match Contact.data contact with
    | None => Throw TypeError
    | Some data =>
      if Manifold_stale posA posB data
      then Ok (Manifold_removeContact w m contact i)
      else Ok (w, m)
    end
  end.

(** [Manifold.prototype.update] *)
Definition Manifold_update `{MathLib} (w : World) (m : Manifold.t) (dt : Q)
    : result (World * Manifold.t * bool) :=
  let posA := Body.position (getBody w (Manifold.bodyA m)) in
  let posB := Body.position (getBody w (Manifold.bodyB m)) in
  '(w, m) ← for_loop (Manifold_update_step posA posB) 0
               (List.length (Manifold.contacts m)) (w, m);
  if negb (Z.eqb (Manifold.numContacts m) 0) then Ok (w, m, true) else Ok (w, m, false).

(** One iteration of a loop that calls a method on every live contact of a
    manifold: [if (!contacts[i]) continue; contacts[i].method()].  The
    method changes the contact in place. *)
Definition each_contact_step (method : World -> Contact.t -> result (World * Contact.t))
    (i : nat) (s : World * Manifold.t) : result (World * Manifold.t) :=
  let (w, m) := s in
  match array_get (Manifold.contacts m) i with
  | None => Ok (w, m)
  | Some contact =>
    '(w, contact) ← method w contact;
    Ok (w, Manifold_set_contacts m (array_set (Manifold.contacts m) i (Some contact)))
  end.

(** One iteration of the loop of [Manifold.prototype.resolveContacts]. *)
Definition Manifold_resolveContacts_step : nat -> World * Manifold.t -> result (World * Manifold.t) :=
  each_contact_step Contact_resolve.

(** [Manifold.prototype.resolveContacts] *)
Definition Manifold_resolveContacts (w : World) (m : Manifold.t) : result (World * Manifold.t) :=
  for_loop Manifold_resolveContacts_step 0 (List.length (Manifold.contacts m)) (w, m).

(** ** ContactManifoldTable *)

(** [new ContactManifoldTable()] *)
Definition ContactManifoldTable_new : ContactManifoldTable.t :=
  ContactManifoldTable.mk [] ∅ [].

(** [events.trigger(name, manifold)] on a body, called while the table is [t]. *)
Definition trigger (w : World) (t : ContactManifoldTable.t) (body : BodyRef)
    (name : string) (payload : ManifoldRef) : World :=
  emit w (Trigger body name payload t (poolManifold w)).

(** [collisionMatrix[lowID] && collisionMatrix[lowID][highID]]: the slot of
    the pair, where an absent row, an absent entry and [null] are [None]. *)
Definition matrix_lookup (cm : gmap Z (gmap Z (option nat))) (lowID highID : Z) : option nat :=
  row ← cm !! lowID; mjoin (row !! highID).

(** [ContactManifoldTable.prototype.addManifold] *)
Definition ContactManifoldTable_addManifold (w : World) (t : ContactManifoldTable.t)
    (lowID highID : Z) (bodyA bodyB : BodyRef)
    : World * ContactManifoldTable.t * ManifoldRef :=
  let collisionMatrix := ContactManifoldTable.collisionMatrix t in
  let collisionMatrix :=
    <[lowID := default ∅ (collisionMatrix !! lowID)]> collisionMatrix in
  let (index, idPool) :=
    match array_pop (ContactManifoldTable._IDPool t) with
    | Some (i, rest) => (i, rest)
    | None => (List.length (ContactManifoldTable.manifolds t), ContactManifoldTable._IDPool t)
    end in
  let collisionMatrix :=
    <[lowID := <[highID := Some index]> (default ∅ (collisionMatrix !! lowID))]> collisionMatrix in
  let (w, manifold) := OMRequestManifold w in
  let w := setManifold w manifold
             (Manifold_reset (getManifold w manifold) lowID highID bodyA bodyB) in
  let manifolds := array_set (ContactManifoldTable.manifolds t) index (Some manifold) in
  (w, ContactManifoldTable.mk manifolds collisionMatrix idPool, manifold).

(** [ContactManifoldTable.prototype.removeManifold] *)
Definition ContactManifoldTable_removeManifold (w : World) (t : ContactManifoldTable.t)
    (manifold : ManifoldRef) (index : nat) : result (World * ContactManifoldTable.t) :=
  let collisionMatrix := ContactManifoldTable.collisionMatrix t in
  let manifolds := array_set (ContactManifoldTable.manifolds t) index None in
  let lowID := Manifold.lowID (getManifold w manifold) in
  let highID := Manifold.highID (getManifold w manifold) in
  match collisionMatrix !! lowID with
  | None => Throw TypeError
  | Some row =>
    let collisionMatrix := <[lowID := <[highID := None]> row]> collisionMatrix in
    let idPool := array_push (ContactManifoldTable._IDPool t) index in
    let w := OMFreeManifold w manifold in
    Ok (w, ContactManifoldTable.mk manifolds collisionMatrix idPool)
  end.

(** One iteration of the loop of [ContactManifoldTable.prototype.update]. *)
Definition ContactManifoldTable_update_step `{MathLib} (dt : Q) (i : nat)
    (s : World * ContactManifoldTable.t) : result (World * ContactManifoldTable.t) :=
  let (w, t) := s in
  match array_get (ContactManifoldTable.manifolds t) i with
  | None => Ok (w, t)
  | Some manifold =>
    '(w, m, persists) ← Manifold_update w (getManifold w manifold) dt;
    let w := setManifold w manifold m in
    if negb persists then
      '(w, t) ← ContactManifoldTable_removeManifold w t manifold i;
      let w := trigger w t (Manifold.bodyA (getManifold w manifold)) "collision:end" manifold in
      let w := trigger w t (Manifold.bodyB (getManifold w manifold)) "collision:end" manifold in
      Ok (w, t)
    else Ok (w, t)
  end.

(** [ContactManifoldTable.prototype.update] *)
Definition ContactManifoldTable_update `{MathLib} (w : World) (t : ContactManifoldTable.t)
    (dt : Q) : result (World * ContactManifoldTable.t) :=
  for_loop (ContactManifoldTable_update_step dt) 0
    (List.length (ContactManifoldTable.manifolds t)) (w, t).

(** One iteration of the inner loop of [prepContacts]. *)
Definition prepContacts_step (dt : Q) : nat -> World * Manifold.t -> result (World * Manifold.t) :=
  each_contact_step (fun w contact => Contact_update w contact dt).

(** The inner loop of [prepContacts], over the contacts of one manifold. *)
Definition Manifold_prepContacts (w : World) (m : Manifold.t) (dt : Q)
    : result (World * Manifold.t) :=
  for_loop (prepContacts_step dt) 0 (List.length (Manifold.contacts m)) (w, m).

(** [ContactManifoldTable.prototype.prepContacts] *)
Definition ContactManifoldTable_prepContacts (w : World) (t : ContactManifoldTable.t)
    (dt : Q) : result World :=
  for_loop
    (fun i w =>
       match array_get (ContactManifoldTable.manifolds t) i with
       | None => Ok w
       | Some manifold =>
         '(w, m) ← Manifold_prepContacts w (getManifold w manifold) dt;
         Ok (setManifold w manifold m)
       end)
    0 (List.length (ContactManifoldTable.manifolds t)) w.

(** [ContactManifoldTable.prototype.resolveManifolds] *)
Definition ContactManifoldTable_resolveManifolds (w : World) (t : ContactManifoldTable.t)
    : result World :=
  for_loop
    (fun i w =>
       match array_get (ContactManifoldTable.manifolds t) i with
       | None => Ok w
       | Some manifold =>
         '(w, m) ← Manifold_resolveContacts w (getManifold w manifold);
         Ok (setManifold w manifold m)
       end)
    0 (List.length (ContactManifoldTable.manifolds t)) w.

(** The canonical key of a pair of bodies in [registerContact]. *)
Definition pairKey (w : World) (bodyA bodyB : BodyRef) : Z * Z :=
  let idA := Body._ID (getBody w bodyA) in
  let idB := Body._ID (getBody w bodyB) in
  if Z.ltb idA idB then (idA, idB) else (idB, idA).

(** [ContactManifoldTable.prototype.registerContact] *)
Definition ContactManifoldTable_registerContact `{MathLib} (w : World)
    (t : ContactManifoldTable.t) (bodyA bodyB : BodyRef) (collisionData : CollisionData.t)
    : result (World * ContactManifoldTable.t) :=
  let (lowID, highID) := pairKey w bodyA bodyB in
  let manifolds := ContactManifoldTable.manifolds t in
  let collisionMatrix := ContactManifoldTable.collisionMatrix t in
  match matrix_lookup collisionMatrix lowID highID with
  | None =>
    let '(w, t, manifold) := ContactManifoldTable_addManifold w t lowID highID bodyA bodyB in
    '(w, m) ← Manifold_addContact w (getManifold w manifold) bodyA bodyB collisionData;
    let w := setManifold w manifold m in
    let w := trigger w t bodyA "collision:start" manifold in
    let w := trigger w t bodyB "collision:start" manifold in
    Ok (w, t)
  | Some index =>
    match array_get manifolds index with
    | None => Throw TypeError
    | Some manifold =>
      '(w, m, _) ← Manifold_contains w (getManifold w manifold) collisionData;
      '(w, m) ← Manifold_addContact w m bodyA bodyB collisionData;
      Ok (setManifold w manifold m, t)
    end
  end.

(** ** Runs of calls, and the notions the properties are stated with *)

(** Componentwise equality of two vectors as numbers. *)
Definition Vec3_eqv (a b : Vec3.t) : Prop :=
  Vec3.x a == Vec3.x b /\ Vec3.y a == Vec3.y b /\ Vec3.z a == Vec3.z b.

(** A run of [resolve] calls on one contact.  Between two calls the rest of
    the solver moves the bodies, so every call gets a world of its own. *)
Fixpoint Contact_resolve_each (ws : list World) (c : Contact.t) : result Contact.t :=
  match ws with
  | [] => Ok c
  | w :: ws' => '(_, c') ← Contact_resolve w c; Contact_resolve_each ws' c'
  end.

(** The relative velocity of the two contact points that [resolve] and
    [update] start from. *)
Definition relativeVelocity (w : World) (c : Contact.t) (data : CollisionData.t) : Vec3.t :=
  Vec3.subtract
    (pointVelocity (getBody w (Contact.bodyB c)) (CollisionData.localContactB data))
    (pointVelocity (getBody w (Contact.bodyA c)) (CollisionData.localContactA data)).

(** The number of live (non-null) slots of an array. *)
Definition live {A} (a : list (option A)) : nat := List.length (omap id a).

(** 1 for a live slot, 0 for an empty one. *)
Definition occupied {A} (v : option A) : nat :=
  match v with Some _ => 1%nat | None => 0%nat end.

(** The collision data of the contact in slot [j] of a manifold, if any. *)
Definition slotData (m : Manifold.t) (j : nat) : option CollisionData.t :=
  c ← array_get (Manifold.contacts m) j; Contact.data c.

(** What the methods of a manifold keep true: at most four slots, the
    cursor among them, the counter equal to the number of live contacts,
    and every live contact with its collision data. *)
Definition Manifold_wf (m : Manifold.t) : Prop :=
  (List.length (Manifold.contacts m) <= 4)%nat /\
  (Manifold.lru m < 4)%nat /\
  Manifold.numContacts m = Z.of_nat (live (Manifold.contacts m)) /\
  (forall j c, array_get (Manifold.contacts m) j = Some c -> is_Some (Contact.data c)).

(** The states of a manifold: what [reset] builds, and what the calls that
    the table makes on a manifold turn a state into. *)
Inductive Manifold_reachable `{MathLib} : Manifold.t -> Prop :=
| reach_reset m lowID highID bodyA bodyB :
    Manifold_reachable (Manifold_reset m lowID highID bodyA bodyB)
| reach_addContact m w bodyA bodyB collisionData w' m' :
    Manifold_reachable m ->
    Manifold_addContact w m bodyA bodyB collisionData = Ok (w', m') ->
    Manifold_reachable m'
| reach_contains m w collisionData w' m' found :
    Manifold_reachable m ->
    Manifold_contains w m collisionData = Ok (w', m', found) ->
    Manifold_reachable m'
| reach_update m w dt w' m' persists :
    Manifold_reachable m ->
    Manifold_update w m dt = Ok (w', m', persists) ->
    Manifold_reachable m'
| reach_prepContacts m w dt w' m' :
    Manifold_reachable m ->
    Manifold_prepContacts w m dt = Ok (w', m') ->
    Manifold_reachable m'
| reach_resolveContacts m w w' m' :
    Manifold_reachable m ->
    Manifold_resolveContacts w m = Ok (w', m') ->
    Manifold_reachable m'.

(** What the loops on a manifold leave alone: the identity of the manifold,
    and everything in the world but the pools of contacts. *)
Definition same_identity (m m' : Manifold.t) : Prop :=
  Manifold.lowID m' = Manifold.lowID m /\ Manifold.highID m' = Manifold.highID m /\
  Manifold.bodyA m' = Manifold.bodyA m /\ Manifold.bodyB m' = Manifold.bodyB m /\
  Manifold.lru m' = Manifold.lru m.

Definition same_table_view (w w' : World) : Prop :=
  bodies w' = bodies w /\ heap w' = heap w /\ poolManifold w' = poolManifold w /\
  log w' = log w.

(** What [Manifold.prototype.update] leaves in a slot: a contact that is not
    stale. *)
Definition Manifold_kept `{MathLib} (posA posB : Vec3.t) (o : option Contact.t)
    : option Contact.t :=
  c ← o; d ← Contact.data c; if Manifold_stale posA posB d then None else Some c.

(** The states of a manifold together with the age of its slots:
    [clock] counts the [addContact] calls since [reset], and [stamp j] is the
    value of that count when slot [j] was last written. *)
Inductive Manifold_written `{MathLib} : Manifold.t -> (nat -> nat) -> nat -> Prop :=
| written_reset m lowID highID bodyA bodyB stamp :
    Manifold_written (Manifold_reset m lowID highID bodyA bodyB) stamp 0
| written_addContact m stamp clock w bodyA bodyB collisionData w' m' :
    Manifold_written m stamp clock ->
    Manifold_addContact w m bodyA bodyB collisionData = Ok (w', m') ->
    Manifold_written m'
      (fun j => if decide (j = Manifold.lru m) then clock else stamp j) (S clock)
| written_contains m stamp clock w collisionData w' m' found :
    Manifold_written m stamp clock ->
    Manifold_contains w m collisionData = Ok (w', m', found) ->
    Manifold_written m' stamp clock
| written_update m stamp clock w dt w' m' persists :
    Manifold_written m stamp clock ->
    Manifold_update w m dt = Ok (w', m', persists) ->
    Manifold_written m' stamp clock
| written_prepContacts m stamp clock w dt w' m' :
    Manifold_written m stamp clock ->
    Manifold_prepContacts w m dt = Ok (w', m') ->
    Manifold_written m' stamp clock
| written_resolveContacts m stamp clock w w' m' :
    Manifold_written m stamp clock ->
    Manifold_resolveContacts w m = Ok (w', m') ->
    Manifold_written m' stamp clock.

(** The number of [addContact] calls from the one that wrote slot [j] to
    the moment the cursor is at [lru]. *)
Definition cursor_distance (lru j : nat) : nat :=
  if (j <? lru)%nat then (lru - j)%nat else (lru + 4 - j)%nat.

(** [addContact] once for every collision data of a list, in order. *)
Fixpoint Manifold_addContacts `{MathLib} (w : World) (m : Manifold.t)
    (bodyA bodyB : BodyRef) (ds : list CollisionData.t) : result (World * Manifold.t) :=
  match ds with
  | [] => Ok (w, m)
  | d :: ds' =>
    '(w, m) ← Manifold_addContact w m bodyA bodyB d;
    Manifold_addContacts w m bodyA bodyB ds'
  end.

(** What the methods of the table keep true of a live slot: its manifold is
    an object of the store, is well formed, and has its row in the matrix. *)
Definition Table_inv (w : World) (t : ContactManifoldTable.t) : Prop :=
  forall i r, array_get (ContactManifoldTable.manifolds t) i = Some r ->
    exists m, heap w !! r = Some m /\ Manifold_wf m /\
              is_Some (ContactManifoldTable.collisionMatrix t !! Manifold.lowID m).

(** The matrix points to live slots. *)
Definition Matrix_inv (t : ContactManifoldTable.t) : Prop :=
  forall lowID highID i,
    matrix_lookup (ContactManifoldTable.collisionMatrix t) lowID highID = Some i ->
    is_Some (array_get (ContactManifoldTable.manifolds t) i).




(** The test of [Manifold.prototype.contains] on one contact: is a cached
    world point within [THRESHOLD] of the candidate's? *)
Definition Manifold_near `{MathLib} (wA wB : Vec3.t) (data : CollisionData.t) : bool :=
  Qltb (Vec3.length (Vec3.subtract (CollisionData.worldContactA data) wA)) THRESHOLD
  || Qltb (Vec3.length (Vec3.subtract (CollisionData.worldContactB data) wB)) THRESHOLD.

(** A body call, as opposed to an event sent to a listener. *)
Definition is_body_call (e : Event) : Prop :=
  match e with
  | ApplyImpulse _ _ | ApplyAngularImpulse _ _ => True
  | Trigger _ _ _ _ _ => False
  end.

(** What the methods of the table keep true of the table and the store.
    Every live slot holds a well-formed manifold of the store that the
    matrix finds under its pair of identifiers; every entry of the matrix
    leads to the slot of the manifold with that pair; the free list has no
    index twice and only indices of empty slots; no manifold is in two
    slots; and the pool has no manifold twice and none that is in a slot. *)
Definition Table_consistent (w : World) (t : ContactManifoldTable.t) : Prop :=
  (forall i r, array_get (ContactManifoldTable.manifolds t) i = Some r ->
     exists m, heap w !! r = Some m /\ Manifold_wf m /\
       matrix_lookup (ContactManifoldTable.collisionMatrix t)
         (Manifold.lowID m) (Manifold.highID m) = Some i) /\
  (forall lowID highID i,
     matrix_lookup (ContactManifoldTable.collisionMatrix t) lowID highID = Some i ->
     exists r m, array_get (ContactManifoldTable.manifolds t) i = Some r /\
       heap w !! r = Some m /\ Manifold.lowID m = lowID /\ Manifold.highID m = highID) /\
  (NoDup (ContactManifoldTable._IDPool t) /\
   forall i, In i (ContactManifoldTable._IDPool t) ->
     array_get (ContactManifoldTable.manifolds t) i = None) /\
  (forall i j r, array_get (ContactManifoldTable.manifolds t) i = Some r ->
     array_get (ContactManifoldTable.manifolds t) j = Some r -> i = j) /\
  (NoDup (poolManifold w) /\
   forall r, In r (poolManifold w) ->
     is_Some (heap w !! r) /\
     forall i, array_get (ContactManifoldTable.manifolds t) i <> Some r).

(** The states of a table and its store: a new table in a store whose pool
    of manifolds is in order, and what the methods of the table make of a
    state.  Between two calls the rest of the engine may move the bodies,
    write to the log and use the pools of contacts; it does not touch the
    manifolds. *)
Inductive Table_reachable `{MathLib} : World -> ContactManifoldTable.t -> Prop :=
| table_new w :
    NoDup (poolManifold w) ->
    (forall r, In r (poolManifold w) -> is_Some (heap w !! r)) ->
    Table_reachable w ContactManifoldTable_new
| table_registerContact w t bodyA bodyB collisionData w' t' :
    Table_reachable w t ->
    ContactManifoldTable_registerContact w t bodyA bodyB collisionData = Ok (w', t') ->
    Table_reachable w' t'
| table_update w t dt w' t' :
    Table_reachable w t ->
    ContactManifoldTable_update w t dt = Ok (w', t') ->
    Table_reachable w' t'
| table_prepContacts w t dt w' :
    Table_reachable w t ->
    ContactManifoldTable_prepContacts w t dt = Ok w' ->
    Table_reachable w' t
| table_resolveManifolds w t w' :
    Table_reachable w t ->
    ContactManifoldTable_resolveManifolds w t = Ok w' ->
    Table_reachable w' t
| table_elsewhere w t w' :
    Table_reachable w t ->
    heap w' = heap w -> poolManifold w' = poolManifold w ->
    Table_reachable w' t.

(** A contact whose six accumulators are zero. *)
Definition Contact_cleared (c : Contact.t) : Prop :=
  Contact.normalImpulse c = 0 /\ Contact.tangentImpulse1 c = 0 /\
  Contact.tangentImpulse2 c = 0 /\ Contact.impulse c = Vec3.zero /\
  Contact.angImpulseA c = Vec3.zero /\ Contact.angImpulseB c = Vec3.zero.

(** ** Concrete inputs *)

Module Sample.

(** Two bodies of unit mass; the first one moves towards the second. *)
Definition bodyA : Body.t :=
  Body.mk 1 Vec3.zero (Vec3.mk 1 0 0) Vec3.zero 1 Mat33.zero 0 1.

Definition bodyB : Body.t :=
  Body.mk 2 (Vec3.mk 1 0 0) Vec3.zero Vec3.zero 1 Mat33.zero 0 1.

Definition world : World :=
  mkWorld (<[1%nat := bodyB]> (<[0%nat := bodyA]> ∅)) ∅ [] [] [] [].

(** A contact with normal [x] whose point sits off the centre of the first
    body and at the centre of the second. *)
Definition data : CollisionData.t :=
  CollisionData.mk (Vec3.mk 1 0 0) (Vec3.mk 0 1 0) Vec3.zero Vec3.zero Vec3.zero 2.

Definition contact : Contact.t :=
  Contact.mk 0%nat 1%nat (Some data) 0 0 0 Vec3.zero Vec3.zero Vec3.zero
    (Vec3.mk 0 1 0) (Vec3.mk 0 0 1) 1 1 1 0 1 0.

(** The manifold of the two bodies with the sample contact in its first
    slot.  The bodies are one unit apart along the normal, so the contact no
    longer penetrates. *)
Definition manifold : Manifold.t :=
  Manifold.mk 1 2 [Some contact] 1 0%nat 1%nat 1%nat.

(** The store with that manifold as object 0, and the table that has it in
    slot 0 under the key of the two bodies. *)
Definition store : World :=
  mkWorld (<[1%nat := bodyB]> (<[0%nat := bodyA]> ∅)) (<[0%nat := manifold]> ∅) [] [] [] [].

Definition table : ContactManifoldTable.t :=
  ContactManifoldTable.mk [Some 0%nat] (<[1%Z := <[2%Z := Some 0%nat]> ∅]> ∅) [].

(** The first body with a negative friction coefficient, and the sample
    world with that body in its place. *)
Definition slippery : Body.t :=
  Body.mk 1 Vec3.zero (Vec3.mk 1 0 0) Vec3.zero 1 Mat33.zero 0 (-1).

Definition slipperyWorld : World :=
  mkWorld (<[1%nat := bodyB]> (<[0%nat := slippery]> ∅)) ∅ [] [] [] [].

(** Collision data that differ in the penetration only. *)
Definition dataOf (p : Q) : CollisionData.t :=
  CollisionData.mk (Vec3.mk 1 0 0) (Vec3.mk 0 1 0) Vec3.zero Vec3.zero Vec3.zero p.

(** A contact that carries impulses of an earlier step. *)
Definition warm : Contact.t :=
  Contact.mk 0%nat 1%nat (Some data) 4 1 (-1) (Vec3.mk 4 8 0) (Vec3.mk 0 0 4) (Vec3.mk 0 4 0)
    (Vec3.mk 0 1 0) (Vec3.mk 0 0 1) 1 1 1 0.5 1 0.

(** A link of rest length 1 with a slack zone of 1 around it that is at
    rest, and a link whose period is zero. *)
Definition slack : Distance.t :=
  Distance.mk 0%nat 1%nat 1 1 0.2 0.5 0 0 3 0.5 (Vec3.mk 1 0 0) 0 2.

Definition rigid : Distance.t :=
  Distance.mk 0%nat 1%nat 1 0 0 0.5 0 0 0 0 Vec3.zero 0 0.

(** A stretched link along [x] without softness: unit normal, divisor equal
    to the sum of the inverse masses of the sample bodies. *)
Definition link : Distance.t :=
  Distance.mk 0%nat 1%nat 1 0 0.2 0.5 0 0 0 1 (Vec3.mk 1 0 0) 1 2.

End Sample.

(** * Properties *)

(** ** Numbers *)

Lemma Qltb_true (a b : Q) : Qltb a b = true <-> a < b.
Proof.
  unfold Qltb. rewrite negb_true_iff, <- not_true_iff_false, Qle_bool_iff.
  split; intro Hab; lra.
Qed.

Lemma Qltb_false (a b : Q) : Qltb a b = false <-> b <= a.
Proof.
  unfold Qltb. rewrite negb_false_iff, Qle_bool_iff. reflexivity.
Qed.

Lemma Math_max_nonneg (a : Q) : 0 <= Math_max a 0.
Proof.
  unfold Math_max. destruct (Qltb a 0) eqn:E.
  - lra.
  - now apply Qltb_false in E.
Qed.

Lemma clamp_bounds (v m : Q) : 0 <= m -> - m <= clamp v (- m) m <= m.
Proof.
  intro Hm. unfold clamp.
  destruct (Qltb v (- m)) eqn:E1; [lra|].
  destruct (Qltb m v) eqn:E2; [lra|].
  apply Qltb_false in E1, E2. lra.
Qed.

Lemma clamp_abs (v m : Q) : 0 <= m -> Qabs (clamp v (- m) m) <= m.
Proof.
  intro Hm. apply Qabs_Qle_condition. now apply clamp_bounds.
Qed.

(** ** The log *)

Lemma log_applyImpulse (w : World) (r : BodyRef) (v : Vec3.t) :
  log (applyImpulse w r v) = log w ++ [ApplyImpulse r v].
Proof. reflexivity. Qed.

Lemma log_applyAngularImpulse (w : World) (r : BodyRef) (v : Vec3.t) :
  log (applyAngularImpulse w r v) = log w ++ [ApplyAngularImpulse r v].
Proof. reflexivity. Qed.

(** ** Contact.resolve *)

(** C1, as amended.  In every [Contact.resolve] and every [Distance.resolve]
    the linear impulse given to the first body is the exact negation of the
    one given to the second.  The angular impulses of [Contact.resolve] are
    the lever arm of each body crossed with that linear impulse, [rB x J]
    for the second body and [-(rA x J)] for the first; [Distance.resolve]
    applies no angular impulse, and nothing at all in its slack zone. *)
Theorem resolve_impulses_opposite (w : World) (c : Contact.t) (data : CollisionData.t)
    (d : Distance.t) (Hdata : Contact.data c = Some data) :
  (exists w' c' J,
      Contact_resolve w c = Ok (w', c') /\
      log w' = log w ++
        [ApplyImpulse (Contact.bodyB c) J;
         ApplyAngularImpulse (Contact.bodyB c)
           (Vec3.cross (CollisionData.localContactB data) J);
         ApplyImpulse (Contact.bodyA c) (Vec3.invert J);
         ApplyAngularImpulse (Contact.bodyA c)
           (Vec3.invert (Vec3.cross (CollisionData.localContactA data) J))]) /\
  (exists events,
      log (Distance_resolve w d).1 = log w ++ events /\
      (events = [] \/
       exists J, events = [ApplyImpulse (Distance.b d) J;
                           ApplyImpulse (Distance.a d) (Vec3.invert J)])).
Proof.
  split.
  - unfold Contact_resolve. rewrite Hdata. cbv zeta.
    eexists _, _, _. split; [reflexivity|].
    rewrite !log_applyAngularImpulse, !log_applyImpulse, !log_applyAngularImpulse,
      !log_applyImpulse, <- !app_assoc.
    reflexivity.
  - unfold Distance_resolve. cbv zeta.
    destruct (Qltb _ _).
    + exists []. split; [now rewrite app_nil_r | now left].
    + eexists. split; [|right; eexists; reflexivity].
      cbn [fst]. rewrite !log_applyImpulse, <- !app_assoc. reflexivity.
Qed.

Lemma resolve_impulses_opposite_witness :
  exists w' c' J,
    Contact_resolve Sample.world Sample.contact = Ok (w', c') /\
    log w' = log Sample.world ++
      [ApplyImpulse 1%nat J;
       ApplyAngularImpulse 1%nat (Vec3.cross Vec3.zero J);
       ApplyImpulse 0%nat (Vec3.invert J);
       ApplyAngularImpulse 0%nat (Vec3.invert (Vec3.cross (Vec3.mk 0 1 0) J))].
Proof.
  apply (resolve_impulses_opposite Sample.world Sample.contact Sample.data
           (Distance.mk 0%nat 1%nat 1 0 0.2 0.5 0 0 0 0 Vec3.zero 0 1)).
  reflexivity.
Defined.

(** C1, as stated, fails: on the sample contact the first body receives the
    angular impulse [(0, 0, 1)] and the second one none, because the two
    lever arms differ. *)
Lemma resolve_angular_not_negated :
  exists w' c' J TB TA,
    Contact_resolve Sample.world Sample.contact = Ok (w', c') /\
    log w' = [ApplyImpulse 1%nat J; ApplyAngularImpulse 1%nat TB;
              ApplyImpulse 0%nat (Vec3.invert J); ApplyAngularImpulse 0%nat TA] /\
    ~ Vec3_eqv TA (Vec3.invert TB).
Proof.
  eexists _, _, _, _, _. split; [reflexivity|]. split; [reflexivity|].
  vm_compute. intros (_ & _ & Hz). discriminate Hz.
Qed.

(** What one [resolve] call leaves in the accumulators. *)
Lemma Contact_resolve_accumulators (w : World) (c : Contact.t) (data : CollisionData.t) :
  Contact.data c = Some data ->
  exists w' c',
    Contact_resolve w c = Ok (w', c') /\
    Contact.data c' = Some data /\
    Contact.friction c' = Contact.friction c /\
    0 <= Contact.normalImpulse c' /\
    (0 <= Contact.friction c ->
     Qabs (Contact.tangentImpulse1 c') <= Contact.friction c' * Contact.normalImpulse c' /\
     Qabs (Contact.tangentImpulse2 c') <= Contact.friction c' * Contact.normalImpulse c').
Proof.
  intro Hdata. unfold Contact_resolve. rewrite Hdata. cbv zeta.
  eexists _, _. split; [reflexivity|].
  cbn [Contact_set_vectors Contact_set_scalars Contact.data Contact.friction
       Contact.normalImpulse Contact.tangentImpulse1 Contact.tangentImpulse2].
  repeat split; auto using Math_max_nonneg.
  - apply clamp_abs. apply Qmult_le_0_compat; auto using Math_max_nonneg.
  - apply clamp_abs. apply Qmult_le_0_compat; auto using Math_max_nonneg.
Qed.

(** A run of calls on a contact that has its collision data runs through,
    and what holds after one call holds at the end of the run. *)
Lemma Contact_resolve_each_last (P : Contact.t -> Prop) (data : CollisionData.t) (f : Q) :
  (forall w c, Contact.data c = Some data -> Contact.friction c = f ->
     forall w' c', Contact_resolve w c = Ok (w', c') -> P c') ->
  forall ws c, Contact.data c = Some data -> Contact.friction c = f ->
    exists c', Contact_resolve_each ws c = Ok c' /\
               Contact.data c' = Some data /\ Contact.friction c' = f /\
               (ws <> [] -> P c').
Proof.
  intros HP ws. induction ws as [|w ws IH]; intros c Hdata Hf.
  - exists c. cbn. repeat split; auto. congruence.
  - destruct (Contact_resolve_accumulators w c data Hdata)
      as (w1 & c1 & Hr & Hdata1 & Hf1 & _).
    destruct (IH c1 Hdata1 ltac:(congruence)) as (c' & Hrun & Hdata' & Hf' & Hlast).
    exists c'. cbn [Contact_resolve_each]. rewrite Hr. cbn.
    repeat split; auto.
    intros _. destruct ws as [|w2 ws].
    + cbn in Hrun. injection Hrun as <-. exact (HP w c Hdata Hf w1 c1 Hr).
    + apply Hlast. discriminate.
Qed.

(** C3.  Whatever state a contact is in and however the bodies move between
    the calls, after every [resolve] call of a run the accumulated normal
    impulse is not negative. *)
Theorem normalImpulse_never_negative (ws : list World) (c : Contact.t)
    (data : CollisionData.t)
    (Hdata : Contact.data c = Some data) (Hcalls : ws <> []) :
  exists c', Contact_resolve_each ws c = Ok c' /\ 0 <= Contact.normalImpulse c'.
Proof.
  destruct (Contact_resolve_each_last (fun c' => 0 <= Contact.normalImpulse c')
              data (Contact.friction c)) with (ws := ws) (c := c)
    as (c' & Hrun & _ & _ & Hlast); auto.
  - intros w0 c0 Hd0 _ w' c1 Hr.
    destruct (Contact_resolve_accumulators w0 c0 data Hd0) as (? & ? & Hr' & _ & _ & Hn & _).
    congruence.
  - eauto.
Qed.

Lemma normalImpulse_never_negative_witness :
  exists c', Contact_resolve_each [Sample.world; Sample.world] Sample.contact = Ok c' /\
             0 <= Contact.normalImpulse c'.
Proof.
  apply (normalImpulse_never_negative [Sample.world; Sample.world] Sample.contact Sample.data).
  - reflexivity.
  - discriminate.
Defined.

(** [update] assigns the velocity bias without reading it: what it returns
    does not depend on the bias that the contact had. *)
Lemma Contact_update_assigns_bias (w : World) (c : Contact.t) (v dt : Q) :
  Contact_update w (Contact_set_velocityBias c v) dt = Contact_update w c dt.
Proof.
  unfold Contact_update. cbn [Contact_set_velocityBias Contact.data].
  destruct (Contact.data c); reflexivity.
Qed.

(** [update] on a contact that has its collision data returns, and keeps
    the data and the friction coefficient. *)
Lemma Contact_update_keeps (w : World) (c : Contact.t) (data : CollisionData.t) (dt : Q) :
  Contact.data c = Some data ->
  exists w' c',
    Contact_update w c dt = Ok (w', c') /\
    Contact.data c' = Some data /\
    Contact.friction c' = Contact.friction c.
Proof.
  intro Hdata. unfold Contact_update. rewrite Hdata. cbv zeta.
  eexists _, _. split; [reflexivity|]. split; [exact Hdata|reflexivity].
Qed.

(** C4.  Take a contact whose friction coefficient is not negative, and let
    [update] with a time step that is not zero assign its velocity bias.
    Then after every [resolve] call of a run that follows, however the
    bodies move between the calls, both tangential accumulators lie within
    [friction * normalImpulse] of zero; when the normal impulse of that call
    comes out as zero they are zero as well. *)
Theorem friction_cone_after_resolve (w0 : World) (c0 : Contact.t) (dt : Q)
    (ws : list World) (data : CollisionData.t)
    (Hdata : Contact.data c0 = Some data) (Hdt : ~ dt == 0)
    (Hfriction : 0 <= Contact.friction c0) (Hcalls : ws <> []) :
  exists w1 c c',
    Contact_update w0 c0 dt = Ok (w1, c) /\
    Contact_resolve_each ws c = Ok c' /\
    Qabs (Contact.tangentImpulse1 c') <= Contact.friction c' * Contact.normalImpulse c' /\
    Qabs (Contact.tangentImpulse2 c') <= Contact.friction c' * Contact.normalImpulse c' /\
    (Contact.normalImpulse c' == 0 ->
     Contact.tangentImpulse1 c' == 0 /\ Contact.tangentImpulse2 c' == 0).
Proof.
  destruct (Contact_update_keeps w0 c0 data dt Hdata) as (w1 & c & Hupdate & Hdata1 & Hf1).
  destruct (Contact_resolve_each_last
              (fun c' =>
                 Qabs (Contact.tangentImpulse1 c') <= Contact.friction c' * Contact.normalImpulse c' /\
                 Qabs (Contact.tangentImpulse2 c') <= Contact.friction c' * Contact.normalImpulse c')
              data (Contact.friction c)) with (ws := ws) (c := c)
    as (c' & Hrun & _ & _ & Hlast); auto.
  - intros w2 c2 Hd2 Hf2 w' c3 Hr.
    destruct (Contact_resolve_accumulators w2 c2 data Hd2)
      as (? & ? & Hr' & _ & _ & _ & Hcone).
    rewrite Hr in Hr'. injection Hr' as <- <-. apply Hcone.
    rewrite Hf2, Hf1. exact Hfriction.
  - destruct (Hlast Hcalls) as [H1 H2].
    exists w1, c, c'. split; [exact Hupdate|]. split; [exact Hrun|].
    split; [exact H1|]. split; [exact H2|].
    intro Hzero. rewrite Hzero, Qmult_0_r in H1, H2.
    apply Qabs_Qle_condition in H1, H2. split; lra.
Qed.

Lemma friction_cone_after_resolve_witness :
  exists w1 c c',
    Contact_update Sample.world Sample.contact 1 = Ok (w1, c) /\
    Contact_resolve_each [Sample.world; Sample.world] c = Ok c' /\
    Qabs (Contact.tangentImpulse1 c') <= Contact.friction c' * Contact.normalImpulse c' /\
    Qabs (Contact.tangentImpulse2 c') <= Contact.friction c' * Contact.normalImpulse c' /\
    (Contact.normalImpulse c' == 0 ->
     Contact.tangentImpulse1 c' == 0 /\ Contact.tangentImpulse2 c' == 0).
Proof.
  apply (friction_cone_after_resolve Sample.world Sample.contact 1
           [Sample.world; Sample.world] Sample.data).
  - reflexivity.
  - intro Hzero. discriminate Hzero.
  - cbn. lra.
  - discriminate.
Defined.

(** C4, as stated, fails when the friction coefficient of the contact is
    negative.  The first sample body with friction [-1] and the second with
    friction [1] give the contact the coefficient [-1]; after [reset],
    [update] with time step [1] and one [resolve] the normal impulse is
    [0.5375], so the interval of the clamp is empty, [clamp] returns its
    lower bound [0.5375], and the first tangential accumulator is above
    [friction * normalImpulse = -0.5375]. *)
Lemma friction_cone_negative_friction :
  exists c0 w1 c w2 c',
    @Contact_reset exactMath Sample.slipperyWorld Sample.contact 0%nat 1%nat
      (Some Sample.data) = Ok c0 /\
    Contact.friction c0 == -1 /\
    Contact_update Sample.slipperyWorld c0 1 = Ok (w1, c) /\
    Contact_resolve w1 c = Ok (w2, c') /\
    Contact.normalImpulse c' == 0.5375 /\
    Contact.tangentImpulse1 c' == 0.5375 /\
    ~ Qabs (Contact.tangentImpulse1 c') <= Contact.friction c' * Contact.normalImpulse c'.
Proof.
  eexists _, _, _, _, _.
  split; [vm_compute; reflexivity|]. split; [vm_compute; reflexivity|].
  split; [vm_compute; reflexivity|]. split; [vm_compute; reflexivity|].
  split; [vm_compute; reflexivity|]. split; [vm_compute; reflexivity|].
  apply Qlt_not_le. vm_compute. reflexivity.
Qed.

(** ** Contact.update *)

(** C9.  [Contact.update] takes the restitution as zero when the speed along
    the normal is below 20 in magnitude, sets the velocity bias to
    [-0.15 * max(penetration - 1.5, 0) / dt] plus that restitution times the
    speed, gives the second body a quarter of the accumulated linear and
    angular impulse and the first body the negated quarter of the linear one
    and a quarter of its own angular one, and leaves every accumulator at
    zero. *)
Theorem Contact_update_effect (w : World) (c : Contact.t) (data : CollisionData.t) (dt : Q)
    (Hdata : Contact.data c = Some data) :
  let contactSpeed := Vec3.dot (relativeVelocity w c data) (CollisionData.normal data) in
  let bias := - 0.15 * Math_max (CollisionData.penetration data - 1.5) 0 / dt in
  exists w' c',
    Contact_update w c dt = Ok (w', c') /\
    (Qabs contactSpeed < 20 -> Contact.velocityBias c' == bias) /\
    (20 <= Qabs contactSpeed ->
     Contact.velocityBias c' == bias + Contact.restitution c * contactSpeed) /\
    log w' = log w ++
      [ApplyImpulse (Contact.bodyB c) (Vec3.scale (Contact.impulse c) 0.25);
       ApplyAngularImpulse (Contact.bodyB c) (Vec3.scale (Contact.angImpulseB c) 0.25);
       ApplyImpulse (Contact.bodyA c) (Vec3.invert (Vec3.scale (Contact.impulse c) 0.25));
       ApplyAngularImpulse (Contact.bodyA c) (Vec3.scale (Contact.angImpulseA c) 0.25)] /\
    Contact.normalImpulse c' = 0 /\
    Contact.tangentImpulse1 c' = 0 /\
    Contact.tangentImpulse2 c' = 0 /\
    Contact.impulse c' = Vec3.zero /\
    Contact.angImpulseA c' = Vec3.zero /\
    Contact.angImpulseB c' = Vec3.zero.
Proof.
  intros contactSpeed bias. unfold Contact_update. rewrite Hdata. cbv zeta.
  eexists _, _. split; [reflexivity|].
  cbn [Contact_set_vectors Contact_set_scalars Contact_set_velocityBias
       Contact.velocityBias Contact.normalImpulse Contact.tangentImpulse1
       Contact.tangentImpulse2 Contact.impulse Contact.angImpulseA Contact.angImpulseB
       Contact.bodyA Contact.bodyB Contact.restitution].
  fold (relativeVelocity w c data). fold contactSpeed. fold bias.
  unfold Math_abs.
  split; [|split; [|split]].
  - intro Hslow. apply Qltb_true in Hslow. rewrite Hslow.
    unfold bias, Qdiv. ring.
  - intro Hfast. apply Qltb_false in Hfast. rewrite Hfast. reflexivity.
  - rewrite !log_applyAngularImpulse, !log_applyImpulse, !log_applyAngularImpulse,
      !log_applyImpulse, <- !app_assoc.
    reflexivity.
  - repeat split.
Qed.

Lemma Contact_update_effect_witness :
  exists w' c',
    Contact_update Sample.world Sample.warm (1 # 60) = Ok (w', c') /\
    Contact.velocityBias c' == - (9 # 2) /\
    log w' = [ApplyImpulse 1%nat (Vec3.scale (Vec3.mk 4 8 0) 0.25);
              ApplyAngularImpulse 1%nat (Vec3.scale (Vec3.mk 0 4 0) 0.25);
              ApplyImpulse 0%nat (Vec3.invert (Vec3.scale (Vec3.mk 4 8 0) 0.25));
              ApplyAngularImpulse 0%nat (Vec3.scale (Vec3.mk 0 0 4) 0.25)] /\
    Contact.impulse c' = Vec3.zero.
Proof.
  destruct (Contact_update_effect Sample.world Sample.warm Sample.data (1 # 60))
    as (w' & c' & Hrun & Hslow & _ & Hlog & _ & _ & _ & Hclear & _).
  - reflexivity.
  - exists w', c'. split; [exact Hrun|]. split; [|split; [|exact Hclear]].
    + rewrite Hslow; [reflexivity | vm_compute; reflexivity].
    + rewrite Hlog. reflexivity.
Defined.

(** ** Distance *)

(** C7.  Inside the slack zone, [|distance| < minLength], [Distance.resolve]
    changes nothing: the bodies, the log and the constraint are as before. *)
Theorem Distance_resolve_slack (w : World) (d : Distance.t)
    (Hslack : Qabs (Distance.distance d) < Distance.minLength d) :
  Distance_resolve w d = (w, d).
Proof.
  unfold Distance_resolve, Math_abs. cbv zeta.
  apply Qltb_true in Hslack. now rewrite Hslack.
Qed.

Lemma Distance_resolve_slack_witness :
  Distance_resolve Sample.world Sample.slack = (Sample.world, Sample.slack).
Proof.
  apply (Distance_resolve_slack Sample.world Sample.slack).
  reflexivity.
Defined.

(** The comparison [period === 0] of [update] reads a variable that the file
    never declares: where no global of that name exists, every call throws
    before any coefficient is computed. *)
Lemma Distance_update_undeclared `{MathLib} (w : World) (d : Distance.t) (time dt : Q) :
  Distance_update Undeclared w d time dt = Throw ReferenceError.
Proof. reflexivity. Qed.

(** Where such a global exists, it alone picks the branch; the period of the
    constraint is not looked at. *)
Lemma Distance_update_follows_global `{MathLib} (w : World) (d : Distance.t)
    (time dt p : Q) :
  exists w' d',
    Distance_update (DeclaredNumber p) w d time dt = Ok (w', d') /\
    Distance.divisor d' =
      (Distance_coefficients d (Qeq_bool p 0)
         (1 / (Body.inverseMass (getBody w (Distance.a d)) +
               Body.inverseMass (getBody w (Distance.b d)))) dt).1 +
      (Body.inverseMass (getBody w (Distance.a d)) +
       Body.inverseMass (getBody w (Distance.b d))).
Proof.
  unfold Distance_update. cbn [period_is_zero]. cbv zeta.
  destruct (Distance_coefficients _ _ _ _) as [gamma beta].
  eexists _, _. split; reflexivity.
Qed.

(** [init] replaces a zero period by the default, so a constraint comes out
    of its constructor with the period 0.2. *)
Lemma Distance_init_period `{MathLib} (w : World) (d : Distance.t) :
  Distance.period d == 0 -> Distance.period (Distance_init w d) = 0.2.
Proof.
  intro Hzero. cbn. unfold js_or, truthy.
  apply Qeq_bool_iff in Hzero. now rewrite Hzero.
Qed.

(** C2 fails on the code: for a constraint whose period is zero [update]
    throws, and neither [gamma = 0, beta = 1] nor anything else is stored. *)
Theorem Distance_update_zero_period_throws :
  Distance.period Sample.rigid == 0 /\
  @Distance_update exactMath Undeclared Sample.world Sample.rigid 0 (1 # 60)
  = Throw ReferenceError.
Proof. split; reflexivity. Qed.

(** ** Arrays *)

Lemma array_get_set_eq {A} (a : list (option A)) (i : nat) (v : option A) :
  array_get (array_set a i v) i = v.
Proof.
  unfold array_get, array_set. case_decide as Hi.
  - now rewrite list_lookup_insert_eq.
  - rewrite lookup_app_r by lia.
    rewrite lookup_app_r by (rewrite length_replicate; lia).
    rewrite length_replicate, Nat.sub_diag. reflexivity.
Qed.

Lemma array_get_set_ne {A} (a : list (option A)) (i j : nat) (v : option A) :
  i <> j -> array_get (array_set a i v) j = array_get a j.
Proof.
  intro Hij. unfold array_get, array_set. case_decide as Hi.
  - now rewrite list_lookup_insert_ne.
  - destruct (decide (j < length a)%nat) as [Hj|Hj].
    + now rewrite lookup_app_l.
    + rewrite lookup_app_r by lia.
      rewrite (lookup_ge_None_2 a j) by lia.
      destruct (decide (j - length a < i - length a)%nat) as [Hlt|Hge].
      * rewrite lookup_app_l by (rewrite length_replicate; lia).
        now rewrite lookup_replicate_2.
      * rewrite lookup_app_r by (rewrite length_replicate; lia).
        rewrite length_replicate.
        rewrite lookup_ge_None_2; [reflexivity | cbn; lia].
Qed.

Lemma array_set_length {A} (a : list (option A)) (i : nat) (v : option A) :
  length (array_set a i v) = Nat.max (length a) (S i).
Proof.
  unfold array_set. case_decide.
  - rewrite length_insert. lia.
  - rewrite !length_app, length_replicate. cbn. lia.
Qed.

Lemma array_get_beyond {A} (a : list (option A)) (i : nat) :
  (length a <= i)%nat -> array_get a i = None.
Proof.
  intro Hi. unfold array_get. now rewrite lookup_ge_None_2.
Qed.

Lemma live_replicate_None {A} (n : nat) : live (replicate n (@None A)) = 0%nat.
Proof. induction n; auto. Qed.

Lemma live_app {A} (a b : list (option A)) : live (a ++ b) = (live a + live b)%nat.
Proof. unfold live. now rewrite omap_app, length_app. Qed.

Lemma live_insert {A} (a : list (option A)) (i : nat) (v : option A) :
  (i < length a)%nat ->
  (live (<[i := v]> a) + occupied (array_get a i) = live a + occupied v)%nat.
Proof.
  revert i. induction a as [|o a IH]; intros i Hi; [cbn in Hi; lia|].
  destruct i as [|i].
  - destruct o, v; cbn; lia.
  - cbn in Hi. specialize (IH i ltac:(lia)).
    change (array_get (o :: a) (S i)) with (array_get a i).
    change (<[S i := v]> (o :: a)) with (o :: <[i := v]> a).
    destruct o; unfold live in *; cbn; lia.
Qed.

Lemma live_array_set {A} (a : list (option A)) (i : nat) (v : option A) :
  (live (array_set a i v) + occupied (array_get a i) = live a + occupied v)%nat.
Proof.
  unfold array_set. case_decide as Hi.
  - now apply live_insert.
  - rewrite array_get_beyond by lia.
    rewrite !live_app, live_replicate_None. destruct v; cbn; lia.
Qed.

Lemma live_le_length {A} (a : list (option A)) : (live a <= length a)%nat.
Proof.
  induction a as [|[x|] a IH]; unfold live in *; cbn; lia.
Qed.

Lemma array_get_live {A} (a : list (option A)) (i : nat) (x : A) :
  array_get a i = Some x -> (0 < live a)%nat.
Proof.
  revert i. induction a as [|o a IH]; intros i Hget.
  - discriminate.
  - destruct i as [|i].
    + cbn in Hget. subst o. unfold live. cbn. lia.
    + change (array_get (o :: a) (S i)) with (array_get a i) in Hget.
      apply IH in Hget. destruct o; unfold live in *; cbn; lia.
Qed.

Lemma live_some {A} (a : list (option A)) :
  (0 < live a)%nat -> exists i x, array_get a i = Some x.
Proof.
  induction a as [|o a IH]; intro Hlive.
  - unfold live in Hlive. cbn in Hlive. lia.
  - destruct o as [x|].
    + now exists 0%nat, x.
    + destruct IH as (i & x & Hget); [exact Hlive|]. now exists (S i), x.
Qed.

(** ** Manifold *)

Lemma bind_Ok {A B} (a : A) (k : A -> result B) : (x ← Ok a; k x) = k a.
Proof. reflexivity. Qed.

Lemma array_pop_push {A} (a : list A) (v : A) : array_pop (array_push a v) = Some (v, a).
Proof.
  unfold array_pop, array_push. now rewrite last_snoc, removelast_last.
Qed.

Lemma Contact_reset_ok `{MathLib} (w : World) (pooled : Contact.t) (a b : BodyRef)
    (d : CollisionData.t) :
  exists c, Contact_reset w pooled a b (Some d) = Ok c /\
            Contact.data c = Some d /\ Contact.bodyA c = a /\ Contact.bodyB c = b /\
            Contact.normalImpulse c = 0 /\ Contact.tangentImpulse1 c = 0 /\
            Contact.tangentImpulse2 c = 0 /\ Contact.impulse c = Vec3.zero /\
            Contact.angImpulseA c = Vec3.zero /\ Contact.angImpulseB c = Vec3.zero /\
            Contact.friction c =
              Body.friction (getBody w a) * Body.friction (getBody w b).
Proof.
  unfold Contact_reset, Contact_init. cbn [Contact.data]. cbv zeta.
  eexists. split; [reflexivity|]. cbn. repeat split.
Qed.

(** The effect of [addContact], slot by slot. *)
Lemma Manifold_addContact_spec `{MathLib} (w : World) (m : Manifold.t) (a b : BodyRef)
    (d : CollisionData.t) :
  exists w' m' c,
    Manifold_addContact w m a b d = Ok (w', m') /\
    Contact.data c = Some d /\
    array_get (Manifold.contacts m') (Manifold.lru m) = Some c /\
    (forall j, j <> Manifold.lru m ->
       array_get (Manifold.contacts m') j = array_get (Manifold.contacts m) j) /\
    length (Manifold.contacts m') =
      Nat.max (length (Manifold.contacts m)) (S (Manifold.lru m)) /\
    (live (Manifold.contacts m') + occupied (array_get (Manifold.contacts m) (Manifold.lru m))
     = live (Manifold.contacts m) + 1)%nat /\
    (Manifold.numContacts m' + Z.of_nat (occupied (array_get (Manifold.contacts m) (Manifold.lru m)))
     = Manifold.numContacts m + 1)%Z /\
    Manifold.lru m' = ((Manifold.lru m + 1) mod 4)%nat /\
    (Manifold.lowID m' = Manifold.lowID m /\ Manifold.highID m' = Manifold.highID m /\
     Manifold.bodyA m' = Manifold.bodyA m /\ Manifold.bodyB m' = Manifold.bodyB m) /\
    (bodies w' = bodies w /\ heap w' = heap w /\ poolManifold w' = poolManifold w /\
     log w' = log w) /\
    match array_get (Manifold.contacts m) (Manifold.lru m) with
    | Some old =>
        poolCollisionData w' = poolCollisionData w ++ [Contact.data old] /\
        poolContact w' = poolContact w
    | None => poolCollisionData w' = poolCollisionData w
    end.
Proof.
  unfold Manifold_addContact. cbv zeta.
  destruct (array_get (Manifold.contacts m) (Manifold.lru m)) as [old|] eqn:Hslot.
  - unfold Manifold_removeContact. cbv zeta.
    unfold OMRequestContact at 1.
    cbn [poolContact OMFreeContact freeCollisionData].
    rewrite array_pop_push.
    match goal with |- context [Contact_reset ?w0 ?p a b (Some d)] =>
      destruct (Contact_reset_ok w0 p a b d) as (c & Hc & Hd & _); rewrite Hc end.
    rewrite bind_Ok.
    eexists _, _, c. split; [reflexivity|]. split; [exact Hd|].
    cbn [Manifold.contacts Manifold_set_contacts Manifold_set_lru Manifold_set_numContacts
         Manifold.lru Manifold.numContacts Manifold.lowID Manifold.highID Manifold.bodyA
         Manifold.bodyB bodies heap poolManifold poolContact poolCollisionData log].
    assert (Hlt : (Manifold.lru m < length (Manifold.contacts m))%nat).
    { destruct (decide (Manifold.lru m < length (Manifold.contacts m))%nat); [assumption|].
      rewrite array_get_beyond in Hslot by lia. discriminate. }
    split; [apply array_get_set_eq|].
    split; [intros j Hj; now rewrite !array_get_set_ne by auto|].
    split; [rewrite !array_set_length; lia|].
    split.
    { pose proof (live_array_set (Manifold.contacts m) (Manifold.lru m) None) as H1.
      pose proof (live_array_set (array_set (Manifold.contacts m) (Manifold.lru m) None)
                    (Manifold.lru m) (Some c)) as H2.
      rewrite array_get_set_eq in H2. rewrite Hslot in H1. cbn in *. lia. }
    split; [cbn; lia|].
    repeat split.
  - destruct (OMRequestContact w) as [w1 pooled] eqn:Hreq.
    destruct (Contact_reset_ok w1 pooled a b d) as (c & Hc & Hd & _). rewrite Hc.
    rewrite bind_Ok.
    eexists _, _, c. split; [reflexivity|]. split; [exact Hd|].
    cbn [Manifold.contacts Manifold_set_contacts Manifold_set_lru Manifold_set_numContacts
         Manifold.lru Manifold.numContacts Manifold.lowID Manifold.highID Manifold.bodyA
         Manifold.bodyB].
    split; [apply array_get_set_eq|].
    split; [intros j Hj; now rewrite array_get_set_ne by auto|].
    split; [rewrite array_set_length; lia|].
    split.
    { pose proof (live_array_set (Manifold.contacts m) (Manifold.lru m) (Some c)) as H1.
      rewrite Hslot in H1. cbn in *. lia. }
    split; [cbn; lia|].
    unfold OMRequestContact in Hreq.
    destruct (array_pop (poolContact w)) as [[p rest]|]; injection Hreq as <- <-;
      repeat split.
Qed.

(** A loop whose body keeps an invariant of the index and the state runs
    through and ends in the invariant. *)
Lemma for_loop_invariant {St} (P : nat -> St -> Prop) (body : nat -> St -> result St) :
  (forall i s, P i s -> exists s', body i s = Ok s' /\ P (S i) s') ->
  forall count from s, P from s ->
    exists s', for_loop body from count s = Ok s' /\ P (from + count)%nat s'.
Proof.
  intros Hbody count. induction count as [|count IH]; intros from s HP.
  - exists s. rewrite Nat.add_0_r. now split.
  - destruct (Hbody from s HP) as (s1 & Hs1 & HP1).
    destruct (IH (S from) s1 HP1) as (s' & Hs' & HP').
    exists s'. cbn [for_loop]. rewrite Hs1, bind_Ok.
    split; [exact Hs'|]. now replace (from + S count)%nat with (S from + count)%nat by lia.
Qed.

Lemma Manifold_reset_wf (m : Manifold.t) (lowID highID : Z) (a b : BodyRef) :
  Manifold_wf (Manifold_reset m lowID highID a b).
Proof.
  repeat split; cbn; try lia. intros j c Hget.
  unfold array_get in Hget. now rewrite lookup_nil in Hget.
Qed.

Lemma array_get_lt {A} (a : list (option A)) (i : nat) (x : A) :
  array_get a i = Some x -> (i < length a)%nat.
Proof.
  intro Hget. destruct (decide (i < length a)%nat); [assumption|].
  rewrite array_get_beyond in Hget by lia. discriminate.
Qed.

(** [removeContact] on a live slot. *)
Lemma Manifold_removeContact_spec (w : World) (m : Manifold.t) (c : Contact.t) (i : nat) :
  let (w', m') := Manifold_removeContact w m c i in
  Manifold.contacts m' = array_set (Manifold.contacts m) i None /\
  Manifold.numContacts m' = (Manifold.numContacts m - 1)%Z /\
  Manifold.lru m' = Manifold.lru m /\
  (Manifold.lowID m' = Manifold.lowID m /\ Manifold.highID m' = Manifold.highID m /\
   Manifold.bodyA m' = Manifold.bodyA m /\ Manifold.bodyB m' = Manifold.bodyB m) /\
  (bodies w' = bodies w /\ heap w' = heap w /\ poolManifold w' = poolManifold w /\
   log w' = log w) /\
  poolCollisionData w' = poolCollisionData w ++ [Contact.data c] /\
  poolContact w' = poolContact w ++ [Contact_set_data c None].
Proof. cbn. repeat split. Qed.

Lemma Manifold_removeContact_wf (w : World) (m : Manifold.t) (c : Contact.t) (i : nat) :
  Manifold_wf m -> array_get (Manifold.contacts m) i = Some c ->
  Manifold_wf (Manifold_removeContact w m c i).2.
Proof.
  intros (Hlen & Hlru & Hnum & Hdata) Hget.
  pose proof (array_get_lt _ _ _ Hget) as Hi.
  pose proof (live_array_set (Manifold.contacts m) i None) as Hlive.
  rewrite Hget in Hlive. cbn [occupied] in Hlive.
  unfold Manifold_wf, Manifold_removeContact.
  cbn [snd Manifold.contacts Manifold_set_contacts Manifold_set_numContacts
       Manifold.lru Manifold.numContacts].
  split; [rewrite array_set_length; lia|].
  split; [exact Hlru|].
  split; [lia|].
  intros j c' Hj. destruct (decide (i = j)) as [->|Hij].
  - rewrite array_get_set_eq in Hj. discriminate.
  - rewrite array_get_set_ne in Hj by auto. eauto.
Qed.

Lemma Manifold_addContact_wf `{MathLib} (w : World) (m : Manifold.t) (a b : BodyRef)
    (d : CollisionData.t) (w' : World) (m' : Manifold.t) :
  Manifold_wf m -> Manifold_addContact w m a b d = Ok (w', m') -> Manifold_wf m'.
Proof.
  intros (Hlen & Hlru & Hnum & Hdata) Hadd.
  destruct (Manifold_addContact_spec w m a b d)
    as (w1 & m1 & c & Hadd1 & Hd & Hslot & Hother & Hlen1 & Hlive & Hcount & Hlru1 & _).
  rewrite Hadd in Hadd1. injection Hadd1 as <- <-.
  split; [lia|].
  split; [rewrite Hlru1; apply Nat.mod_upper_bound; lia|].
  split; [lia|].
  intros j c' Hj. destruct (decide (j = Manifold.lru m)) as [->|Hne].
  - rewrite Hslot in Hj. injection Hj as <-. now rewrite Hd.
  - rewrite Hother in Hj by auto. eauto.
Qed.

Lemma Manifold_contains_loop_wf `{MathLib} (wA wB : Vec3.t) (count i : nat)
    (w : World) (m : Manifold.t) :
  Manifold_wf m ->
  exists w' m' found,
    Manifold_contains_loop wA wB i count w m = Ok (w', m', found) /\ Manifold_wf m' /\
    (Manifold.lowID m' = Manifold.lowID m /\ Manifold.highID m' = Manifold.highID m /\
     Manifold.bodyA m' = Manifold.bodyA m /\ Manifold.bodyB m' = Manifold.bodyB m) /\
    (bodies w' = bodies w /\ heap w' = heap w /\ poolManifold w' = poolManifold w /\
     log w' = log w).
Proof.
  intro Hwf. revert i. induction count as [|count IH]; intro i; cbn [Manifold_contains_loop].
  - exists w, m, false. split; [reflexivity|]. split; [exact Hwf|]. tauto.
  - destruct (array_get (Manifold.contacts m) i) as [c|] eqn:Hget; [|apply IH].
    destruct Hwf as (Hlen & Hlru & Hnum & Hdata).
    destruct (Hdata i c Hget) as [d Hd]. rewrite Hd.
    destruct (_ || _); [|apply IH].
    pose proof (Manifold_removeContact_wf w m c i
                  (conj Hlen (conj Hlru (conj Hnum Hdata))) Hget) as Hwf'.
    pose proof (Manifold_removeContact_spec w m c i) as Hspec.
    destruct (Manifold_removeContact w m c i) as [w1 m1].
    exists w1, m1, true. split; [reflexivity|]. split; [exact Hwf'|]. tauto.
Qed.

Lemma Manifold_update_spec `{MathLib} (w : World) (m : Manifold.t) (dt : Q) :
  Manifold_wf m ->
  let posA := Body.position (getBody w (Manifold.bodyA m)) in
  let posB := Body.position (getBody w (Manifold.bodyB m)) in
  exists w' m',
    Manifold_update w m dt = Ok (w', m', negb (Manifold.numContacts m' =? 0)%Z) /\
    Manifold_wf m' /\
    (forall j, array_get (Manifold.contacts m') j
               = Manifold_kept posA posB (array_get (Manifold.contacts m) j)) /\
    same_identity m m' /\ same_table_view w w'.
Proof.
  intros Hwf posA posB.
  pose (P := fun (i : nat) (s : World * Manifold.t) =>
    Manifold_wf s.2 /\
    (forall j, (j < i)%nat -> array_get (Manifold.contacts s.2) j
                              = Manifold_kept posA posB (array_get (Manifold.contacts m) j)) /\
    (forall j, (i <= j)%nat -> array_get (Manifold.contacts s.2) j
                               = array_get (Manifold.contacts m) j) /\
    same_identity m s.2 /\ same_table_view w s.1).
  destruct (for_loop_invariant P (Manifold_update_step posA posB)) with
    (count := length (Manifold.contacts m)) (from := 0%nat) (s := (w, m))
    as ([w' m'] & Hloop & Hwf' & Hdone & Hrest & Hid & Hview).
  - intros i [w1 m1] (Hwf1 & Hdone & Hrest & Hid & Hview). cbn [fst snd] in *.
    unfold P, Manifold_update_step.
    pose proof (Hrest i ltac:(lia)) as Hi.
    destruct (array_get (Manifold.contacts m1) i) as [c|] eqn:Hget.
    + destruct Hwf1 as (Hlen & Hlru & Hnum & Hdata).
      destruct (Hdata i c Hget) as [d Hd]. rewrite Hd.
      destruct (Manifold_stale posA posB d) eqn:Hstale.
      * pose proof (Manifold_removeContact_wf w1 m1 c i
                      (conj Hlen (conj Hlru (conj Hnum Hdata))) Hget) as Hwf2.
        pose proof (Manifold_removeContact_spec w1 m1 c i) as Hspec.
        destruct (Manifold_removeContact w1 m1 c i) as [w2 m2].
        destruct Hspec as (Hcs & _ & Hlru2 & Hid2 & Hview2 & _).
        eexists. split; [reflexivity|]. cbn [fst snd] in *.
        split; [exact Hwf2|]. split; [|split; [|split]].
        -- intros j Hj. rewrite Hcs. destruct (decide (i = j)) as [<-|Hne].
           ++ rewrite array_get_set_eq, <- Hi. cbn. rewrite Hd. cbn. now rewrite Hstale.
           ++ rewrite array_get_set_ne by auto. apply Hdone. lia.
        -- intros j Hj. rewrite Hcs, array_get_set_ne by lia. apply Hrest. lia.
        -- unfold same_identity in *. intuition congruence.
        -- unfold same_table_view in *. intuition congruence.
      * eexists. split; [reflexivity|]. cbn [fst snd].
        split; [exact (conj Hlen (conj Hlru (conj Hnum Hdata)))|].
        split; [|split; [|split]]; auto.
        -- intros j Hj. destruct (decide (i = j)) as [<-|Hne].
           ++ rewrite Hget, <- Hi. cbn. rewrite Hd. cbn. now rewrite Hstale.
           ++ apply Hdone. lia.
        -- intros j Hj. apply Hrest. lia.
    + eexists. split; [reflexivity|]. cbn [fst snd].
      split; [exact Hwf1|]. split; [|split; [|split]]; auto.
      * intros j Hj. destruct (decide (i = j)) as [<-|Hne].
        -- now rewrite Hget, <- Hi.
        -- apply Hdone. lia.
      * intros j Hj. apply Hrest. lia.
  - unfold P. cbn [fst snd]. split; [exact Hwf|]. split; [intros; lia|].
    split; [reflexivity|]. unfold same_identity, same_table_view. tauto.
  - cbn [fst snd] in *. exists w', m'.
    unfold Manifold_update. fold posA posB. rewrite Hloop, bind_Ok.
    split; [now destruct (negb _)|].
    split; [exact Hwf'|]. split; [|tauto].
    intro j. destruct (decide (j < length (Manifold.contacts m))%nat).
    + apply Hdone. lia.
    + rewrite Hrest by lia. rewrite array_get_beyond by lia. reflexivity.
Qed.

Lemma Contact_update_ok (w : World) (c : Contact.t) (d : CollisionData.t) (dt : Q) :
  Contact.data c = Some d ->
  exists w' c', Contact_update w c dt = Ok (w', c') /\ Contact.data c' = Some d.
Proof.
  intro Hd. unfold Contact_update. rewrite Hd. cbv zeta.
  eexists _, _. split; [reflexivity|]. exact Hd.
Qed.

Lemma Contact_resolve_ok (w : World) (c : Contact.t) (d : CollisionData.t) :
  Contact.data c = Some d ->
  exists w' c', Contact_resolve w c = Ok (w', c') /\ Contact.data c' = Some d.
Proof.
  intro Hd. destruct (Contact_resolve_accumulators w c d Hd) as (w' & c' & Hr & Hd' & _).
  eauto.
Qed.

(** Writing a contact over a live slot. *)
Lemma Manifold_replace_wf (m : Manifold.t) (i : nat) (c c' : Contact.t) :
  Manifold_wf m -> array_get (Manifold.contacts m) i = Some c -> is_Some (Contact.data c') ->
  Manifold_wf (Manifold_set_contacts m (array_set (Manifold.contacts m) i (Some c'))).
Proof.
  intros (Hlen & Hlru & Hnum & Hdata) Hget Hd'.
  pose proof (array_get_lt _ _ _ Hget) as Hi.
  pose proof (live_array_set (Manifold.contacts m) i (Some c')) as Hlive.
  rewrite Hget in Hlive. cbn [occupied] in Hlive.
  unfold Manifold_wf.
  cbn [Manifold.contacts Manifold_set_contacts Manifold.lru Manifold.numContacts].
  split; [rewrite array_set_length; lia|].
  split; [exact Hlru|].
  split; [lia|].
  intros j c2 Hj. destruct (decide (i = j)) as [->|Hij].
  - rewrite array_get_set_eq in Hj. now injection Hj as <-.
  - rewrite array_get_set_ne in Hj by auto. eauto.
Qed.

(** A loop that calls a method on every live contact keeps a manifold well
    formed, provided the method keeps the collision data of the contact. *)
Lemma each_contact_loop_wf (method : World -> Contact.t -> result (World * Contact.t)) :
  (forall w c d, Contact.data c = Some d ->
     exists w' c', method w c = Ok (w', c') /\ Contact.data c' = Some d) ->
  forall count from w m, Manifold_wf m ->
    exists w' m', for_loop (each_contact_step method) from count (w, m) = Ok (w', m') /\
                  Manifold_wf m' /\ same_identity m m'.
Proof.
  intros Hmethod count from w m Hwf.
  destruct (for_loop_invariant
              (fun _ s => Manifold_wf s.2 /\ same_identity m s.2)
              (each_contact_step method)) with
    (count := count) (from := from) (s := (w, m)) as ([w' m'] & Hloop & Hwf' & Hid).
  - intros i [w1 m1] [Hwf1 Hid1]. cbn [fst snd] in *. unfold each_contact_step.
    destruct (array_get (Manifold.contacts m1) i) as [c|] eqn:Hget.
    + pose proof Hwf1 as (_ & _ & _ & Hdata).
      destruct (Hdata i c Hget) as [d Hd].
      destruct (Hmethod w1 c d Hd) as (w2 & c2 & Hm & Hd2). rewrite Hm, bind_Ok.
      eexists. split; [reflexivity|]. cbn [fst snd]. split.
      * eapply Manifold_replace_wf; eauto.
      * exact Hid1.
    + eexists. split; [reflexivity|]. now split.
  - cbn [fst snd]. split; [exact Hwf|]. unfold same_identity. tauto.
  - exists w', m'. now split.
Qed.

(** Every state of a manifold is well formed. *)
Lemma Manifold_reachable_wf `{MathLib} (m : Manifold.t) :
  Manifold_reachable m -> Manifold_wf m.
Proof.
  induction 1 as [m lo hi a b
                 | m w a b d w' m' _ IH Hcall
                 | m w d w' m' found _ IH Hcall
                 | m w dt w' m' persists _ IH Hcall
                 | m w dt w' m' _ IH Hcall
                 | m w w' m' _ IH Hcall].
  - apply Manifold_reset_wf.
  - eapply Manifold_addContact_wf; eauto.
  - destruct (Manifold_contains_loop_wf (CollisionData.worldContactA d)
                (CollisionData.worldContactB d) (length (Manifold.contacts m)) 0 w m IH)
      as (w1 & m1 & f1 & Hrun & Hwf1 & _).
    unfold Manifold_contains in Hcall. congruence.
  - destruct (Manifold_update_spec w m dt IH) as (w1 & m1 & Hrun & Hwf1 & _).
    congruence.
  - destruct (each_contact_loop_wf (fun w c => Contact_update w c dt)
                (fun w c d => Contact_update_ok w c d dt)
                (length (Manifold.contacts m)) 0%nat w m IH) as (w1 & m1 & Hrun & Hwf1 & _).
    unfold Manifold_prepContacts, prepContacts_step in Hcall. congruence.
  - destruct (each_contact_loop_wf Contact_resolve Contact_resolve_ok
                (length (Manifold.contacts m)) 0%nat w m IH) as (w1 & m1 & Hrun & Hwf1 & _).
    unfold Manifold_resolveContacts, Manifold_resolveContacts_step in Hcall. congruence.
Qed.

(** C8.  [Manifold.update] compares, for every live contact, the cached world
    points with body position plus local offset.  A contact that has drifted
    beyond [THRESHOLD] in the frame of either body, or whose separation along
    the normal is positive, is removed; a contact within [THRESHOLD] in both
    frames that still penetrates stays; and the result is [true] exactly
    when a contact is left.  Every state that the methods of a manifold
    produce is well formed ([Manifold_reachable_wf]). *)
Theorem Manifold_update_removes_stale `{MathLib} (w : World) (m : Manifold.t) (dt : Q)
    (Hwf : Manifold_wf m) :
  let posA := Body.position (getBody w (Manifold.bodyA m)) in
  let posB := Body.position (getBody w (Manifold.bodyB m)) in
  exists w' m' persists,
    Manifold_update w m dt = Ok (w', m', persists) /\
    (forall j c d,
       array_get (Manifold.contacts m) j = Some c -> Contact.data c = Some d ->
       let wA := Vec3.add posA (CollisionData.localContactA d) in
       let wB := Vec3.add posB (CollisionData.localContactB d) in
       let driftA := Vec3.length (Vec3.subtract (CollisionData.worldContactA d) wA) in
       let driftB := Vec3.length (Vec3.subtract (CollisionData.worldContactB d) wB) in
       let separation := Vec3.dot (Vec3.subtract wB wA) (CollisionData.normal d) in
       (THRESHOLD < driftA \/ THRESHOLD < driftB \/ 0 < separation ->
        array_get (Manifold.contacts m') j = None) /\
       (driftA < THRESHOLD -> driftB < THRESHOLD -> separation <= 0 ->
        array_get (Manifold.contacts m') j = Some c)) /\
    (forall j, array_get (Manifold.contacts m) j = None ->
               array_get (Manifold.contacts m') j = None) /\
    (persists = true <-> exists j c, array_get (Manifold.contacts m') j = Some c).
Proof.
  intros posA posB.
  destruct (Manifold_update_spec w m dt Hwf) as (w' & m' & Hrun & Hwf' & Hslots & _).
  fold posA posB in Hslots.
  exists w', m', (negb (Manifold.numContacts m' =? 0)%Z).
  split; [exact Hrun|]. split; [|split].
  - intros j c d Hget Hd wA wB driftA driftB separation.
    assert (Hj : array_get (Manifold.contacts m') j
                 = if Manifold_stale posA posB d then None else Some c).
    { rewrite Hslots, Hget. cbn. rewrite Hd. reflexivity. }
    rewrite Hj. unfold Manifold_stale. cbv zeta.
    fold wA wB. fold driftA driftB separation.
    split.
    + intros [Ha|[Hb|Hn]].
      * assert (Qle_bool THRESHOLD driftA = true) as -> by (apply Qle_bool_iff; lra).
        reflexivity.
      * assert (Qle_bool THRESHOLD driftB = true) as -> by (apply Qle_bool_iff; lra).
        now rewrite orb_true_r.
      * apply Qltb_true in Hn. rewrite Hn. now rewrite orb_true_r.
    + intros Ha Hb Hn.
      assert (Qle_bool THRESHOLD driftA = false) as ->.
      { apply not_true_iff_false. rewrite Qle_bool_iff. lra. }
      assert (Qle_bool THRESHOLD driftB = false) as ->.
      { apply not_true_iff_false. rewrite Qle_bool_iff. lra. }
      apply Qltb_false in Hn. now rewrite Hn.
  - intros j Hget. now rewrite Hslots, Hget.
  - destruct Hwf' as (_ & _ & Hnum & _). rewrite negb_true_iff, Z.eqb_neq, Hnum. split.
    + intro Hne. apply live_some. lia.
    + intros (j & c & Hget). apply array_get_live in Hget. lia.
Qed.

Lemma Sample_manifold_wf : Manifold_wf Sample.manifold.
Proof.
  repeat split; cbn; try lia.
  intros [|j] c Hget; cbn in Hget; [|destruct j; discriminate].
  injection Hget as <-. now eexists.
Qed.

Lemma Manifold_update_removes_stale_witness :
  exists w' m' persists,
    @Manifold_update exactMath Sample.world Sample.manifold (1 # 60) = Ok (w', m', persists) /\
    (persists = true <-> exists j c, array_get (Manifold.contacts m') j = Some c).
Proof.
  destruct (@Manifold_update_removes_stale exactMath Sample.world Sample.manifold (1 # 60))
    as (w' & m' & persists & Hrun & _ & _ & Hpersists).
  - exact Sample_manifold_wf.
  - exists w', m', persists. now split.
Defined.

(** The sample contact is removed, and with it the manifold gives up. *)
Example Manifold_update_sample :
  exists w' m',
    @Manifold_update exactMath Sample.world Sample.manifold (1 # 60) = Ok (w', m', false) /\
    Manifold.contacts m' = [None] /\ Manifold.numContacts m' = 0%Z.
Proof. eexists _, _. split; [reflexivity|]. split; reflexivity. Qed.

(** [addContact] seen through the collision data of the slots. *)
Lemma Manifold_addContact_slots `{MathLib} (w : World) (m : Manifold.t) (a b : BodyRef)
    (d : CollisionData.t) :
  Manifold_wf m ->
  exists w' m',
    Manifold_addContact w m a b d = Ok (w', m') /\
    Manifold_wf m' /\
    slotData m' (Manifold.lru m) = Some d /\
    (forall j, j <> Manifold.lru m -> slotData m' j = slotData m j) /\
    Manifold.lru m' = ((Manifold.lru m + 1) mod 4)%nat /\
    (forall d0, slotData m (Manifold.lru m) = Some d0 ->
       poolCollisionData w' = poolCollisionData w ++ [Some d0]).
Proof.
  intro Hwf.
  destruct (Manifold_addContact_spec w m a b d)
    as (w' & m' & c & Hadd & Hd & Hslot & Hother & _ & _ & _ & Hlru & _ & _ & Hpool).
  exists w', m'. split; [exact Hadd|].
  split; [eapply Manifold_addContact_wf; eauto|].
  split; [unfold slotData; rewrite Hslot; exact Hd|].
  split; [intros j Hj; unfold slotData; now rewrite Hother|].
  split; [exact Hlru|].
  intros d0 Hd0. unfold slotData in Hd0.
  destruct (array_get (Manifold.contacts m) (Manifold.lru m)) as [old|]; [|discriminate].
  cbn in Hd0. destruct Hpool as [Hpool _]. now rewrite Hpool, Hd0.
Qed.

Lemma live_all {A} (a : list (option A)) :
  (forall j, (j < length a)%nat -> is_Some (array_get a j)) -> live a = length a.
Proof.
  induction a as [|o a IH]; intro Hall; [reflexivity|].
  destruct (Hall 0%nat ltac:(cbn; lia)) as [x Hx]. cbn in Hx. subst o.
  unfold live in *. cbn. f_equal. apply IH.
  intros j Hj. apply (Hall (S j)). cbn. lia.
Qed.

(** A manifold in which the four slots carry collision data has four live
    contacts. *)
Lemma Manifold_full (m : Manifold.t) :
  Manifold_wf m -> (forall j, (j < 4)%nat -> is_Some (slotData m j)) ->
  live (Manifold.contacts m) = 4%nat.
Proof.
  intros (Hlen & _) Hall.
  assert (Hsome : forall j, (j < 4)%nat -> is_Some (array_get (Manifold.contacts m) j)).
  { intros j Hj. destruct (Hall j Hj) as [d Hd]. unfold slotData in Hd.
    destruct (array_get (Manifold.contacts m) j); [now eexists | discriminate]. }
  assert (length (Manifold.contacts m) = 4%nat) as Hfour.
  { destruct (Hsome 3%nat ltac:(lia)) as [c Hc]. apply array_get_lt in Hc. lia. }
  rewrite live_all; [exact Hfour|]. intros j Hj. apply Hsome. lia.
Qed.

(** *** The age of the slots *)

Lemma Manifold_written_reachable `{MathLib} (m : Manifold.t) (stamp : nat -> nat) (clock : nat) :
  Manifold_written m stamp clock -> Manifold_reachable m.
Proof.
  induction 1 as [m lo hi a b stamp
                 | m stamp clock w a b d w' m' _ IH Hcall
                 | m stamp clock w d w' m' found _ IH Hcall
                 | m stamp clock w dt w' m' persists _ IH Hcall
                 | m stamp clock w dt w' m' _ IH Hcall
                 | m stamp clock w w' m' _ IH Hcall].
  - apply reach_reset.
  - exact (reach_addContact m w a b d w' m' IH Hcall).
  - exact (reach_contains m w d w' m' found IH Hcall).
  - exact (reach_update m w dt w' m' persists IH Hcall).
  - exact (reach_prepContacts m w dt w' m' IH Hcall).
  - exact (reach_resolveContacts m w w' m' IH Hcall).
Qed.

Lemma Manifold_reachable_written `{MathLib} (m : Manifold.t) :
  Manifold_reachable m -> exists stamp clock, Manifold_written m stamp clock.
Proof.
  induction 1 as [m lo hi a b
                 | m w a b d w' m' _ (s & c & IH) Hcall
                 | m w d w' m' found _ (s & c & IH) Hcall
                 | m w dt w' m' persists _ (s & c & IH) Hcall
                 | m w dt w' m' _ (s & c & IH) Hcall
                 | m w w' m' _ (s & c & IH) Hcall].
  - exists (fun _ => 0%nat), 0%nat. apply written_reset.
  - eexists _, _. exact (written_addContact m s c w a b d w' m' IH Hcall).
  - eexists _, _. exact (written_contains m s c w d w' m' found IH Hcall).
  - eexists _, _. exact (written_update m s c w dt w' m' persists IH Hcall).
  - eexists _, _. exact (written_prepContacts m s c w dt w' m' IH Hcall).
  - eexists _, _. exact (written_resolveContacts m s c w w' m' IH Hcall).
Qed.

(** The calls other than [addContact] leave the cursor where it is and
    bring no slot to life. *)
Lemma Manifold_contains_loop_live `{MathLib} (wA wB : Vec3.t) (count i : nat)
    (w : World) (m : Manifold.t) (w' : World) (m' : Manifold.t) (found : bool) :
  Manifold_contains_loop wA wB i count w m = Ok (w', m', found) ->
  Manifold.lru m' = Manifold.lru m /\
  (forall j c, array_get (Manifold.contacts m') j = Some c ->
               is_Some (array_get (Manifold.contacts m) j)).
Proof.
  revert i. induction count as [|count IH]; intros i Hrun; cbn [Manifold_contains_loop] in Hrun.
  - injection Hrun as <- <- _. eauto.
  - destruct (array_get (Manifold.contacts m) i) as [c|] eqn:Hget; [|eauto].
    destruct (Contact.data c) as [d|]; [|discriminate].
    destruct (_ || _); [|eauto].
    cbn in Hrun. injection Hrun as <- <- _. cbn. split; [reflexivity|].
    intros j c' Hj. destruct (decide (i = j)) as [->|Hne].
    + rewrite array_get_set_eq in Hj. discriminate.
    + rewrite array_get_set_ne in Hj by auto. eauto.
Qed.

Lemma each_contact_loop_live (method : World -> Contact.t -> result (World * Contact.t))
    (count from : nat) (w : World) (m : Manifold.t) (w' : World) (m' : Manifold.t) :
  for_loop (each_contact_step method) from count (w, m) = Ok (w', m') ->
  Manifold.lru m' = Manifold.lru m /\
  (forall j c, array_get (Manifold.contacts m') j = Some c ->
               is_Some (array_get (Manifold.contacts m) j)).
Proof.
  revert from w m. induction count as [|count IH]; intros from w m Hrun; cbn [for_loop] in Hrun.
  - injection Hrun as <- <-. eauto.
  - unfold each_contact_step at 2 in Hrun.
    destruct (array_get (Manifold.contacts m) from) as [c|] eqn:Hget.
    + destruct (method w c) as [[w1 c1]|e]; [|discriminate].
      rewrite !bind_Ok in Hrun. apply IH in Hrun as [Hlru Hlive].
      split; [exact Hlru|]. intros j c' Hj.
      destruct (Hlive j c' Hj) as [c2 Hc2]. cbn in Hc2.
      destruct (decide (from = j)) as [<-|Hne]; [eauto|].
      rewrite array_get_set_ne in Hc2 by auto. eauto.
    + rewrite bind_Ok in Hrun. eauto.
Qed.

(** Every live slot was written [cursor_distance] calls ago. *)
Lemma Manifold_written_age `{MathLib} (m : Manifold.t) (stamp : nat -> nat) (clock : nat) :
  Manifold_written m stamp clock ->
  forall j c, array_get (Manifold.contacts m) j = Some c ->
    (stamp j + cursor_distance (Manifold.lru m) j = clock)%nat.
Proof.
  intro Hw.
  induction Hw as [m lo hi a b stamp
                  | m stamp clock w a b d w' m' Hw IH Hcall
                  | m stamp clock w d w' m' found Hw IH Hcall
                  | m stamp clock w dt w' m' persists Hw IH Hcall
                  | m stamp clock w dt w' m' Hw IH Hcall
                  | m stamp clock w w' m' Hw IH Hcall]; intros j c Hj.
  - unfold array_get in Hj. cbn in Hj. rewrite lookup_nil in Hj. discriminate.
  - pose proof (Manifold_reachable_wf m (Manifold_written_reachable m stamp clock Hw))
      as (_ & Hlru & _).
    pose proof (Manifold_addContact_wf w m a b d w' m'
                  (Manifold_reachable_wf m (Manifold_written_reachable m stamp clock Hw))
                  Hcall) as (Hlen' & _).
    pose proof (array_get_lt _ _ _ Hj) as Hjlt.
    destruct (Manifold_addContact_spec w m a b d)
      as (w1 & m1 & c1 & Hadd & _ & _ & Hother & _ & _ & _ & Hlru1 & _).
    rewrite Hcall in Hadd. injection Hadd as <- <-.
    assert (Hnext : Manifold.lru m' = if decide (Manifold.lru m = 3%nat) then 0%nat
                                       else S (Manifold.lru m)).
    { rewrite Hlru1. case_decide as H3.
      - now rewrite H3.
      - rewrite Nat.mod_small by lia. lia. }
    cbn beta. rewrite Hnext. clear Hnext.
    destruct (decide (j = Manifold.lru m)) as [->|Hcur].
    + unfold cursor_distance.
      destruct (decide (Manifold.lru m = 3%nat));
        destruct (Nat.ltb_spec (Manifold.lru m) 0);
        destruct (Nat.ltb_spec (Manifold.lru m) (S (Manifold.lru m))); lia.
    + rewrite Hother in Hj by auto. specialize (IH j c Hj).
      unfold cursor_distance in *.
      destruct (decide (Manifold.lru m = 3%nat));
        destruct (Nat.ltb_spec j (Manifold.lru m));
        destruct (Nat.ltb_spec j 0); destruct (Nat.ltb_spec j (S (Manifold.lru m))); lia.
  - unfold Manifold_contains in Hcall.
    apply Manifold_contains_loop_live in Hcall as [Hlru Hlive].
    destruct (Hlive j c Hj) as [c0 Hc0]. rewrite Hlru. eauto.
  - pose proof (Manifold_reachable_wf m (Manifold_written_reachable m stamp clock Hw)) as Hwf.
    destruct (Manifold_update_spec w m dt Hwf) as (w1 & m1 & Hrun & _ & Hslots & Hid & _).
    rewrite Hcall in Hrun. injection Hrun as <- <- _.
    destruct Hid as (_ & _ & _ & _ & Hlru). rewrite Hlru.
    rewrite Hslots in Hj.
    destruct (array_get (Manifold.contacts m) j) as [c0|] eqn:Hc0; [eauto | discriminate].
  - unfold Manifold_prepContacts, prepContacts_step in Hcall.
    apply each_contact_loop_live in Hcall as [Hlru Hlive].
    destruct (Hlive j c Hj) as [c0 Hc0]. rewrite Hlru. eauto.
  - unfold Manifold_resolveContacts, Manifold_resolveContacts_step in Hcall.
    apply each_contact_loop_live in Hcall as [Hlru Hlive].
    destruct (Hlive j c Hj) as [c0 Hc0]. rewrite Hlru. eauto.
Qed.

(** The contact under the cursor is older than every other live contact. *)
Lemma Manifold_cursor_oldest `{MathLib} (m : Manifold.t) (stamp : nat -> nat) (clock : nat) :
  Manifold_written m stamp clock ->
  forall old, array_get (Manifold.contacts m) (Manifold.lru m) = Some old ->
  forall j c, j <> Manifold.lru m -> array_get (Manifold.contacts m) j = Some c ->
    (stamp (Manifold.lru m) < stamp j)%nat.
Proof.
  intros Hw old Hold j c Hne Hj.
  pose proof (Manifold_reachable_wf m (Manifold_written_reachable m stamp clock Hw))
    as (Hlen & Hlru & _).
  pose proof (array_get_lt _ _ _ Hj) as Hjlt.
  pose proof (Manifold_written_age m stamp clock Hw _ _ Hold) as Hcur.
  pose proof (Manifold_written_age m stamp clock Hw _ _ Hj) as Hage.
  unfold cursor_distance in *.
  destruct (Nat.ltb_spec (Manifold.lru m) (Manifold.lru m));
    destruct (Nat.ltb_spec j (Manifold.lru m)); lia.
Qed.

(** On a live slot [addContact] is [removeContact] on that slot followed by
    [addContact] on the slot left empty. *)
Lemma Manifold_addContact_evicts_first `{MathLib} (w : World) (m : Manifold.t) (a b : BodyRef)
    (d : CollisionData.t) (old : Contact.t) :
  array_get (Manifold.contacts m) (Manifold.lru m) = Some old ->
  let (w1, m1) := Manifold_removeContact w m old (Manifold.lru m) in
  array_get (Manifold.contacts m1) (Manifold.lru m1) = None /\
  Manifold_addContact w m a b d = Manifold_addContact w1 m1 a b d.
Proof.
  intro Hslot. unfold Manifold_removeContact. cbv zeta.
  cbn [Manifold.contacts Manifold.lru Manifold_set_contacts Manifold_set_numContacts].
  split; [apply array_get_set_eq|].
  unfold Manifold_addContact at 1 2. cbv zeta.
  cbn [Manifold.contacts Manifold.lru Manifold_set_contacts Manifold_set_numContacts].
  rewrite Hslot, array_get_set_eq. reflexivity.
Qed.

(** C5.  In every state of a manifold at most four contacts are live.
    [addContact] puts the new contact into the slot under the cursor and
    moves the cursor on modulo 4, leaving the other slots alone; a contact
    that was in that slot is first removed and handed back, its collision
    data going to the pool.  That contact is the oldest one: every other
    live contact was written by a later [addContact].  After four contacts
    have been added, a fifth one takes the slot of the first of them, whose
    data is released, and the other three remain.  Every state of a manifold
    has its ages ([Manifold_reachable_written]). *)
Theorem Manifold_capacity `{MathLib} (m : Manifold.t) (stamp : nat -> nat) (clock : nat)
    (w : World) (a b : BodyRef) (d1 d2 d3 d4 d5 : CollisionData.t)
    (Hstate : Manifold_written m stamp clock) :
  (live (Manifold.contacts m) <= 4)%nat /\
  (forall old, array_get (Manifold.contacts m) (Manifold.lru m) = Some old ->
   forall j c, j <> Manifold.lru m -> array_get (Manifold.contacts m) j = Some c ->
     (stamp (Manifold.lru m) < stamp j)%nat) /\
  (exists w' m',
     Manifold_addContact w m a b d1 = Ok (w', m') /\
     slotData m' (Manifold.lru m) = Some d1 /\
     (forall j, j <> Manifold.lru m ->
        array_get (Manifold.contacts m') j = array_get (Manifold.contacts m) j) /\
     Manifold.lru m' = ((Manifold.lru m + 1) mod 4)%nat /\
     (forall old, array_get (Manifold.contacts m) (Manifold.lru m) = Some old ->
        Manifold_addContact w m a b d1
        = (let (w1, m1) := Manifold_removeContact w m old (Manifold.lru m) in
           Manifold_addContact w1 m1 a b d1) /\
        poolCollisionData w' = poolCollisionData w ++ [Contact.data old])) /\
  (exists w4 m4 w5 m5,
     Manifold_addContacts w m a b [d1; d2; d3; d4] = Ok (w4, m4) /\
     live (Manifold.contacts m4) = 4%nat /\
     Manifold.lru m4 = Manifold.lru m /\
     slotData m4 (Manifold.lru m) = Some d1 /\
     Manifold_addContact w4 m4 a b d5 = Ok (w5, m5) /\
     live (Manifold.contacts m5) = 4%nat /\
     poolCollisionData w5 = poolCollisionData w4 ++ [Some d1] /\
     slotData m5 (Manifold.lru m) = Some d5 /\
     slotData m5 ((Manifold.lru m + 1) mod 4)%nat = Some d2 /\
     slotData m5 ((Manifold.lru m + 2) mod 4)%nat = Some d3 /\
     slotData m5 ((Manifold.lru m + 3) mod 4)%nat = Some d4).
Proof.
  pose proof (Manifold_reachable_wf m (Manifold_written_reachable m stamp clock Hstate)) as Hwf.
  split; [|split; [|split]].
  - destruct Hwf as (Hlen & _). pose proof (live_le_length (Manifold.contacts m)). lia.
  - now apply (Manifold_cursor_oldest m stamp clock).
  - destruct (Manifold_addContact_spec w m a b d1)
      as (w' & m' & c & Hadd & Hd & Hslot & Hother & _ & _ & _ & Hlru & _ & _ & Hpool).
    exists w', m'. split; [exact Hadd|].
    split; [unfold slotData; rewrite Hslot; exact Hd|].
    split; [exact Hother|]. split; [exact Hlru|].
    intros old Hold. rewrite Hold in Hpool. split; [|apply Hpool].
    pose proof (Manifold_addContact_evicts_first w m a b d1 old Hold) as Hfirst.
    destruct (Manifold_removeContact w m old (Manifold.lru m)) as [w1 m1].
    apply Hfirst.
  - destruct (Manifold_addContact_slots w m a b d1 Hwf)
      as (w1 & m1 & Ha1 & Hwf1 & Hs1 & Ho1 & Hl1 & _).
    destruct (Manifold_addContact_slots w1 m1 a b d2 Hwf1)
      as (w2 & m2 & Ha2 & Hwf2 & Hs2 & Ho2 & Hl2 & _).
    destruct (Manifold_addContact_slots w2 m2 a b d3 Hwf2)
      as (w3 & m3 & Ha3 & Hwf3 & Hs3 & Ho3 & Hl3 & _).
    destruct (Manifold_addContact_slots w3 m3 a b d4 Hwf3)
      as (w4 & m4 & Ha4 & Hwf4 & Hs4 & Ho4 & Hl4 & _).
    destruct (Manifold_addContact_slots w4 m4 a b d5 Hwf4)
      as (w5 & m5 & Ha5 & Hwf5 & Hs5 & Ho5 & Hl5 & Hp5).
    exists w4, m4, w5, m5.
    cbn [Manifold_addContacts]. rewrite Ha1, bind_Ok, Ha2, bind_Ok, Ha3, bind_Ok, Ha4, bind_Ok.
    destruct Hwf as (_ & Hk & _).
    assert (Hcases : Manifold.lru m = 0%nat \/ Manifold.lru m = 1%nat \/
                     Manifold.lru m = 2%nat \/ Manifold.lru m = 3%nat) by lia.
    assert (Hslots4 : Manifold.lru m4 = Manifold.lru m /\
                      slotData m4 (Manifold.lru m) = Some d1 /\
                      slotData m4 ((Manifold.lru m + 1) mod 4)%nat = Some d2 /\
                      slotData m4 ((Manifold.lru m + 2) mod 4)%nat = Some d3 /\
                      slotData m4 ((Manifold.lru m + 3) mod 4)%nat = Some d4).
    { destruct Hcases as [Hk0|[Hk0|[Hk0|Hk0]]]; rewrite Hk0 in *;
        cbn in Hl1; rewrite Hl1 in *; cbn in Hl2; rewrite Hl2 in *;
        cbn in Hl3; rewrite Hl3 in *; cbn in Hl4; rewrite Hl4 in *; cbn;
        (split; [reflexivity|]);
        rewrite ?Hs4, ?Ho4 by lia; rewrite ?Hs3, ?Ho3 by lia;
        rewrite ?Hs2, ?Ho2 by lia; rewrite ?Hs1 by lia; repeat split. }
    destruct Hslots4 as (Hl & H41 & H42 & H43 & H44).
    assert (Hfull4 : forall j, (j < 4)%nat -> is_Some (slotData m4 j)).
    { intros j Hj.
      destruct Hcases as [Hk0|[Hk0|[Hk0|Hk0]]]; rewrite Hk0 in *; cbn in *;
        destruct j as [|[|[|[|]]]]; try lia; eauto. }
    rewrite Hl in *.
    split; [reflexivity|].
    split; [now apply Manifold_full|].
    split; [reflexivity|].
    split; [exact H41|].
    split; [exact Ha5|].
    assert (Hslots5 : slotData m5 ((Manifold.lru m + 1) mod 4)%nat = Some d2 /\
                      slotData m5 ((Manifold.lru m + 2) mod 4)%nat = Some d3 /\
                      slotData m5 ((Manifold.lru m + 3) mod 4)%nat = Some d4).
    { destruct Hcases as [Hk0|[Hk0|[Hk0|Hk0]]]; rewrite Hk0 in *; cbn in *;
        rewrite !Ho5 by lia; auto. }
    split.
    { apply Manifold_full; [exact Hwf5|]. intros j Hj.
      destruct Hslots5 as (H52 & H53 & H54).
      destruct Hcases as [Hk0|[Hk0|[Hk0|Hk0]]]; rewrite Hk0 in *; cbn in *;
        destruct j as [|[|[|[|]]]]; try lia; eauto. }
    split; [now apply Hp5|].
    split; [exact Hs5|]. exact Hslots5.
Qed.

Lemma Manifold_capacity_witness :
  exists w4 m4 w5 m5,
    @Manifold_addContacts exactMath Sample.world (Manifold_reset Manifold_new 1 2 0%nat 1%nat)
      0%nat 1%nat [Sample.dataOf 1; Sample.dataOf 2; Sample.dataOf 3; Sample.dataOf 4]
    = Ok (w4, m4) /\
    @Manifold_addContact exactMath w4 m4 0%nat 1%nat (Sample.dataOf 5) = Ok (w5, m5) /\
    live (Manifold.contacts m5) = 4%nat /\
    poolCollisionData w5 = poolCollisionData w4 ++ [Some (Sample.dataOf 1)] /\
    slotData m5 0 = Some (Sample.dataOf 5) /\
    slotData m5 1 = Some (Sample.dataOf 2).
Proof.
  destruct (@Manifold_capacity exactMath (Manifold_reset Manifold_new 1 2 0%nat 1%nat)
              (fun _ => 0%nat) 0%nat Sample.world 0%nat 1%nat
              (Sample.dataOf 1) (Sample.dataOf 2) (Sample.dataOf 3) (Sample.dataOf 4)
              (Sample.dataOf 5))
    as (_ & _ & _ & w4 & m4 & w5 & m5 & H4 & _ & _ & _ & H5 & Hlive & Hpool & Hs0 & Hs1 & _).
  - apply written_reset.
  - exists w4, m4, w5, m5. repeat split; assumption.
Defined.

(** ** ContactManifoldTable *)

Lemma getManifold_lookup (w : World) (r : ManifoldRef) (m : Manifold.t) :
  heap w !! r = Some m -> getManifold w r = m.
Proof. intro Hm. unfold getManifold. now apply lookup_total_correct. Qed.

Lemma getManifold_setManifold (w : World) (r r' : ManifoldRef) (m : Manifold.t) :
  getManifold (setManifold w r m) r' = if decide (r = r') then m else getManifold w r'.
Proof. unfold getManifold, setManifold. cbn [heap]. apply lookup_total_insert. Qed.

(** One iteration of [update] on a live slot whose manifold gives up: the
    slot, the matrix and the pool are changed first, and the two events see
    the result. *)
Lemma ContactManifoldTable_update_step_removed `{MathLib} (w : World)
    (t : ContactManifoldTable.t) (dt : Q) (i : nat) (r : ManifoldRef) (m : Manifold.t)
    (row : gmap Z (option nat)) (w1 : World) (m1 : Manifold.t) :
  array_get (ContactManifoldTable.manifolds t) i = Some r ->
  heap w !! r = Some m ->
  ContactManifoldTable.collisionMatrix t !! Manifold.lowID m = Some row ->
  Manifold_update w m dt = Ok (w1, m1, false) ->
  same_identity m m1 -> same_table_view w w1 ->
  let t' := ContactManifoldTable.mk
              (array_set (ContactManifoldTable.manifolds t) i None)
              (<[Manifold.lowID m := <[Manifold.highID m := None]> row]>
                 (ContactManifoldTable.collisionMatrix t))
              (array_push (ContactManifoldTable._IDPool t) i) in
  exists w',
    ContactManifoldTable_update_step dt i (w, t) = Ok (w', t') /\
    bodies w' = bodies w /\ heap w' = <[r := m1]> (heap w) /\
    poolManifold w' = array_push (poolManifold w) r /\
    log w' = log w ++ [Trigger (Manifold.bodyA m) "collision:end" r t' (poolManifold w');
                       Trigger (Manifold.bodyB m) "collision:end" r t' (poolManifold w')].
Proof.
  intros Hslot Hheap Hrow Hupd (Hlo & Hhi & Ha & Hb & _) (Hbodies & Hheap1 & Hpool & Hlog) t'.
  unfold ContactManifoldTable_update_step. rewrite Hslot.
  rewrite (getManifold_lookup w r m Hheap), Hupd, bind_Ok. cbn [negb].
  unfold ContactManifoldTable_removeManifold. cbv zeta.
  rewrite !getManifold_setManifold, decide_True by reflexivity.
  rewrite Hlo, Hhi, Hrow, bind_Ok.
  fold t'. unfold trigger.
  rewrite !getManifold_lookup with (m := m1) by (cbn; apply lookup_insert_eq).
  rewrite Ha, Hb.
  eexists. split; [reflexivity|].
  cbn. rewrite Hbodies, Hheap1, Hpool, Hlog, <- app_assoc. repeat split.
Qed.

(** One iteration of [update] on a live slot whose manifold persists. *)
Lemma ContactManifoldTable_update_step_kept `{MathLib} (w : World)
    (t : ContactManifoldTable.t) (dt : Q) (i : nat) (r : ManifoldRef) (m : Manifold.t)
    (w1 : World) (m1 : Manifold.t) :
  array_get (ContactManifoldTable.manifolds t) i = Some r ->
  heap w !! r = Some m ->
  Manifold_update w m dt = Ok (w1, m1, true) ->
  ContactManifoldTable_update_step dt i (w, t) = Ok (setManifold w1 r m1, t).
Proof.
  intros Hslot Hheap Hupd.
  unfold ContactManifoldTable_update_step. rewrite Hslot.
  now rewrite (getManifold_lookup w r m Hheap), Hupd, bind_Ok.
Qed.







(** ** registerContact *)

Lemma pairKey_min_max (w : World) (a b : BodyRef) :
  pairKey w a b = (Z.min (Body._ID (getBody w a)) (Body._ID (getBody w b)),
                   Z.max (Body._ID (getBody w a)) (Body._ID (getBody w b))).
Proof.
  unfold pairKey. cbv zeta. destruct (Z.ltb_spec (Body._ID (getBody w a)) (Body._ID (getBody w b))).
  - now rewrite Z.min_l, Z.max_r by lia.
  - now rewrite Z.min_r, Z.max_l by lia.
Qed.

Lemma pairKey_bodies (w w' : World) (a b : BodyRef) :
  bodies w' = bodies w -> pairKey w' a b = pairKey w a b.
Proof. intro Hb. unfold pairKey, getBody. now rewrite Hb. Qed.

(** A registration for a pair that has a live, well-formed manifold changes
    that manifold and nothing else. *)
Lemma registerContact_present `{MathLib} (w : World) (t : ContactManifoldTable.t)
    (x y : BodyRef) (d : CollisionData.t) (lowID highID : Z) (i : nat) (r : ManifoldRef)
    (m : Manifold.t) :
  pairKey w x y = (lowID, highID) ->
  matrix_lookup (ContactManifoldTable.collisionMatrix t) lowID highID = Some i ->
  array_get (ContactManifoldTable.manifolds t) i = Some r ->
  heap w !! r = Some m -> Manifold_wf m ->
  exists w' m',
    ContactManifoldTable_registerContact w t x y d = Ok (w', t) /\
    heap w' = <[r := m']> (heap w) /\ Manifold_wf m' /\
    bodies w' = bodies w /\ poolManifold w' = poolManifold w /\ log w' = log w.
Proof.
  intros Hkey Hlookup Hslot Hheap Hwf.
  unfold ContactManifoldTable_registerContact. rewrite Hkey, Hlookup, Hslot.
  rewrite (getManifold_lookup w r m Hheap).
  destruct (Manifold_contains_loop_wf (CollisionData.worldContactA d)
              (CollisionData.worldContactB d) (length (Manifold.contacts m)) 0 w m Hwf)
    as (w1 & m1 & found & Hc & Hwf1 & _ & Hb1 & Hh1 & Hp1 & Hl1).
  unfold Manifold_contains. rewrite Hc, bind_Ok.
  destruct (Manifold_addContact_spec w1 m1 x y d)
    as (w2 & m2 & c & Hadd & _ & _ & _ & _ & _ & _ & _ & _ & (Hb2 & Hh2 & Hp2 & Hl2) & _).
  rewrite Hadd, bind_Ok.
  exists (setManifold w2 r m2), m2. split; [reflexivity|].
  split; [cbn; congruence|].
  split; [eapply Manifold_addContact_wf; eauto|].
  cbn. repeat split; congruence.
Qed.

Lemma matrix_lookup_insert (cm : gmap Z (gmap Z (option nat))) (lowID highID : Z)
    (row : gmap Z (option nat)) (v : option nat) :
  matrix_lookup (<[lowID := <[highID := v]> row]> cm) lowID highID = v.
Proof.
  unfold matrix_lookup. rewrite lookup_insert_eq. cbn. now rewrite lookup_insert_eq.
Qed.

(** A registration for a pair that has no entry creates the manifold, adds
    the contact and tells both bodies. *)
Lemma registerContact_absent `{MathLib} (w : World) (t : ContactManifoldTable.t)
    (x y : BodyRef) (d : CollisionData.t) (lowID highID : Z) :
  pairKey w x y = (lowID, highID) ->
  matrix_lookup (ContactManifoldTable.collisionMatrix t) lowID highID = None ->
  exists w' t' i r m',
    ContactManifoldTable_registerContact w t x y d = Ok (w', t') /\
    matrix_lookup (ContactManifoldTable.collisionMatrix t') lowID highID = Some i /\
    array_get (ContactManifoldTable.manifolds t') i = Some r /\
    heap w' !! r = Some m' /\ Manifold_wf m' /\
    bodies w' = bodies w /\
    log w' = log w ++ [Trigger x "collision:start" r t' (poolManifold w');
                       Trigger y "collision:start" r t' (poolManifold w')].
Proof.
  intros Hkey Hlookup.
  unfold ContactManifoldTable_registerContact. rewrite Hkey, Hlookup.
  unfold ContactManifoldTable_addManifold. cbv zeta.
  destruct (match array_pop (ContactManifoldTable._IDPool t) with
            | Some (i, rest) => (i, rest)
            | None => (length (ContactManifoldTable.manifolds t),
                       ContactManifoldTable._IDPool t)
            end) as [index idPool].
  destruct (OMRequestManifold w) as [w0 r] eqn:Hreq.
  assert (Hframe : bodies w0 = bodies w /\ log w0 = log w).
  { unfold OMRequestManifold in Hreq.
    destruct (array_pop (poolManifold w)) as [[r0 rest]|]; injection Hreq as <- <-; now split. }
  destruct Hframe as [Hb0 Hl0].
  rewrite getManifold_setManifold, decide_True by reflexivity.
  match goal with |- context [Manifold_addContact ?w1 ?m1 x y d] =>
    destruct (Manifold_addContact_spec w1 m1 x y d)
      as (w2 & m2 & c & Hadd & _ & _ & _ & _ & _ & _ & _ & _ & (Hb2 & Hh2 & Hp2 & Hl2) & _);
    pose proof (Manifold_addContact_wf w1 m1 x y d w2 m2
                  (Manifold_reset_wf _ lowID highID x y) Hadd) as Hwf2;
    rewrite Hadd, bind_Ok
  end.
  eexists _, _, index, r, m2. split; [reflexivity|].
  cbn [ContactManifoldTable.collisionMatrix ContactManifoldTable.manifolds].
  split; [apply matrix_lookup_insert|].
  split; [apply array_get_set_eq|].
  unfold trigger.
  split; [cbn; apply lookup_insert_eq|].
  split; [exact Hwf2|].
  split; [cbn; rewrite Hb2; cbn; exact Hb0|].
  cbn. rewrite Hl2. cbn. rewrite Hl0, <- app_assoc. reflexivity.
Qed.

(** C6.  The key of a pair is [(min(idA, idB), max(idA, idB))] in either
    order of the two bodies.  A registration for a pair that has a slot, in
    either order, adds to the manifold of that slot: the table, the pool of
    manifolds and the log stay as they are, so no manifold is allocated and
    no event sent.  A registration for a pair without a slot creates one and
    sends the two collision-start events; the registration that follows, with
    the bodies swapped, goes to that same slot and sends nothing. *)
Theorem registerContact_canonical `{MathLib} (w : World) (t : ContactManifoldTable.t)
    (bodyA bodyB : BodyRef) (d d' : CollisionData.t)
    (Htable : Table_inv w t) (Hmatrix : Matrix_inv t) :
  let lowID := Z.min (Body._ID (getBody w bodyA)) (Body._ID (getBody w bodyB)) in
  let highID := Z.max (Body._ID (getBody w bodyA)) (Body._ID (getBody w bodyB)) in
  pairKey w bodyA bodyB = (lowID, highID) /\
  pairKey w bodyB bodyA = (lowID, highID) /\
  (forall i,
     matrix_lookup (ContactManifoldTable.collisionMatrix t) lowID highID = Some i ->
     exists r,
       array_get (ContactManifoldTable.manifolds t) i = Some r /\
       is_Some (heap w !! r) /\
       (exists w' m',
          ContactManifoldTable_registerContact w t bodyA bodyB d = Ok (w', t) /\
          heap w' = <[r := m']> (heap w) /\
          poolManifold w' = poolManifold w /\ log w' = log w) /\
       (exists w' m',
          ContactManifoldTable_registerContact w t bodyB bodyA d = Ok (w', t) /\
          heap w' = <[r := m']> (heap w) /\
          poolManifold w' = poolManifold w /\ log w' = log w)) /\
  (matrix_lookup (ContactManifoldTable.collisionMatrix t) lowID highID = None ->
   exists w1 t1 i r,
     ContactManifoldTable_registerContact w t bodyA bodyB d = Ok (w1, t1) /\
     matrix_lookup (ContactManifoldTable.collisionMatrix t1) lowID highID = Some i /\
     array_get (ContactManifoldTable.manifolds t1) i = Some r /\
     log w1 = log w ++ [Trigger bodyA "collision:start" r t1 (poolManifold w1);
                        Trigger bodyB "collision:start" r t1 (poolManifold w1)] /\
     exists w2 m2,
       ContactManifoldTable_registerContact w1 t1 bodyB bodyA d' = Ok (w2, t1) /\
       heap w2 = <[r := m2]> (heap w1) /\
       poolManifold w2 = poolManifold w1 /\ log w2 = log w1).
Proof.
  intros lowID highID.
  assert (Hab : pairKey w bodyA bodyB = (lowID, highID)) by apply pairKey_min_max.
  assert (Hba : pairKey w bodyB bodyA = (lowID, highID)).
  { rewrite pairKey_min_max. unfold lowID, highID. now rewrite Z.min_comm, Z.max_comm. }
  split; [exact Hab|]. split; [exact Hba|]. split.
  - intros i Hlookup.
    destruct (Hmatrix lowID highID i Hlookup) as [r Hslot].
    destruct (Htable i r Hslot) as (m & Hheap & Hwf & _).
    exists r. split; [exact Hslot|]. split; [eauto|]. split.
    + destruct (registerContact_present w t bodyA bodyB d lowID highID i r m)
        as (w' & m' & Hrun & Hh & _ & _ & Hp & Hl); auto.
      exists w', m'. auto.
    + destruct (registerContact_present w t bodyB bodyA d lowID highID i r m)
        as (w' & m' & Hrun & Hh & _ & _ & Hp & Hl); auto.
      exists w', m'. auto.
  - intro Hlookup.
    destruct (registerContact_absent w t bodyA bodyB d lowID highID Hab Hlookup)
      as (w1 & t1 & i & r & m1 & Hrun & Hlookup1 & Hslot1 & Hheap1 & Hwf1 & Hb1 & Hlog1).
    exists w1, t1, i, r. split; [exact Hrun|]. split; [exact Hlookup1|].
    split; [exact Hslot1|]. split; [exact Hlog1|].
    destruct (registerContact_present w1 t1 bodyB bodyA d' lowID highID i r m1)
      as (w2 & m2 & Hrun2 & Hh2 & _ & _ & Hp2 & Hl2); auto.
    { now rewrite (pairKey_bodies w w1). }
    exists w2, m2. auto.
Qed.

Lemma registerContact_canonical_witness :
  exists w1 t1 i r w2 m2,
    @ContactManifoldTable_registerContact exactMath Sample.world ContactManifoldTable_new
      0%nat 1%nat (Sample.dataOf 2) = Ok (w1, t1) /\
    matrix_lookup (ContactManifoldTable.collisionMatrix t1) 1 2 = Some i /\
    array_get (ContactManifoldTable.manifolds t1) i = Some r /\
    @ContactManifoldTable_registerContact exactMath w1 t1 1%nat 0%nat (Sample.dataOf 3)
    = Ok (w2, t1) /\
    heap w2 = <[r := m2]> (heap w1) /\
    poolManifold w2 = poolManifold w1 /\ log w2 = log w1.
Proof.
  destruct (@registerContact_canonical exactMath Sample.world ContactManifoldTable_new
              0%nat 1%nat (Sample.dataOf 2) (Sample.dataOf 3))
    as (_ & _ & _ & Habsent).
  - intros i r Hslot. unfold array_get in Hslot. cbn in Hslot.
    rewrite lookup_nil in Hslot. discriminate.
  - intros lowID highID i Hlookup. unfold matrix_lookup in Hlookup. cbn in Hlookup.
    rewrite lookup_empty in Hlookup. discriminate.
  - destruct Habsent as (w1 & t1 & i & r & Hrun & Hlookup & Hslot & _ & w2 & m2 & Hrun2 & Hrest).
    + reflexivity.
    + exists w1, t1, i, r, w2, m2. repeat split; tauto.
Defined.

(** On the sample table the only manifold gives up: [update] empties the
    slot, clears the entry of the pair, and sends the two events. *)
Example ContactManifoldTable_update_sample :
  exists w' t',
    @ContactManifoldTable_update exactMath Sample.store Sample.table (1 # 60) = Ok (w', t') /\
    ContactManifoldTable.manifolds t' = [None] /\
    matrix_lookup (ContactManifoldTable.collisionMatrix t') 1 2 = None /\
    ContactManifoldTable._IDPool t' = [0%nat] /\
    poolManifold w' = [0%nat] /\
    log w' = [Trigger 0%nat "collision:end" 0%nat t' [0%nat];
              Trigger 1%nat "collision:end" 0%nat t' [0%nat]].
Proof. eexists _, _. split; [reflexivity|]. repeat split. Qed.

(** * Further properties *)

(** ** clamp *)

(** X1.  With [lower <= upper], [clamp] returns [lower] below the range, the
    value itself inside it and [upper] above it, so the result is always in
    the range. *)
Theorem clamp_in_range (value lower upper : Q) (Hrange : lower <= upper) :
  (value < lower -> clamp value lower upper = lower) /\
  (lower <= value <= upper -> clamp value lower upper = value) /\
  (upper < value -> clamp value lower upper = upper) /\
  lower <= clamp value lower upper <= upper.
Proof.
  unfold clamp.
  destruct (Qltb value lower) eqn:Elow; [apply Qltb_true in Elow | apply Qltb_false in Elow];
    (destruct (Qltb upper value) eqn:Eup; [apply Qltb_true in Eup | apply Qltb_false in Eup]);
    repeat split; intros; try reflexivity; lra.
Qed.

Lemma clamp_in_range_witness :
  clamp 7 (-2) 5 = 5 /\ clamp (-3) (-2) 5 = -2 /\ clamp 1 (-2) 5 = 1.
Proof.
  destruct (clamp_in_range 7 (-2) 5) as (_ & _ & Habove & _); [lra|].
  destruct (clamp_in_range (-3) (-2) 5) as (Hbelow & _); [lra|].
  destruct (clamp_in_range 1 (-2) 5) as (_ & Hin & _); [lra|].
  split; [apply Habove; lra|]. split; [apply Hbelow; lra | apply Hin; lra].
Defined.

(** ** Contact.init and Contact.reset *)

(** X2.  [init] builds the two tangents at right angles to the normal and
    to each other, whatever the normal and whatever [Math.sqrt] returns. *)
Theorem Contact_init_tangents_orthogonal `{MathLib} (w : World) (c : Contact.t)
    (data : CollisionData.t) (Hdata : Contact.data c = Some data) :
  exists c',
    Contact_init w c = Ok c' /\
    Vec3.dot (CollisionData.normal data) (Contact.tangent1 c') == 0 /\
    Vec3.dot (CollisionData.normal data) (Contact.tangent2 c') == 0 /\
    Vec3.dot (Contact.tangent1 c') (Contact.tangent2 c') == 0.
Proof.
  unfold Contact_init. rewrite Hdata. cbv zeta.
  eexists. split; [reflexivity|].
  cbn [Contact.tangent1 Contact.tangent2].
  destruct (CollisionData.normal data) as [nx ny nz].
  unfold Vec3.normalize. cbv zeta.
  destruct (Qle_bool 0.57735 (Vec3.x (Vec3.mk nx ny nz)));
    match goal with |- context [Vec3.scale ?v ?s] => generalize s end;
    intro s; unfold Vec3.dot, Vec3.cross, Vec3.scale; cbn [Vec3.x Vec3.y Vec3.z];
    repeat split; ring.
Qed.

Lemma Contact_init_tangents_orthogonal_witness :
  exists c',
    @Contact_init exactMath Sample.world Sample.contact = Ok c' /\
    Vec3.dot (CollisionData.normal Sample.data) (Contact.tangent1 c') == 0 /\
    Vec3.dot (CollisionData.normal Sample.data) (Contact.tangent2 c') == 0 /\
    Vec3.dot (Contact.tangent1 c') (Contact.tangent2 c') == 0.
Proof.
  apply (@Contact_init_tangents_orthogonal exactMath Sample.world Sample.contact Sample.data).
  reflexivity.
Defined.

(** X3.  A contact object that comes back from the pool and is [reset]
    carries nothing of its earlier use but the velocity bias: the result is
    that of resetting a new object, with the old bias in it; its
    accumulators are zero, and friction and restitution are the product and
    the minimum of those of the two bodies. *)
Theorem Contact_reset_round_trip `{MathLib} (w : World) (pooled : Contact.t)
    (bodyA bodyB : BodyRef) (data : CollisionData.t) :
  exists c fresh,
    Contact_reset w pooled bodyA bodyB (Some data) = Ok c /\
    Contact_reset w Contact_new bodyA bodyB (Some data) = Ok fresh /\
    c = Contact_set_velocityBias fresh (Contact.velocityBias pooled) /\
    (Contact.normalImpulse c = 0 /\ Contact.tangentImpulse1 c = 0 /\
     Contact.tangentImpulse2 c = 0 /\ Contact.impulse c = Vec3.zero /\
     Contact.angImpulseA c = Vec3.zero /\ Contact.angImpulseB c = Vec3.zero) /\
    Contact.friction c
      = Body.friction (getBody w bodyA) * Body.friction (getBody w bodyB) /\
    Contact.restitution c
      = Math_min (Body.restitution (getBody w bodyA)) (Body.restitution (getBody w bodyB)).
Proof.
  unfold Contact_reset, Contact_init. cbn [Contact.data]. cbv zeta.
  eexists _, _. split; [reflexivity|]. split; [reflexivity|].
  cbn. repeat split.
Qed.

(** ** Contact.resolve and Contact.update together *)

(** What [resolve] does to the log and to the contact. *)
Lemma Contact_resolve_shape (w : World) (c : Contact.t) (data : CollisionData.t) :
  Contact.data c = Some data ->
  exists w' c' J rest,
    Contact_resolve w c = Ok (w', c') /\
    log w' = log w ++ ApplyImpulse (Contact.bodyB c) J :: rest /\
    Contact.impulse c' = Vec3.add (Contact.impulse c) (Vec3.invert J) /\
    Contact.angImpulseA c'
      = Vec3.add (Contact.angImpulseA c)
          (Vec3.invert (Vec3.cross (CollisionData.localContactA data) J)) /\
    Contact.angImpulseB c'
      = Vec3.add (Contact.angImpulseB c) (Vec3.cross (CollisionData.localContactB data) J) /\
    c' = Contact_set_vectors
           (Contact_set_scalars c (Contact.normalImpulse c') (Contact.tangentImpulse1 c')
              (Contact.tangentImpulse2 c'))
           (Contact.impulse c') (Contact.angImpulseA c') (Contact.angImpulseB c').
Proof.
  intro Hdata. unfold Contact_resolve. rewrite Hdata. cbv zeta.
  eexists _, _, _, _. split; [reflexivity|].
  split.
  { rewrite !log_applyAngularImpulse, !log_applyImpulse, !log_applyAngularImpulse,
      !log_applyImpulse, <- !app_assoc. reflexivity. }
  repeat split.
Qed.

(** What [update] does to the log and to the contact. *)
Lemma Contact_update_shape (w : World) (c : Contact.t) (data : CollisionData.t) (dt : Q) :
  Contact.data c = Some data ->
  exists w' c' bias,
    Contact_update w c dt = Ok (w', c') /\
    log w' = log w ++
      [ApplyImpulse (Contact.bodyB c) (Vec3.scale (Contact.impulse c) 0.25);
       ApplyAngularImpulse (Contact.bodyB c) (Vec3.scale (Contact.angImpulseB c) 0.25);
       ApplyImpulse (Contact.bodyA c) (Vec3.invert (Vec3.scale (Contact.impulse c) 0.25));
       ApplyAngularImpulse (Contact.bodyA c) (Vec3.scale (Contact.angImpulseA c) 0.25)] /\
    c' = Contact_set_vectors
           (Contact_set_scalars (Contact_set_velocityBias c bias) 0 0 0)
           Vec3.zero Vec3.zero Vec3.zero.
Proof.
  intro Hdata. unfold Contact_update. rewrite Hdata. cbv zeta.
  eexists _, _, _. split; [reflexivity|].
  split.
  { rewrite !log_applyAngularImpulse, !log_applyImpulse, !log_applyAngularImpulse,
      !log_applyImpulse, <- !app_assoc. reflexivity. }
  reflexivity.
Qed.

(** X4.  The warm start that follows a [resolve].  If [resolve] starts from
    a cleared linear accumulator and gives the impulse [J] to the second
    body, the next [update] gives the second body a quarter of [-J], the
    impulse that [resolve] gave to the first body, and the first body a
    quarter of [J]. *)
Theorem Contact_update_after_resolve (w w2 : World) (c : Contact.t) (data : CollisionData.t)
    (dt : Q) (Hdata : Contact.data c = Some data)
    (Hclear : Contact.impulse c = Vec3.zero) :
  exists w1 c1 J rest w3 c3 KB KA TB TA,
    Contact_resolve w c = Ok (w1, c1) /\
    log w1 = log w ++ ApplyImpulse (Contact.bodyB c) J :: rest /\
    Contact_update w2 c1 dt = Ok (w3, c3) /\
    log w3 = log w2 ++ [ApplyImpulse (Contact.bodyB c) KB;
                        ApplyAngularImpulse (Contact.bodyB c) TB;
                        ApplyImpulse (Contact.bodyA c) KA;
                        ApplyAngularImpulse (Contact.bodyA c) TA] /\
    Vec3_eqv KB (Vec3.scale (Vec3.invert J) 0.25) /\
    Vec3_eqv KA (Vec3.scale J 0.25).
Proof.
  destruct (Contact_resolve_shape w c data Hdata)
    as (w1 & c1 & J & rest & Hrun & Hlog & Himpulse & _ & _ & Hframe).
  assert (Hdata1 : Contact.data c1 = Some data) by (rewrite Hframe; exact Hdata).
  destruct (Contact_update_shape w2 c1 data dt Hdata1) as (w3 & c3 & bias & Hrun3 & Hlog3 & _).
  assert (HA : Contact.bodyA c1 = Contact.bodyA c) by (rewrite Hframe; reflexivity).
  assert (HB : Contact.bodyB c1 = Contact.bodyB c) by (rewrite Hframe; reflexivity).
  rewrite HA, HB, Himpulse, Hclear in Hlog3.
  eexists w1, c1, J, rest, w3, c3, _, _, _, _.
  split; [exact Hrun|]. split; [exact Hlog|]. split; [exact Hrun3|].
  split; [exact Hlog3|].
  unfold Vec3_eqv, Vec3.scale, Vec3.invert, Vec3.add.
  cbn [Vec3.x Vec3.y Vec3.z Vec3.zero].
  repeat split; ring.
Qed.

Lemma Contact_update_after_resolve_witness :
  exists w1 c1 J rest w3 c3 KB KA TB TA,
    Contact_resolve Sample.world Sample.contact = Ok (w1, c1) /\
    log w1 = log Sample.world ++ ApplyImpulse 1%nat J :: rest /\
    Contact_update Sample.world c1 (1 # 60) = Ok (w3, c3) /\
    log w3 = log Sample.world ++ [ApplyImpulse 1%nat KB; ApplyAngularImpulse 1%nat TB;
                                  ApplyImpulse 0%nat KA; ApplyAngularImpulse 0%nat TA] /\
    Vec3_eqv KB (Vec3.scale (Vec3.invert J) 0.25) /\
    Vec3_eqv KA (Vec3.scale J 0.25).
Proof.
  apply (Contact_update_after_resolve Sample.world Sample.world Sample.contact Sample.data
           (1 # 60)); reflexivity.
Defined.

(** X5.  The warm start is used once: an [update] that follows an [update]
    without a [resolve] in between applies four impulses that are zero. *)
Theorem Contact_update_twice (w w2 : World) (c : Contact.t) (data : CollisionData.t)
    (dt dt2 : Q) (Hdata : Contact.data c = Some data) :
  exists w1 c1 w3 c3 KB TB KA TA,
    Contact_update w c dt = Ok (w1, c1) /\
    Contact_update w2 c1 dt2 = Ok (w3, c3) /\
    log w3 = log w2 ++ [ApplyImpulse (Contact.bodyB c) KB;
                        ApplyAngularImpulse (Contact.bodyB c) TB;
                        ApplyImpulse (Contact.bodyA c) KA;
                        ApplyAngularImpulse (Contact.bodyA c) TA] /\
    Vec3_eqv KB Vec3.zero /\ Vec3_eqv TB Vec3.zero /\
    Vec3_eqv KA Vec3.zero /\ Vec3_eqv TA Vec3.zero.
Proof.
  destruct (Contact_update_shape w c data dt Hdata) as (w1 & c1 & bias & Hrun & _ & Hframe).
  assert (Hdata1 : Contact.data c1 = Some data) by (rewrite Hframe; exact Hdata).
  destruct (Contact_update_shape w2 c1 data dt2 Hdata1) as (w3 & c3 & bias3 & Hrun3 & Hlog3 & _).
  rewrite Hframe in Hlog3.
  cbn [Contact_set_vectors Contact_set_scalars Contact_set_velocityBias Contact.impulse
       Contact.angImpulseA Contact.angImpulseB Contact.bodyA Contact.bodyB] in Hlog3.
  eexists w1, c1, w3, c3, _, _, _, _.
  split; [exact Hrun|]. split; [exact Hrun3|]. split; [exact Hlog3|].
  unfold Vec3_eqv, Vec3.scale, Vec3.invert.
  cbn [Vec3.x Vec3.y Vec3.z Vec3.zero].
  repeat split; ring.
Qed.

Lemma Contact_update_twice_witness :
  exists w1 c1 w3 c3 KB TB KA TA,
    Contact_update Sample.world Sample.warm (1 # 60) = Ok (w1, c1) /\
    Contact_update Sample.world c1 (1 # 60) = Ok (w3, c3) /\
    log w3 = log Sample.world ++ [ApplyImpulse 1%nat KB; ApplyAngularImpulse 1%nat TB;
                                  ApplyImpulse 0%nat KA; ApplyAngularImpulse 0%nat TA] /\
    Vec3_eqv KB Vec3.zero /\ Vec3_eqv TB Vec3.zero /\
    Vec3_eqv KA Vec3.zero /\ Vec3_eqv TA Vec3.zero.
Proof.
  apply (Contact_update_twice Sample.world Sample.world Sample.warm Sample.data
           (1 # 60) (1 # 60)).
  reflexivity.
Defined.

(** X6.  A contact only pushes.  When nothing has been accumulated and the
    contact points move apart fast enough along the normal (the velocity
    along the normal plus the bias, times the effective mass, is not
    negative), [resolve] gives both bodies a zero impulse and leaves the
    three scalar accumulators at zero. *)
Theorem Contact_resolve_separating (w : World) (c : Contact.t) (data : CollisionData.t)
    (Hdata : Contact.data c = Some data)
    (Hnormal : Contact.normalImpulse c == 0)
    (Htangent1 : Contact.tangentImpulse1 c == 0)
    (Htangent2 : Contact.tangentImpulse2 c == 0)
    (Hapart : 0 <= (Vec3.dot (relativeVelocity w c data) (CollisionData.normal data)
                    + Contact.velocityBias c) * Contact.effNormalMass c) :
  exists w' c' J rest,
    Contact_resolve w c = Ok (w', c') /\
    log w' = log w ++ ApplyImpulse (Contact.bodyB c) J :: rest /\
    Vec3_eqv J Vec3.zero /\
    Contact.normalImpulse c' == 0 /\
    Contact.tangentImpulse1 c' == 0 /\
    Contact.tangentImpulse2 c' == 0.
Proof.
  unfold Contact_resolve. rewrite Hdata. cbv zeta.
  fold (relativeVelocity w c data).
  set (rel := relativeVelocity w c data) in *.
  set (push := (Vec3.dot rel (CollisionData.normal data) + Contact.velocityBias c)
               * Contact.effNormalMass c) in *.
  set (newNormal := Math_max (Contact.normalImpulse c
                              + - (Vec3.dot rel (CollisionData.normal data)
                                   + Contact.velocityBias c) * Contact.effNormalMass c) 0).
  assert (HnewNormal : newNormal == 0).
  { unfold newNormal, Math_max.
    destruct (Qltb _ 0) eqn:E; [reflexivity|].
    apply Qltb_false in E. unfold push in Hapart.
    rewrite Hnormal in *. lra. }
  set (maxFriction := Contact.friction c * newNormal).
  assert (HmaxFriction : maxFriction == 0) by (unfold maxFriction; rewrite HnewNormal; ring).
  assert (Hclamp : forall v, clamp v (- maxFriction) maxFriction == 0).
  { intro v. pose proof (clamp_bounds v maxFriction ltac:(lra)). lra. }
  eexists _, _, _, _. split; [reflexivity|].
  split.
  { rewrite !log_applyAngularImpulse, !log_applyImpulse, !log_applyAngularImpulse,
      !log_applyImpulse, <- !app_assoc. reflexivity. }
  cbn [Contact_set_vectors Contact_set_scalars Contact.normalImpulse
       Contact.tangentImpulse1 Contact.tangentImpulse2].
  split; [|split; [exact HnewNormal | split; apply Hclamp]].
  unfold Vec3_eqv, Vec3.add, Vec3.scale. cbn [Vec3.x Vec3.y Vec3.z Vec3.zero].
  repeat split; rewrite !Hclamp, HnewNormal, Hnormal, Htangent1, Htangent2; ring.
Qed.

Lemma Contact_resolve_separating_witness :
  exists w' c' J rest,
    Contact_resolve Sample.world
      (Contact_set_velocityBias Sample.contact 3) = Ok (w', c') /\
    log w' = log Sample.world ++ ApplyImpulse 1%nat J :: rest /\
    Vec3_eqv J Vec3.zero /\
    Contact.normalImpulse c' == 0 /\
    Contact.tangentImpulse1 c' == 0 /\
    Contact.tangentImpulse2 c' == 0.
Proof.
  apply (Contact_resolve_separating Sample.world (Contact_set_velocityBias Sample.contact 3)
           Sample.data); try reflexivity.
  vm_compute. discriminate.
Defined.

(** ** Distance.init and Distance.resolve *)


(** X8.  With a [minLength] that is zero (the default that [init] sets) or
    negative there is no slack zone: [resolve] applies its two impulses
    whatever the distance. *)
Theorem Distance_resolve_no_slack (w : World) (d : Distance.t)
    (Hmin : Distance.minLength d <= 0) :
  exists J,
    log (Distance_resolve w d).1
    = log w ++ [ApplyImpulse (Distance.b d) J; ApplyImpulse (Distance.a d) (Vec3.invert J)].
Proof.
  unfold Distance_resolve, Math_abs. cbv zeta.
  assert (Qltb (Qabs (Distance.distance d)) (Distance.minLength d) = false) as ->.
  { apply Qltb_false. pose proof (Qabs_nonneg (Distance.distance d)). lra. }
  eexists. cbn [fst]. rewrite !log_applyImpulse, <- app_assoc. reflexivity.
Qed.

Lemma Distance_resolve_no_slack_witness :
  exists J,
    log (Distance_resolve Sample.world Sample.rigid).1
    = log Sample.world ++ [ApplyImpulse 1%nat J; ApplyImpulse 0%nat (Vec3.invert J)].
Proof.
  apply (Distance_resolve_no_slack Sample.world Sample.rigid).
  vm_compute. discriminate.
Defined.

Lemma getBody_applyImpulse (w : World) (r r' : BodyRef) (J : Vec3.t) :
  getBody (applyImpulse w r J) r'
  = if decide (r = r')
    then Body.mk (Body._ID (getBody w r)) (Body.position (getBody w r))
           (Vec3.add (Body.velocity (getBody w r)) (Vec3.scale J (Body.inverseMass (getBody w r))))
           (Body.angularVelocity (getBody w r)) (Body.inverseMass (getBody w r))
           (Body.inverseInertia (getBody w r)) (Body.restitution (getBody w r))
           (Body.friction (getBody w r))
    else getBody w r'.
Proof.
  unfold applyImpulse, getBody, emit, setBody. cbn [bodies]. apply lookup_total_insert.
Qed.

(** X9.  What [resolve] does to the velocities of two distinct bodies,
    outside the slack zone: the velocity of the second body relative to the
    first, taken along the normal, changes by [lambda * (w1 + w2) * (n . n)].
    For a unit normal and a divisor equal to the sum of the inverse masses
    (no softness) it becomes the negated velocity bias. *)
Theorem Distance_resolve_relative_velocity (w : World) (d : Distance.t)
    (Hbodies : Distance.a d <> Distance.b d)
    (Hout : Distance.minLength d <= Qabs (Distance.distance d)) :
  let n := Distance.normal d in
  let w1 := Body.inverseMass (getBody w (Distance.a d)) in
  let w2 := Body.inverseMass (getBody w (Distance.b d)) in
  let along (s : World) :=
    Vec3.dot n (Vec3.subtract (getVelocity s (Distance.b d)) (getVelocity s (Distance.a d))) in
  let lambda := - (along w + Distance.velocityBias d) / Distance.divisor d in
  along (Distance_resolve w d).1 == along w + lambda * (w1 + w2) * Vec3.dot n n /\
  (Vec3.dot n n == 1 -> Distance.divisor d == w1 + w2 -> ~ Distance.divisor d == 0 ->
   along (Distance_resolve w d).1 == - Distance.velocityBias d).
Proof.
  intros n w1 w2 along lambda.
  assert (Hstep : along (Distance_resolve w d).1
                  == along w + lambda * (w1 + w2) * Vec3.dot n n).
  { unfold along at 1. unfold Distance_resolve, Math_abs. cbv zeta.
    apply Qltb_false in Hout. rewrite Hout. cbn [fst].
    unfold getVelocity. rewrite !getBody_applyImpulse.
    rewrite (decide_False (P := Distance.a d = Distance.b d)) by assumption.
    rewrite (decide_False (P := Distance.b d = Distance.a d)) by auto.
    rewrite !decide_True by reflexivity.
    cbn [Body.velocity Body.inverseMass].
    fold (getVelocity w (Distance.a d)) (getVelocity w (Distance.b d)).
    fold n. fold (along w). fold lambda. fold w1 w2.
    unfold along, Vec3.dot, Vec3.subtract, Vec3.add, Vec3.scale, Vec3.invert.
    cbn [Vec3.x Vec3.y Vec3.z]. ring. }
  split; [exact Hstep|].
  intros Hunit Hdiv Hnonzero. rewrite Hstep, Hunit. unfold lambda.
  rewrite <- Hdiv. field. exact Hnonzero.
Qed.

Lemma Distance_resolve_relative_velocity_witness :
  Vec3.dot (Vec3.mk 1 0 0)
    (Vec3.subtract (getVelocity (Distance_resolve Sample.world Sample.link).1 1%nat)
                   (getVelocity (Distance_resolve Sample.world Sample.link).1 0%nat))
  == - (1).
Proof.
  apply (Distance_resolve_relative_velocity Sample.world Sample.link).
  - discriminate.
  - vm_compute. discriminate.
  - vm_compute. reflexivity.
  - vm_compute. reflexivity.
  - vm_compute. discriminate.
Defined.

(** ** Manifold.contains, Manifold.update and Manifold.resolveContacts *)

Lemma Manifold_contains_loop_first `{MathLib} (wA wB : Vec3.t) (count i : nat)
    (w : World) (m : Manifold.t) :
  Manifold_wf m ->
  (forall j c d, (j < i)%nat -> array_get (Manifold.contacts m) j = Some c ->
     Contact.data c = Some d -> Manifold_near wA wB d = false) ->
  exists w' m' found,
    Manifold_contains_loop wA wB i count w m = Ok (w', m', found) /\
    (found = false ->
     w' = w /\ m' = m /\
     forall j c d, (j < i + count)%nat -> array_get (Manifold.contacts m) j = Some c ->
       Contact.data c = Some d -> Manifold_near wA wB d = false) /\
    (found = true ->
     exists k c d,
       (k < i + count)%nat /\
       array_get (Manifold.contacts m) k = Some c /\ Contact.data c = Some d /\
       Manifold_near wA wB d = true /\
       (forall j c' d', (j < k)%nat -> array_get (Manifold.contacts m) j = Some c' ->
          Contact.data c' = Some d' -> Manifold_near wA wB d' = false) /\
       (w', m') = Manifold_removeContact w m c k).
Proof.
  intro Hwf. revert i. induction count as [|count IH]; intros i Hbefore;
    cbn [Manifold_contains_loop].
  - exists w, m, false. split; [reflexivity|]. split; [|discriminate].
    intros _. split; [reflexivity|]. split; [reflexivity|].
    intros j c d Hj. apply Hbefore. lia.
  - assert (Hnext : forall near_i : (forall c d, array_get (Manifold.contacts m) i = Some c ->
                        Contact.data c = Some d -> Manifold_near wA wB d = false),
              forall j c d, (j < S i)%nat -> array_get (Manifold.contacts m) j = Some c ->
                Contact.data c = Some d -> Manifold_near wA wB d = false).
    { intros near_i j c d Hj. destruct (decide (j = i)) as [->|Hne]; [apply near_i|].
      apply Hbefore. lia. }
    destruct (array_get (Manifold.contacts m) i) as [c|] eqn:Hget.
    + pose proof Hwf as (_ & _ & _ & Hdata).
      destruct (Hdata i c Hget) as [d Hd]. rewrite Hd.
      change (Qltb _ THRESHOLD || Qltb _ THRESHOLD) with (Manifold_near wA wB d).
      destruct (Manifold_near wA wB d) eqn:Hnear.
      * destruct (Manifold_removeContact w m c i) as [w1 m1] eqn:Hremove.
        exists w1, m1, true. split; [reflexivity|]. split; [discriminate|].
        intros _. exists i, c, d. split; [lia|]. repeat split; auto.
      * destruct (IH (S i)) as (w' & m' & found & Hrun & Hno & Hyes).
        { apply Hnext. intros c0 d0 Hc0 Hd0. congruence. }
        exists w', m', found. split; [exact Hrun|].
        replace (i + S count)%nat with (S i + count)%nat by lia. now split.
    + destruct (IH (S i)) as (w' & m' & found & Hrun & Hno & Hyes).
      { apply Hnext. intros c0 d0 Hc0. discriminate. }
      exists w', m', found. split; [exact Hrun|].
      replace (i + S count)%nat with (S i + count)%nat by lia. now split.
Qed.

(** X10.  [contains] removes the first live contact, in slot order, that has
    a cached world point within [THRESHOLD] of the candidate's, and returns
    [true]; contacts in later slots stay even when they are as near.  When
    no live contact is that near it returns [false] and changes nothing. *)
Theorem Manifold_contains_first_match `{MathLib} (w : World) (m : Manifold.t)
    (collisionData : CollisionData.t) (Hwf : Manifold_wf m) :
  let wA := CollisionData.worldContactA collisionData in
  let wB := CollisionData.worldContactB collisionData in
  exists w' m' found,
    Manifold_contains w m collisionData = Ok (w', m', found) /\
    (found = false ->
     w' = w /\ m' = m /\
     forall j c d, array_get (Manifold.contacts m) j = Some c ->
       Contact.data c = Some d -> Manifold_near wA wB d = false) /\
    (found = true ->
     exists k c d,
       array_get (Manifold.contacts m) k = Some c /\ Contact.data c = Some d /\
       Manifold_near wA wB d = true /\
       (forall j c' d', (j < k)%nat -> array_get (Manifold.contacts m) j = Some c' ->
          Contact.data c' = Some d' -> Manifold_near wA wB d' = false) /\
       (w', m') = Manifold_removeContact w m c k /\
       (forall j, j <> k ->
          array_get (Manifold.contacts m') j = array_get (Manifold.contacts m) j)).
Proof.
  intros wA wB.
  destruct (Manifold_contains_loop_first wA wB (length (Manifold.contacts m)) 0 w m Hwf)
    as (w' & m' & found & Hrun & Hno & Hyes); [intros; lia|].
  exists w', m', found. split; [exact Hrun|]. split.
  - intro Hfound. destruct (Hno Hfound) as (-> & -> & Hall).
    split; [reflexivity|]. split; [reflexivity|].
    intros j c d Hj Hd. apply (Hall j c d); auto. apply array_get_lt in Hj. lia.
  - intro Hfound. destruct (Hyes Hfound) as (k & c & d & _ & Hk & Hd & Hnear & Hfirst & Hrem).
    exists k, c, d. repeat split; auto.
    intros j Hj. injection Hrem as _ ->. cbn. now rewrite array_get_set_ne.
Qed.

Lemma Manifold_contains_first_match_witness :
  exists w' m',
    @Manifold_contains exactMath Sample.world Sample.manifold (Sample.dataOf 7)
    = Ok (w', m', true) /\
    array_get (Manifold.contacts m') 0 = None.
Proof.
  destruct (@Manifold_contains_first_match exactMath Sample.world Sample.manifold
              (Sample.dataOf 7) Sample_manifold_wf)
    as (w' & m' & found & Hrun & _ & _).
  exists w', m'. split.
  - rewrite Hrun. vm_compute in Hrun. injection Hrun as _ _ <-. reflexivity.
  - vm_compute in Hrun. injection Hrun as _ <- _. reflexivity.
Defined.

(** X11.  The counter of a manifold is the number of its live slots, in
    every state that the methods of the manifold produce; so it lies between
    0 and 4, and the cursor below 4. *)
Theorem Manifold_counter_invariant `{MathLib} (m : Manifold.t)
    (Hreach : Manifold_reachable m) :
  Manifold.numContacts m = Z.of_nat (live (Manifold.contacts m)) /\
  (0 <= Manifold.numContacts m <= 4)%Z /\
  (Manifold.lru m < 4)%nat /\
  (length (Manifold.contacts m) <= 4)%nat.
Proof.
  destruct (Manifold_reachable_wf m Hreach) as (Hlen & Hlru & Hnum & _).
  pose proof (live_le_length (Manifold.contacts m)).
  repeat split; auto; lia.
Qed.

Lemma Manifold_counter_invariant_witness :
  exists w' m',
    @Manifold_addContact exactMath Sample.world (Manifold_reset Manifold_new 1 2 0%nat 1%nat)
      0%nat 1%nat Sample.data = Ok (w', m') /\
    Manifold.numContacts m' = Z.of_nat (live (Manifold.contacts m')).
Proof.
  destruct (@Manifold_addContact_spec exactMath Sample.world
              (Manifold_reset Manifold_new 1 2 0%nat 1%nat) 0%nat 1%nat Sample.data)
    as (w' & m' & _ & Hadd & _).
  exists w', m'. split; [exact Hadd|].
  apply (@Manifold_counter_invariant exactMath).
  exact (reach_addContact _ _ _ _ _ _ _ (reach_reset Manifold_new 1 2 0%nat 1%nat) Hadd).
Defined.

Lemma Manifold_kept_idempotent `{MathLib} (posA posB : Vec3.t) (o : option Contact.t) :
  Manifold_kept posA posB (Manifold_kept posA posB o) = Manifold_kept posA posB o.
Proof.
  destruct o as [c|]; [|reflexivity]. cbn.
  destruct (Contact.data c) as [d|] eqn:Hd; [|reflexivity]. cbn.
  destruct (Manifold_stale posA posB d) eqn:Hs; [reflexivity|].
  cbn. rewrite Hd. cbn. now rewrite Hs.
Qed.

(** X12.  [Manifold.update] never brings a slot to life, and as long as the
    two bodies have not moved a second [update] removes nothing more and
    returns what the first returned. *)
Theorem Manifold_update_idempotent `{MathLib} (w : World) (m : Manifold.t) (dt dt2 : Q)
    (w2 : World) (Hwf : Manifold_wf m) (Hbodies : bodies w2 = bodies w) :
  exists w1 m1 persists w3 m3,
    Manifold_update w m dt = Ok (w1, m1, persists) /\
    (forall j c, array_get (Manifold.contacts m1) j = Some c ->
                 array_get (Manifold.contacts m) j = Some c) /\
    Manifold_update w2 m1 dt2 = Ok (w3, m3, persists) /\
    (forall j, array_get (Manifold.contacts m3) j = array_get (Manifold.contacts m1) j) /\
    Manifold.numContacts m3 = Manifold.numContacts m1.
Proof.
  destruct (Manifold_update_spec w m dt Hwf) as (w1 & m1 & Hrun & Hwf1 & Hslots & Hid & _).
  destruct (Manifold_update_spec w2 m1 dt2 Hwf1) as (w3 & m3 & Hrun3 & Hwf3 & Hslots3 & _).
  destruct Hid as (_ & _ & HA & HB & _).
  assert (Hpos : forall r, getBody w2 r = getBody w r)
    by (intro r; unfold getBody; now rewrite Hbodies).
  rewrite HA, HB, !Hpos in Hslots3.
  assert (Hsame : forall j, array_get (Manifold.contacts m3) j
                            = array_get (Manifold.contacts m1) j).
  { intro j. now rewrite Hslots3, Hslots, Manifold_kept_idempotent. }
  assert (Hnum : Manifold.numContacts m3 = Manifold.numContacts m1).
  { destruct Hwf1 as (_ & _ & Hn1 & _). destruct Hwf3 as (_ & _ & Hn3 & _).
    rewrite Hn1, Hn3. f_equal.
    assert (Hocc : forall k, (live (Manifold.contacts m3) <= k)%nat <->
                             (live (Manifold.contacts m1) <= k)%nat).
    2:{ apply Nat.le_antisymm; apply Hocc; lia. }
    clear -Hsame.
    assert (Hlive : forall (a b : list (option Contact.t)),
              (forall j, array_get a j = array_get b j) -> live a = live b).
    { induction a as [|x a IH]; intros b Hab.
      - induction b as [|y b IHb]; [reflexivity|].
        pose proof (Hab 0%nat) as H0. cbn in H0. subst y.
        unfold live in *. cbn. apply IHb. intro j. specialize (Hab (S j)).
        unfold array_get in *. cbn in *. now rewrite lookup_nil in *.
      - destruct b as [|y b].
        + pose proof (Hab 0%nat) as H0. cbn in H0. subst x.
          unfold live in *. cbn. apply (IH []). intro j. specialize (Hab (S j)).
          unfold array_get in *. cbn in *. now rewrite lookup_nil in *.
        + pose proof (Hab 0%nat) as H0. cbn in H0. subst y.
          assert (live a = live b) as Hrec by (apply IH; intro j; apply (Hab (S j))).
          unfold live in *. destruct x; cbn; lia. }
    intro k. now rewrite (Hlive _ _ Hsame). }
  exists w1, m1, (negb (Manifold.numContacts m1 =? 0)%Z), w3, m3.
  split; [exact Hrun|]. split.
  - intros j c Hj. rewrite Hslots in Hj.
    destruct (array_get (Manifold.contacts m) j) as [c0|]; [|discriminate].
    cbn in Hj. destruct (Contact.data c0); [|discriminate]. cbn in Hj.
    destruct (Manifold_stale _ _ _); [discriminate|]. congruence.
  - split; [now rewrite <- Hnum|]. now split.
Qed.

Lemma Manifold_update_idempotent_witness :
  exists w1 m1 persists w3 m3,
    @Manifold_update exactMath Sample.world Sample.manifold (1 # 60) = Ok (w1, m1, persists) /\
    @Manifold_update exactMath Sample.world m1 (1 # 30) = Ok (w3, m3, persists) /\
    Manifold.numContacts m3 = Manifold.numContacts m1.
Proof.
  destruct (@Manifold_update_idempotent exactMath Sample.world Sample.manifold (1 # 60) (1 # 30)
              Sample.world Sample_manifold_wf eq_refl)
    as (w1 & m1 & persists & w3 & m3 & Hrun & _ & Hrun3 & _ & Hnum).
  exists w1, m1, persists, w3, m3. now split.
Defined.

(** ** The table and the store stay consistent *)

Lemma matrix_lookup_insert_other (cm : gmap Z (gmap Z (option nat))) (lowID highID : Z)
    (v : option nat) (lo hi : Z) :
  (lo, hi) <> (lowID, highID) ->
  matrix_lookup (<[lowID := <[highID := v]> (default ∅ (cm !! lowID))]> cm) lo hi
  = matrix_lookup cm lo hi.
Proof.
  intro Hne. unfold matrix_lookup.
  destruct (decide (lowID = lo)) as [<-|Hlo].
  - rewrite lookup_insert_eq. cbn.
    rewrite lookup_insert_ne by congruence.
    destruct (cm !! lowID) as [row|]; cbn; [reflexivity|]. now rewrite lookup_empty.
  - now rewrite lookup_insert_ne.
Qed.

Lemma matrix_lookup_touch (cm : gmap Z (gmap Z (option nat))) (lowID lo hi : Z) :
  matrix_lookup (<[lowID := default ∅ (cm !! lowID)]> cm) lo hi = matrix_lookup cm lo hi.
Proof.
  unfold matrix_lookup. destruct (decide (lowID = lo)) as [<-|Hlo].
  - rewrite lookup_insert_eq. cbn.
    destruct (cm !! lowID) as [row|]; cbn; [reflexivity|]. now rewrite lookup_empty.
  - now rewrite lookup_insert_ne.
Qed.

Lemma matrix_lookup_row (cm : gmap Z (gmap Z (option nat))) (lo hi : Z) (i : nat) :
  matrix_lookup cm lo hi = Some i -> exists row, cm !! lo = Some row.
Proof.
  unfold matrix_lookup. destruct (cm !! lo) as [row|]; [eauto | discriminate].
Qed.

(** A call that rewrites the manifold of a live slot, keeping it well formed
    and under the same pair of identifiers, keeps the table consistent. *)
Lemma Table_consistent_rewrite (w w' : World) (t : ContactManifoldTable.t) (i : nat)
    (r : ManifoldRef) (m m' : Manifold.t) :
  Table_consistent w t ->
  array_get (ContactManifoldTable.manifolds t) i = Some r ->
  heap w !! r = Some m ->
  Manifold_wf m' ->
  Manifold.lowID m' = Manifold.lowID m -> Manifold.highID m' = Manifold.highID m ->
  heap w' = <[r := m']> (heap w) -> poolManifold w' = poolManifold w ->
  Table_consistent w' t.
Proof.
  intros (Hslots & Hmatrix & Hfree & Hdistinct & Hpool) Hslot Hheap Hwf Hlo Hhi Hheap' Hpool'.
  split; [|split; [|split; [exact Hfree | split; [exact Hdistinct|]]]].
  - intros j r' Hj. destruct (Hslots j r' Hj) as (mj & Hmj & Hwfj & Hkey).
    rewrite Hheap'. destruct (decide (r = r')) as [<-|Hne].
    + exists m'. rewrite lookup_insert_eq. split; [reflexivity|]. split; [exact Hwf|].
      rewrite Hlo, Hhi. congruence.
    + exists mj. now rewrite lookup_insert_ne.
  - intros lo hi j Hj. destruct (Hmatrix lo hi j Hj) as (r' & mj & Hslotj & Hmj & Hloj & Hhij).
    rewrite Hheap'. destruct (decide (r = r')) as [<-|Hne].
    + exists r, m'. rewrite lookup_insert_eq. split; [exact Hslotj|].
      split; [reflexivity|]. split; congruence.
    + exists r', mj. now rewrite lookup_insert_ne.
  - rewrite Hpool', Hheap'. destruct Hpool as [Hnodup Hin]. split; [exact Hnodup|].
    intros r' Hr'. destruct (Hin r' Hr') as [Hsome Hfree'].
    split; [|exact Hfree']. apply lookup_insert_is_Some'. now right.
Qed.

Lemma Contact_resolve_store (w : World) (c : Contact.t) (w' : World) (c' : Contact.t) :
  Contact_resolve w c = Ok (w', c') ->
  heap w' = heap w /\ poolManifold w' = poolManifold w.
Proof.
  unfold Contact_resolve. destruct (Contact.data c); [|discriminate]. cbv zeta.
  intro Hrun. injection Hrun as <- _. now split.
Qed.

Lemma Contact_update_store (w : World) (c : Contact.t) (dt : Q) (w' : World) (c' : Contact.t) :
  Contact_update w c dt = Ok (w', c') ->
  heap w' = heap w /\ poolManifold w' = poolManifold w.
Proof.
  unfold Contact_update. destruct (Contact.data c); [|discriminate]. cbv zeta.
  intro Hrun. injection Hrun as <- _. now split.
Qed.

Lemma each_contact_loop_store (method : World -> Contact.t -> result (World * Contact.t)) :
  (forall w c w' c', method w c = Ok (w', c') ->
     heap w' = heap w /\ poolManifold w' = poolManifold w) ->
  forall count from w m w' m',
    for_loop (each_contact_step method) from count (w, m) = Ok (w', m') ->
    heap w' = heap w /\ poolManifold w' = poolManifold w.
Proof.
  intros Hmethod count. induction count as [|count IH]; intros from w m w' m' Hrun;
    cbn [for_loop] in Hrun.
  - injection Hrun as <- _. now split.
  - unfold each_contact_step at 2 in Hrun.
    destruct (array_get (Manifold.contacts m) from) as [c|].
    + destruct (method w c) as [[w1 c1]|e] eqn:Hm; [|discriminate].
      rewrite !bind_Ok in Hrun. apply IH in Hrun as [Hh Hp].
      destruct (Hmethod _ _ _ _ Hm) as [Hh1 Hp1]. split; congruence.
    + rewrite bind_Ok in Hrun. eauto.
Qed.

(** A loop of the table that calls a method on every live contact of every
    live manifold runs through and keeps the table consistent. *)
Lemma Table_each_manifold_loop
    (method : World -> Contact.t -> result (World * Contact.t))
    (t : ContactManifoldTable.t) :
  (forall w c d, Contact.data c = Some d ->
     exists w' c', method w c = Ok (w', c') /\ Contact.data c' = Some d) ->
  (forall w c w' c', method w c = Ok (w', c') ->
     heap w' = heap w /\ poolManifold w' = poolManifold w) ->
  forall count from w, Table_consistent w t ->
    exists w',
      for_loop
        (fun i w =>
           match array_get (ContactManifoldTable.manifolds t) i with
           | None => Ok w
           | Some manifold =>
             '(w, m) ← for_loop (each_contact_step method) 0
                         (length (Manifold.contacts (getManifold w manifold)))
                         (w, getManifold w manifold);
             Ok (setManifold w manifold m)
           end) from count w = Ok w' /\
      Table_consistent w' t.
Proof.
  intros Hdata Hstore count from w Hcons.
  apply (for_loop_invariant (fun _ w => Table_consistent w t)); [|exact Hcons].
  clear w Hcons from. intros i w Hcons.
  destruct (array_get (ContactManifoldTable.manifolds t) i) as [r|] eqn:Hslot; [|eauto].
  pose proof Hcons as (Hslots & _).
  destruct (Hslots i r Hslot) as (m & Hheap & Hwf & _).
  rewrite (getManifold_lookup w r m Hheap).
  destruct (each_contact_loop_wf method Hdata (length (Manifold.contacts m)) 0%nat w m Hwf)
    as (w1 & m1 & Hrun & Hwf1 & Hid).
  rewrite Hrun, bind_Ok.
  destruct (each_contact_loop_store method Hstore _ _ _ _ _ _ Hrun) as [Hh Hp].
  destruct Hid as (Hlo & Hhi & _).
  eexists. split; [reflexivity|].
  eapply (Table_consistent_rewrite w (setManifold w1 r m1) t i r m m1); eauto.
  cbn. now rewrite Hh.
Qed.

Lemma ContactManifoldTable_prepContacts_consistent (w : World) (t : ContactManifoldTable.t)
    (dt : Q) :
  Table_consistent w t ->
  exists w', ContactManifoldTable_prepContacts w t dt = Ok w' /\ Table_consistent w' t.
Proof.
  intro Hcons.
  apply (Table_each_manifold_loop (fun w c => Contact_update w c dt) t
           (fun w c d => Contact_update_ok w c d dt)
           (fun w c => Contact_update_store w c dt)); exact Hcons.
Qed.

Lemma ContactManifoldTable_resolveManifolds_consistent (w : World)
    (t : ContactManifoldTable.t) :
  Table_consistent w t ->
  exists w', ContactManifoldTable_resolveManifolds w t = Ok w' /\ Table_consistent w' t.
Proof.
  intro Hcons.
  apply (Table_each_manifold_loop Contact_resolve t Contact_resolve_ok Contact_resolve_store);
    exact Hcons.
Qed.

Lemma array_pop_Some {A} (a : list A) (v : A) (rest : list A) :
  array_pop a = Some (v, rest) -> a = rest ++ [v].
Proof.
  unfold array_pop. destruct (last a) as [x|] eqn:Hlast; [|discriminate].
  intro Hpop. injection Hpop as <- <-.
  apply last_Some in Hlast as [l' ->]. now rewrite removelast_last.
Qed.

Lemma array_pop_None {A} (a : list A) : array_pop a = None -> a = [].
Proof.
  unfold array_pop. destruct (last a) eqn:Hlast; [discriminate|].
  intros _. now apply last_None.
Qed.

Lemma NoDup_snoc_inv {A} (l : list A) (x : A) :
  NoDup (l ++ [x]) -> NoDup l /\ ~ In x l.
Proof.
  intro Hnd. apply NoDup_app in Hnd as (Hl & Hdisj & _). split; [exact Hl|].
  intro Hin. apply list_elem_of_In in Hin. apply (Hdisj x Hin). now left.
Qed.

Lemma NoDup_snoc_intro {A} (l : list A) (x : A) :
  NoDup l -> ~ In x l -> NoDup (l ++ [x]).
Proof.
  intros Hl Hx. apply NoDup_app. split; [exact Hl|]. split.
  - intros y Hy Hyx. apply list_elem_of_singleton in Hyx. subst y.
    apply Hx. now apply list_elem_of_In.
  - apply NoDup_singleton.
Qed.

(** The store matters to the table through the manifolds and their pool
    only. *)
Lemma Table_consistent_store (w w' : World) (t : ContactManifoldTable.t) :
  heap w' = heap w -> poolManifold w' = poolManifold w ->
  Table_consistent w t -> Table_consistent w' t.
Proof.
  intros Hh Hp (Hslots & Hmatrix & Hfree & Hdistinct & Hpool).
  unfold Table_consistent. rewrite Hh, Hp. tauto.
Qed.

(** [addManifold] for a pair that the matrix does not have. *)
Lemma ContactManifoldTable_addManifold_consistent (w : World) (t : ContactManifoldTable.t)
    (lowID highID : Z) (a b : BodyRef) :
  Table_consistent w t ->
  matrix_lookup (ContactManifoldTable.collisionMatrix t) lowID highID = None ->
  exists w' t' r i m0,
    ContactManifoldTable_addManifold w t lowID highID a b = (w', t', r) /\
    array_get (ContactManifoldTable.manifolds t') i = Some r /\
    heap w' !! r = Some (Manifold_reset m0 lowID highID a b) /\
    Table_consistent w' t' /\
    bodies w' = bodies w /\ log w' = log w.
Proof.
  intros (Hslots & Hmatrix & (Hfree_nd & Hfree) & Hdistinct & (Hpool_nd & Hpool)) Habsent.
  unfold ContactManifoldTable_addManifold. cbv zeta.
  (* the index *)
  assert (Hindex : exists index idPool,
            match array_pop (ContactManifoldTable._IDPool t) with
            | Some (i, rest) => (i, rest)
            | None => (length (ContactManifoldTable.manifolds t),
                       ContactManifoldTable._IDPool t)
            end = (index, idPool) /\
            array_get (ContactManifoldTable.manifolds t) index = None /\
            NoDup idPool /\
            forall j, In j idPool ->
              j <> index /\ array_get (ContactManifoldTable.manifolds t) j = None).
  { destruct (array_pop (ContactManifoldTable._IDPool t)) as [[i rest]|] eqn:Hpop.
    - apply array_pop_Some in Hpop. rewrite Hpop in Hfree_nd, Hfree.
      apply NoDup_snoc_inv in Hfree_nd as [Hnd Hnot].
      exists i, rest. split; [reflexivity|].
      split; [apply Hfree, in_or_app; right; now left|]. split; [exact Hnd|].
      intros j Hj. split; [congruence|]. apply Hfree, in_or_app. now left.
    - apply array_pop_None in Hpop. rewrite Hpop in *.
      exists (length (ContactManifoldTable.manifolds t)), []. split; [reflexivity|].
      split; [now apply array_get_beyond|]. split; [constructor|]. intros j []. }
  destruct Hindex as (index & idPool & -> & Hempty & Hnd' & Hfree').
  (* the object *)
  assert (Hobject : exists w0 r,
            OMRequestManifold w = (w0, r) /\
            (forall j, array_get (ContactManifoldTable.manifolds t) j <> Some r) /\
            (forall r', r' <> r -> heap w0 !! r' = heap w !! r') /\
            NoDup (poolManifold w0) /\ ~ In r (poolManifold w0) /\
            (forall r', In r' (poolManifold w0) ->
               is_Some (heap w !! r') /\
               forall j, array_get (ContactManifoldTable.manifolds t) j <> Some r') /\
            bodies w0 = bodies w /\ log w0 = log w).
  { unfold OMRequestManifold.
    destruct (array_pop (poolManifold w)) as [[r rest]|] eqn:Hpop.
    - apply array_pop_Some in Hpop. rewrite Hpop in Hpool_nd, Hpool.
      apply NoDup_snoc_inv in Hpool_nd as [Hnd Hnot].
      eexists _, r. split; [reflexivity|]. cbn.
      split; [apply Hpool, in_or_app; right; now left|].
      split; [reflexivity|]. split; [exact Hnd|]. split; [exact Hnot|].
      split; [|now split]. intros r' Hr'. apply Hpool, in_or_app. now left.
    - eexists _, (fresh (dom (heap w))). split; [reflexivity|]. cbn.
      assert (Hfresh : heap w !! fresh (dom (heap w)) = None).
      { apply not_elem_of_dom. apply is_fresh. }
      split.
      { intros j Hj. destruct (Hslots j _ Hj) as (m & Hm & _). congruence. }
      split; [intros r' Hr'; now rewrite lookup_insert_ne|].
      split; [exact Hpool_nd|]. split.
      { intro Hin. destruct (Hpool _ Hin) as [[m Hm] _]. congruence. }
      split; [exact Hpool | now split]. }
  destruct Hobject as (w0 & r & -> & Hnotlive & Hheap0 & Hpnd & Hrpool & Hpool0 & Hb0 & Hl0).
  set (m1 := Manifold_reset (getManifold w0 r) lowID highID a b).
  assert (Hlook : forall lo hi,
            matrix_lookup
              (<[lowID := <[highID := Some index]>
                   (default ∅ (<[lowID := default ∅ (ContactManifoldTable.collisionMatrix t !! lowID)]>
                                 (ContactManifoldTable.collisionMatrix t) !! lowID))]>
                 (<[lowID := default ∅ (ContactManifoldTable.collisionMatrix t !! lowID)]>
                    (ContactManifoldTable.collisionMatrix t))) lo hi
            = if decide ((lo, hi) = (lowID, highID)) then Some index
              else matrix_lookup (ContactManifoldTable.collisionMatrix t) lo hi).
  { intros lo hi. case_decide as Hkey.
    - injection Hkey as -> ->. apply matrix_lookup_insert.
    - rewrite matrix_lookup_insert_other by exact Hkey. apply matrix_lookup_touch. }
  eexists _, _, r, index, (getManifold w0 r). split; [reflexivity|].
  cbn [ContactManifoldTable.manifolds ContactManifoldTable.collisionMatrix
       ContactManifoldTable._IDPool].
  split; [apply array_get_set_eq|].
  split; [cbn; apply lookup_insert_eq|].
  assert (Hheap1 : forall r', r' <> r ->
            heap (setManifold w0 r m1) !! r' = heap w !! r').
  { intros r' Hne. cbn. rewrite lookup_insert_ne by auto. now apply Hheap0. }
  split; [|now split].
  unfold Table_consistent.
  cbn [ContactManifoldTable.manifolds ContactManifoldTable.collisionMatrix
       ContactManifoldTable._IDPool].
  split; [|split; [|split; [|split]]].
  - intros j r' Hj. destruct (decide (index = j)) as [<-|Hne].
    + rewrite array_get_set_eq in Hj. injection Hj as <-.
      exists m1. split; [cbn; apply lookup_insert_eq|].
      split; [apply Manifold_reset_wf|]. rewrite Hlook. cbn. now rewrite decide_True.
    + rewrite array_get_set_ne in Hj by auto.
      destruct (Hslots j r' Hj) as (mj & Hmj & Hwfj & Hkey).
      assert (r' <> r) by (intros ->; now apply (Hnotlive j)).
      exists mj. rewrite Hheap1 by auto. split; [exact Hmj|]. split; [exact Hwfj|].
      rewrite Hlook. rewrite decide_False; [exact Hkey|].
      intro Heq. injection Heq as Hlo Hhi. rewrite Hlo, Hhi in Hkey. congruence.
  - intros lo hi j Hj. rewrite Hlook in Hj. case_decide as Hkey.
    + injection Hkey as -> ->. injection Hj as <-.
      exists r, m1. split; [apply array_get_set_eq|].
      split; [cbn; apply lookup_insert_eq|]. now split.
    + destruct (Hmatrix lo hi j Hj) as (r' & mj & Hslotj & Hmj & Hids).
      assert (index <> j) by (intros <-; congruence).
      assert (r' <> r) by (intros ->; now apply (Hnotlive j)).
      exists r', mj. rewrite array_get_set_ne by auto. rewrite Hheap1 by auto. auto.
  - split; [exact Hnd'|]. intros j Hj. destruct (Hfree' j Hj) as [Hne Hnone].
    now rewrite array_get_set_ne by auto.
  - intros i1 i2 r' H1 H2.
    destruct (decide (index = i1)) as [<-|Hn1]; destruct (decide (index = i2)) as [<-|Hn2];
      auto.
    + rewrite array_get_set_eq in H1. injection H1 as <-.
      rewrite array_get_set_ne in H2 by auto. now apply Hnotlive in H2.
    + rewrite array_get_set_eq in H2. injection H2 as <-.
      rewrite array_get_set_ne in H1 by auto. now apply Hnotlive in H1.
    + rewrite array_get_set_ne in H1, H2 by auto. eauto.
  - cbn [poolManifold setManifold]. split; [exact Hpnd|].
    intros r' Hr'. destruct (Hpool0 r' Hr') as [Hsome Hnot].
    assert (r' <> r) by (intros ->; contradiction).
    split; [rewrite Hheap1 by auto; exact Hsome|].
    intros j Hj. destruct (decide (index = j)) as [<-|Hne].
    + rewrite array_get_set_eq in Hj. congruence.
    + rewrite array_get_set_ne in Hj by auto. now apply (Hnot j).
Qed.

(** [registerContact] runs through on a consistent table and keeps it
    consistent. *)
Lemma ContactManifoldTable_registerContact_consistent `{MathLib} (w : World)
    (t : ContactManifoldTable.t) (x y : BodyRef) (d : CollisionData.t) :
  Table_consistent w t ->
  exists w' t',
    ContactManifoldTable_registerContact w t x y d = Ok (w', t') /\
    Table_consistent w' t'.
Proof.
  intro Hcons. unfold ContactManifoldTable_registerContact.
  destruct (pairKey w x y) as [lowID highID].
  destruct (matrix_lookup (ContactManifoldTable.collisionMatrix t) lowID highID)
    as [index|] eqn:Hlookup.
  - pose proof Hcons as (Hslots & Hmatrix & _).
    destruct (Hmatrix lowID highID index Hlookup) as (r & m & Hslot & Hheap & _).
    destruct (Hslots index r Hslot) as (m0 & Hheap0 & Hwf & _).
    assert (m0 = m) as -> by congruence.
    rewrite Hslot, (getManifold_lookup w r m Hheap).
    destruct (Manifold_contains_loop_wf (CollisionData.worldContactA d)
                (CollisionData.worldContactB d) (length (Manifold.contacts m)) 0 w m Hwf)
      as (w1 & m1 & found & Hc & Hwf1 & (Hlo1 & Hhi1 & _) & _ & Hh1 & Hp1 & _).
    unfold Manifold_contains. rewrite Hc, bind_Ok.
    destruct (Manifold_addContact_spec w1 m1 x y d)
      as (w2 & m2 & c & Hadd & _ & _ & _ & _ & _ & _ & _ & (Hlo2 & Hhi2 & _)
          & (_ & Hh2 & Hp2 & _) & _).
    rewrite Hadd, bind_Ok.
    eexists _, _. split; [reflexivity|].
    eapply (Table_consistent_rewrite w (setManifold w2 r m2) t index r m m2); eauto.
    + eapply Manifold_addContact_wf; eauto.
    + congruence.
    + congruence.
    + cbn. congruence.
    + cbn. congruence.
  - destruct (ContactManifoldTable_addManifold_consistent w t lowID highID x y Hcons Hlookup)
      as (w1 & t1 & r & i & m0 & Hadd & Hslot & Hheap & Hcons1 & _).
    rewrite Hadd. rewrite (getManifold_lookup w1 r _ Hheap).
    destruct (Manifold_addContact_spec w1 (Manifold_reset m0 lowID highID x y) x y d)
      as (w2 & m2 & c & Hadd2 & _ & _ & _ & _ & _ & _ & _ & (Hlo2 & Hhi2 & _)
          & (_ & Hh2 & Hp2 & _) & _).
    rewrite Hadd2, bind_Ok.
    eexists _, _. split; [reflexivity|].
    apply (Table_consistent_store (setManifold w2 r m2)); [reflexivity | reflexivity |].
    eapply (Table_consistent_rewrite w1 (setManifold w2 r m2) t1 i r _ m2); eauto.
    + eapply Manifold_addContact_wf; [apply Manifold_reset_wf | exact Hadd2].
    + cbn. congruence.
Qed.

(** One iteration of [update] runs through on a consistent table and keeps
    it consistent. *)
Lemma ContactManifoldTable_update_step_consistent `{MathLib} (dt : Q) (i : nat)
    (s : World * ContactManifoldTable.t) :
  Table_consistent s.1 s.2 ->
  exists s', ContactManifoldTable_update_step dt i s = Ok s' /\ Table_consistent s'.1 s'.2.
Proof.
  destruct s as [w t]. cbn [fst snd]. intro Hcons.
  destruct (array_get (ContactManifoldTable.manifolds t) i) as [r|] eqn:Hslot.
  2:{ exists (w, t). unfold ContactManifoldTable_update_step. rewrite Hslot. now split. }
  pose proof Hcons as (Hslots & Hmatrix & (Hfree_nd & Hfree) & Hdistinct & (Hpool_nd & Hpool)).
  destruct (Hslots i r Hslot) as (m & Hheap & Hwf & Hkey).
  destruct (matrix_lookup_row _ _ _ _ Hkey) as [row Hrow].
  destruct (Manifold_update_spec w m dt Hwf) as (w1 & m1 & Hupd & Hwf1 & _ & Hid & Hview).
  destruct (negb (Manifold.numContacts m1 =? 0)%Z) eqn:Hpersists.
  - exists (setManifold w1 r m1, t).
    split; [eapply ContactManifoldTable_update_step_kept; eauto|]. cbn [fst snd].
    destruct Hid as (Hlo & Hhi & _). destruct Hview as (_ & Hh & Hp & _).
    eapply (Table_consistent_rewrite w (setManifold w1 r m1) t i r m m1); eauto.
    cbn. congruence.
  - destruct (ContactManifoldTable_update_step_removed w t dt i r m row w1 m1)
      as (w' & Hstep & _ & Hh' & Hp' & _); auto.
    eexists. split; [exact Hstep|].
    unfold Table_consistent.
    cbn [fst snd ContactManifoldTable.manifolds ContactManifoldTable.collisionMatrix
         ContactManifoldTable._IDPool].
    rewrite Hh', Hp'.
    assert (Hlook : forall lo hi,
              matrix_lookup
                (<[Manifold.lowID m := <[Manifold.highID m := None]> row]>
                   (ContactManifoldTable.collisionMatrix t)) lo hi
              = if decide ((lo, hi) = (Manifold.lowID m, Manifold.highID m)) then None
                else matrix_lookup (ContactManifoldTable.collisionMatrix t) lo hi).
    { intros lo hi. case_decide as Hk.
      - injection Hk as -> ->. apply matrix_lookup_insert.
      - pose proof (matrix_lookup_insert_other (ContactManifoldTable.collisionMatrix t)
                      (Manifold.lowID m) (Manifold.highID m) None lo hi Hk) as Hother.
        now rewrite Hrow in Hother. }
    assert (Hother : forall j r', array_get (ContactManifoldTable.manifolds t) j = Some r' ->
              j <> i -> r' <> r).
    { intros j r' Hj Hne ->. apply Hne. eauto. }
    split; [|split; [|split; [|split]]].
    + intros j r' Hj.
      assert (i <> j) by (intros ->; rewrite array_get_set_eq in Hj; discriminate).
      rewrite array_get_set_ne in Hj by auto.
      destruct (Hslots j r' Hj) as (mj & Hmj & Hwfj & Hkeyj).
      exists mj. rewrite lookup_insert_ne by (apply not_eq_sym; eauto).
      split; [exact Hmj|]. split; [exact Hwfj|].
      rewrite Hlook, decide_False; [exact Hkeyj|].
      intro Heq. injection Heq as Hlo Hhi. rewrite Hlo, Hhi in Hkeyj. congruence.
    + intros lo hi j Hj. rewrite Hlook in Hj. case_decide as Hk; [discriminate|].
      destruct (Hmatrix lo hi j Hj) as (r' & mj & Hslotj & Hmj & Hloj & Hhij).
      assert (i <> j).
      { intros <-. apply Hk. assert (r' = r) as -> by congruence.
        assert (mj = m) as -> by congruence. congruence. }
      exists r', mj. rewrite array_get_set_ne by auto.
      rewrite lookup_insert_ne by (apply not_eq_sym; eauto). auto.
    + split.
      * apply NoDup_snoc_intro; [exact Hfree_nd|]. intro Hin. apply Hfree in Hin. congruence.
      * intros j Hj. apply in_app_or in Hj as [Hj|[<-|[]]].
        -- destruct (decide (i = j)) as [<-|Hne]; [apply array_get_set_eq|].
           rewrite array_get_set_ne by auto. now apply Hfree.
        -- apply array_get_set_eq.
    + intros i1 i2 r' H1 H2.
      assert (i <> i1) by (intros ->; rewrite array_get_set_eq in H1; discriminate).
      assert (i <> i2) by (intros ->; rewrite array_get_set_eq in H2; discriminate).
      rewrite array_get_set_ne in H1, H2 by auto. eauto.
    + split.
      * apply NoDup_snoc_intro; [exact Hpool_nd|]. intro Hin.
        destruct (Hpool r Hin) as [_ Hnot]. now apply (Hnot i).
      * intros r' Hr'.
        assert (Hnot : forall j,
                  array_get (array_set (ContactManifoldTable.manifolds t) i None) j
                  <> Some r').
        { intros j Hj.
          assert (i <> j) by (intros ->; rewrite array_get_set_eq in Hj; discriminate).
          rewrite array_get_set_ne in Hj by auto.
          apply in_app_or in Hr' as [Hr'|[<-|[]]].
          - destruct (Hpool r' Hr') as [_ Hn]. now apply (Hn j).
          - apply (Hother j r Hj); auto. }
        split; [|exact Hnot].
        apply lookup_insert_is_Some'.
        apply in_app_or in Hr' as [Hr'|[<-|[]]]; [right | now left].
        now destruct (Hpool r' Hr').
Qed.

Lemma ContactManifoldTable_update_consistent `{MathLib} (w : World)
    (t : ContactManifoldTable.t) (dt : Q) :
  Table_consistent w t ->
  exists w' t', ContactManifoldTable_update w t dt = Ok (w', t') /\ Table_consistent w' t'.
Proof.
  intro Hcons.
  destruct (for_loop_invariant (fun _ s => Table_consistent s.1 s.2)
              (ContactManifoldTable_update_step dt)) with
    (count := length (ContactManifoldTable.manifolds t)) (from := 0%nat) (s := (w, t))
    as ([w' t'] & Hrun & Hcons').
  - intros i s. apply ContactManifoldTable_update_step_consistent.
  - exact Hcons.
  - exists w', t'. now split.
Qed.

(** Every state of the table is consistent. *)
Lemma Table_reachable_consistent `{MathLib} (w : World) (t : ContactManifoldTable.t) :
  Table_reachable w t -> Table_consistent w t.
Proof.
  induction 1 as [w Hnd Hpool
                 | w t a b d w' t' _ IH Hcall
                 | w t dt w' t' _ IH Hcall
                 | w t dt w' _ IH Hcall
                 | w t w' _ IH Hcall
                 | w t w' _ IH Hh Hp].
  - unfold Table_consistent, ContactManifoldTable_new, matrix_lookup, array_get. cbn.
    split; [intros i r Hi; rewrite lookup_nil in Hi; discriminate|].
    split; [intros lo hi i Hi; rewrite lookup_empty in Hi; discriminate|].
    split; [split; [constructor | intros i []]|].
    split; [intros i j r Hi; rewrite lookup_nil in Hi; discriminate|].
    split; [exact Hnd|]. intros r Hr. split; [now apply Hpool|].
    intros i Hi. rewrite lookup_nil in Hi. discriminate.
  - destruct (ContactManifoldTable_registerContact_consistent w t a b d IH)
      as (w1 & t1 & Hrun & Hcons). congruence.
  - destruct (ContactManifoldTable_update_consistent w t dt IH) as (w1 & t1 & Hrun & Hcons).
    congruence.
  - destruct (ContactManifoldTable_prepContacts_consistent w t dt IH) as (w1 & Hrun & Hcons).
    congruence.
  - destruct (ContactManifoldTable_resolveManifolds_consistent w t IH) as (w1 & Hrun & Hcons).
    congruence.
  - now apply (Table_consistent_store w w').
Qed.

(** X13.  In every state of the table and its store, every live slot holds
    a well-formed manifold that the matrix finds under the manifold's own
    pair of identifiers, and every entry of the matrix leads to such a slot;
    so a pair of bodies has at most one manifold.  The indices on the free
    list are indices of empty slots, and a manifold in the pool is in no
    slot. *)
Theorem Table_always_consistent `{MathLib} (w : World) (t : ContactManifoldTable.t)
    (Hreach : Table_reachable w t) :
  Table_consistent w t /\
  (forall i j r r' m m',
     array_get (ContactManifoldTable.manifolds t) i = Some r -> heap w !! r = Some m ->
     array_get (ContactManifoldTable.manifolds t) j = Some r' -> heap w !! r' = Some m' ->
     Manifold.lowID m = Manifold.lowID m' -> Manifold.highID m = Manifold.highID m' ->
     i = j /\ r = r') /\
  Table_inv w t /\ Matrix_inv t.
Proof.
  pose proof (Table_reachable_consistent w t Hreach) as Hcons.
  split; [exact Hcons|].
  destruct Hcons as (Hslots & Hmatrix & _).
  split; [|split].
  - intros i j r r' m m' Hi Hm Hj Hm' Hlo Hhi.
    destruct (Hslots i r Hi) as (m0 & Hm0 & _ & Hkey).
    destruct (Hslots j r' Hj) as (m1 & Hm1 & _ & Hkey').
    assert (m0 = m) as -> by congruence. assert (m1 = m') as -> by congruence.
    rewrite Hlo, Hhi in Hkey. assert (i = j) as -> by congruence.
    split; [reflexivity | congruence].
  - intros i r Hi. destruct (Hslots i r Hi) as (m & Hm & Hwf & Hkey).
    exists m. split; [exact Hm|]. split; [exact Hwf|].
    destruct (matrix_lookup_row _ _ _ _ Hkey) as [row Hrow]. eauto.
  - intros lo hi i Hi. destruct (Hmatrix lo hi i Hi) as (r & m & Hslot & _). eauto.
Qed.

(** X14.  On a state of the table no method of the table throws:
    [registerContact], [update], [prepContacts] and [resolveManifolds] all
    return. *)
Theorem Table_methods_return `{MathLib} (w : World) (t : ContactManifoldTable.t)
    (Hreach : Table_reachable w t) :
  (forall bodyA bodyB collisionData, exists w' t',
     ContactManifoldTable_registerContact w t bodyA bodyB collisionData = Ok (w', t')) /\
  (forall dt, exists w' t', ContactManifoldTable_update w t dt = Ok (w', t')) /\
  (forall dt, exists w', ContactManifoldTable_prepContacts w t dt = Ok w') /\
  (exists w', ContactManifoldTable_resolveManifolds w t = Ok w').
Proof.
  pose proof (Table_reachable_consistent w t Hreach) as Hcons.
  split; [|split; [|split]].
  - intros a b d.
    destruct (ContactManifoldTable_registerContact_consistent w t a b d Hcons)
      as (w' & t' & Hrun & _). eauto.
  - intro dt. destruct (ContactManifoldTable_update_consistent w t dt Hcons)
      as (w' & t' & Hrun & _). eauto.
  - intro dt. destruct (ContactManifoldTable_prepContacts_consistent w t dt Hcons)
      as (w' & Hrun & _). eauto.
  - destruct (ContactManifoldTable_resolveManifolds_consistent w t Hcons) as (w' & Hrun & _).
    eauto.
Qed.

Lemma Sample_registered :
  exists w' t',
    @ContactManifoldTable_registerContact exactMath Sample.world ContactManifoldTable_new
      0%nat 1%nat Sample.data = Ok (w', t') /\
    @Table_reachable exactMath w' t'.
Proof.
  destruct (@ContactManifoldTable_registerContact_consistent exactMath Sample.world
              ContactManifoldTable_new 0%nat 1%nat Sample.data) as (w' & t' & Hrun & _).
  - apply (@Table_reachable_consistent exactMath).
    apply table_new; [constructor | intros r []].
  - exists w', t'. split; [exact Hrun|].
    eapply table_registerContact; [|exact Hrun].
    apply table_new; [constructor | intros r []].
Qed.

Lemma Table_always_consistent_witness :
  exists w' t',
    @ContactManifoldTable_registerContact exactMath Sample.world ContactManifoldTable_new
      0%nat 1%nat Sample.data = Ok (w', t') /\
    Table_consistent w' t' /\ Table_inv w' t' /\ Matrix_inv t'.
Proof.
  destruct Sample_registered as (w' & t' & Hrun & Hreach).
  exists w', t'. split; [exact Hrun|].
  destruct (@Table_always_consistent exactMath w' t' Hreach) as (Hcons & _ & Hinv & Hmatrix).
  now split.
Defined.

Lemma Table_methods_return_witness :
  exists w1 t1 w2 t2,
    @ContactManifoldTable_registerContact exactMath Sample.world ContactManifoldTable_new
      0%nat 1%nat Sample.data = Ok (w1, t1) /\
    @ContactManifoldTable_update exactMath w1 t1 (1 # 60) = Ok (w2, t2).
Proof.
  destruct Sample_registered as (w1 & t1 & Hrun & Hreach).
  destruct (@Table_methods_return exactMath w1 t1 Hreach) as (_ & Hupdate & _).
  destruct (Hupdate (1 # 60)) as (w2 & t2 & Hrun2).
  exists w1, t1, w2, t2. now split.
Defined.

(** X15.  The slot and the object that [removeManifold] frees are the ones
    that the next [addManifold] uses: free list and pool are stacks. *)
Theorem ContactManifoldTable_remove_then_add (w : World) (t : ContactManifoldTable.t)
    (manifold : ManifoldRef) (index : nat) (w1 : World) (t1 : ContactManifoldTable.t)
    (lowID highID : Z) (a b : BodyRef)
    (Hremove : ContactManifoldTable_removeManifold w t manifold index = Ok (w1, t1)) :
  exists w2 t2,
    ContactManifoldTable_addManifold w1 t1 lowID highID a b = (w2, t2, manifold) /\
    array_get (ContactManifoldTable.manifolds t2) index = Some manifold /\
    matrix_lookup (ContactManifoldTable.collisionMatrix t2) lowID highID = Some index /\
    ContactManifoldTable._IDPool t2 = ContactManifoldTable._IDPool t /\
    poolManifold w2 = poolManifold w /\
    getManifold w2 manifold = Manifold.mk lowID highID [] 0 a b 0.
Proof.
  unfold ContactManifoldTable_removeManifold in Hremove. cbv zeta in Hremove.
  destruct (ContactManifoldTable.collisionMatrix t
              !! Manifold.lowID (getManifold w manifold)) as [row|]; [|discriminate].
  injection Hremove as <- <-.
  unfold ContactManifoldTable_addManifold. cbv zeta.
  cbn [ContactManifoldTable._IDPool ContactManifoldTable.manifolds
       ContactManifoldTable.collisionMatrix].
  rewrite array_pop_push.
  unfold OMRequestManifold, OMFreeManifold. cbn [poolManifold]. rewrite array_pop_push.
  eexists _, _. split; [reflexivity|].
  cbn [ContactManifoldTable._IDPool ContactManifoldTable.manifolds
       ContactManifoldTable.collisionMatrix].
  split; [apply array_get_set_eq|]. split; [apply matrix_lookup_insert|].
  split; [reflexivity|]. split; [reflexivity|].
  rewrite getManifold_setManifold, decide_True by reflexivity. reflexivity.
Qed.

Lemma ContactManifoldTable_remove_then_add_witness :
  exists w1 t1 w2 t2,
    ContactManifoldTable_removeManifold Sample.store Sample.table 0%nat 0%nat = Ok (w1, t1) /\
    ContactManifoldTable_addManifold w1 t1 3 4 0%nat 1%nat = (w2, t2, 0%nat) /\
    array_get (ContactManifoldTable.manifolds t2) 0 = Some 0%nat.
Proof.
  eexists _, _.
  destruct (ContactManifoldTable_remove_then_add Sample.store Sample.table 0%nat 0%nat
              _ _ 3 4 0%nat 1%nat eq_refl) as (w2 & t2 & Hadd & Hslot & _).
  exists w2, t2. split; [reflexivity|]. now split.
Defined.

(** The contact that [addContact] stores carries the collision data and the
    two bodies of the call. *)
Lemma Manifold_addContact_stored `{MathLib} (w : World) (m : Manifold.t) (a b : BodyRef)
    (d : CollisionData.t) (w' : World) (m' : Manifold.t) :
  Manifold_addContact w m a b d = Ok (w', m') ->
  exists c, array_get (Manifold.contacts m') (Manifold.lru m) = Some c /\
            Contact.data c = Some d /\ Contact.bodyA c = a /\ Contact.bodyB c = b.
Proof.
  unfold Manifold_addContact. cbv zeta.
  destruct (match array_get (Manifold.contacts m) (Manifold.lru m) with
            | Some old => Manifold_removeContact w m old (Manifold.lru m)
            | None => (w, m)
            end) as [w0 m0] eqn:Hevict.
  destruct (OMRequestContact w0) as [w1 pooled].
  destruct (Contact_reset_ok w1 pooled a b d) as (c & Hc & Hd & Ha & Hb & _).
  rewrite Hc, bind_Ok. intro Hrun. injection Hrun as <- <-.
  exists c. cbn [Manifold.contacts Manifold_set_contacts Manifold_set_lru
                 Manifold_set_numContacts].
  split; [apply array_get_set_eq | auto].
Qed.

(** X16.  After [registerContact(bodyA, bodyB, data)] the matrix has a slot
    for the pair, and the manifold of that slot holds a contact with that
    data whose bodies are the two bodies in the order of this call. *)
Theorem registerContact_stores_contact `{MathLib} (w : World) (t : ContactManifoldTable.t)
    (bodyA bodyB : BodyRef) (collisionData : CollisionData.t)
    (Hcons : Table_consistent w t) :
  exists w' t' i r m j c,
    ContactManifoldTable_registerContact w t bodyA bodyB collisionData = Ok (w', t') /\
    matrix_lookup (ContactManifoldTable.collisionMatrix t')
      (pairKey w bodyA bodyB).1 (pairKey w bodyA bodyB).2 = Some i /\
    array_get (ContactManifoldTable.manifolds t') i = Some r /\
    heap w' !! r = Some m /\
    array_get (Manifold.contacts m) j = Some c /\
    Contact.data c = Some collisionData /\
    Contact.bodyA c = bodyA /\ Contact.bodyB c = bodyB.
Proof.
  unfold ContactManifoldTable_registerContact.
  destruct (pairKey w bodyA bodyB) as [lowID highID]. cbn [fst snd].
  destruct (matrix_lookup (ContactManifoldTable.collisionMatrix t) lowID highID)
    as [index|] eqn:Hlookup.
  - pose proof Hcons as (Hslots & Hmatrix & _).
    destruct (Hmatrix lowID highID index Hlookup) as (r & m & Hslot & Hheap & _).
    destruct (Hslots index r Hslot) as (m0 & Hheap0 & Hwf & _).
    assert (m0 = m) as -> by congruence.
    rewrite Hslot, (getManifold_lookup w r m Hheap).
    destruct (Manifold_contains_loop_wf (CollisionData.worldContactA collisionData)
                (CollisionData.worldContactB collisionData)
                (length (Manifold.contacts m)) 0 w m Hwf)
      as (w1 & m1 & found & Hc & _).
    unfold Manifold_contains. rewrite Hc, bind_Ok.
    destruct (Manifold_addContact_spec w1 m1 bodyA bodyB collisionData)
      as (w2 & m2 & c0 & Hadd & _).
    destruct (Manifold_addContact_stored _ _ _ _ _ _ _ Hadd) as (c & Hget & Hd & Ha & Hb).
    rewrite Hadd, bind_Ok.
    exists (setManifold w2 r m2), t, index, r, m2, (Manifold.lru m1), c.
    split; [reflexivity|]. split; [exact Hlookup|]. split; [exact Hslot|].
    split; [cbn; apply lookup_insert_eq|]. auto.
  - destruct (ContactManifoldTable_addManifold_consistent w t lowID highID bodyA bodyB
                Hcons Hlookup)
      as (w1 & t1 & r & i & m0 & Hadd & Hslot & Hheap & Hcons1 & _).
    rewrite Hadd. rewrite (getManifold_lookup w1 r _ Hheap).
    destruct (Manifold_addContact_spec w1 (Manifold_reset m0 lowID highID bodyA bodyB)
                bodyA bodyB collisionData) as (w2 & m2 & c0 & Hadd2 & _).
    destruct (Manifold_addContact_stored _ _ _ _ _ _ _ Hadd2) as (c & Hget & Hd & Ha & Hb).
    rewrite Hadd2, bind_Ok.
    destruct Hcons1 as (Hslots1 & _).
    destruct (Hslots1 i r Hslot) as (m1 & Hheap1 & _ & Hkey).
    assert (m1 = Manifold_reset m0 lowID highID bodyA bodyB) as -> by congruence.
    eexists _, t1, i, r, m2, _, c.
    split; [reflexivity|]. split; [exact Hkey|]. split; [exact Hslot|].
    split; [cbn; apply lookup_insert_eq|]. eauto.
Qed.

Lemma registerContact_stores_contact_witness :
  exists w1 t1 w' t' i r m j c,
    @ContactManifoldTable_registerContact exactMath Sample.world ContactManifoldTable_new
      0%nat 1%nat Sample.data = Ok (w1, t1) /\
    @ContactManifoldTable_registerContact exactMath w1 t1 1%nat 0%nat (Sample.dataOf 3)
    = Ok (w', t') /\
    matrix_lookup (ContactManifoldTable.collisionMatrix t')
      (pairKey w1 1%nat 0%nat).1 (pairKey w1 1%nat 0%nat).2 = Some i /\
    array_get (ContactManifoldTable.manifolds t') i = Some r /\
    heap w' !! r = Some m /\
    array_get (Manifold.contacts m) j = Some c /\
    Contact.data c = Some (Sample.dataOf 3) /\
    Contact.bodyA c = 1%nat /\ Contact.bodyB c = 0%nat.
Proof.
  destruct Sample_registered as (w1 & t1 & Hrun & Hreach).
  destruct (@registerContact_stores_contact exactMath w1 t1 1%nat 0%nat (Sample.dataOf 3)
              (@Table_reachable_consistent exactMath w1 t1 Hreach))
    as (w' & t' & i & r & m & j & c & Hrest).
  exists w1, t1, w', t', i, r, m, j, c. now split.
Defined.

(** X17.  [update] of the table leaves no empty manifold behind: it fills no
    slot and does not change the length of the array, and every manifold
    that is still in a slot afterwards holds at least one live contact. *)
Theorem ContactManifoldTable_update_prunes `{MathLib} (w : World)
    (t : ContactManifoldTable.t) (dt : Q) (Hcons : Table_consistent w t) :
  exists w' t',
    ContactManifoldTable_update w t dt = Ok (w', t') /\
    length (ContactManifoldTable.manifolds t') = length (ContactManifoldTable.manifolds t) /\
    (forall j r, array_get (ContactManifoldTable.manifolds t') j = Some r ->
       array_get (ContactManifoldTable.manifolds t) j = Some r /\
       exists m, heap w' !! r = Some m /\ (0 < live (Manifold.contacts m))%nat).
Proof.
  pose (I := fun (i : nat) (s : World * ContactManifoldTable.t) =>
    Table_consistent s.1 s.2 /\
    length (ContactManifoldTable.manifolds s.2) = length (ContactManifoldTable.manifolds t) /\
    (forall j r, array_get (ContactManifoldTable.manifolds s.2) j = Some r ->
       array_get (ContactManifoldTable.manifolds t) j = Some r) /\
    (forall j r, (j < i)%nat -> array_get (ContactManifoldTable.manifolds s.2) j = Some r ->
       exists m, heap s.1 !! r = Some m /\ Manifold.numContacts m <> 0%Z)).
  destruct (for_loop_invariant I (ContactManifoldTable_update_step dt)) with
    (count := length (ContactManifoldTable.manifolds t)) (from := 0%nat) (s := (w, t))
    as ([w' t'] & Hrun & Hcons' & Hlen & Hsub & Hfull).
  - intros i [w1 t1] (Hc1 & Hlen1 & Hsub1 & Hfull1). cbn [fst snd] in *.
    destruct (ContactManifoldTable_update_step_consistent dt i (w1, t1) Hc1)
      as (s' & Hstep & Hcs').
    exists s'. split; [exact Hstep|]. unfold I. split; [exact Hcs'|].
    destruct (array_get (ContactManifoldTable.manifolds t1) i) as [r|] eqn:Hslot.
    2:{ unfold ContactManifoldTable_update_step in Hstep. rewrite Hslot in Hstep.
        injection Hstep as <-. cbn [fst snd]. split; [exact Hlen1|]. split; [exact Hsub1|].
        intros j r Hj Hr. destruct (decide (j = i)) as [->|Hne]; [congruence|].
        apply (Hfull1 j); [lia | exact Hr]. }
    pose proof Hc1 as (Hslots & _ & _ & Hdistinct & _).
    destruct (Hslots i r Hslot) as (m & Hheap & Hwf & Hkey).
    destruct (matrix_lookup_row _ _ _ _ Hkey) as [row Hrow].
    destruct (Manifold_update_spec w1 m dt Hwf) as (w2 & m2 & Hupd & Hwf2 & _ & Hid & Hview).
    destruct (negb (Manifold.numContacts m2 =? 0)%Z) eqn:Hpersists.
    + rewrite (ContactManifoldTable_update_step_kept w1 t1 dt i r m w2 m2 Hslot Hheap Hupd)
        in Hstep.
      injection Hstep as <-. cbn [fst snd].
      split; [exact Hlen1|]. split; [exact Hsub1|].
      intros j r' Hj Hr'. cbn [heap setManifold].
      destruct (decide (r = r')) as [<-|Hne].
      * exists m2. rewrite lookup_insert_eq. split; [reflexivity|].
        apply negb_true_iff, Z.eqb_neq in Hpersists. exact Hpersists.
      * rewrite lookup_insert_ne by auto. destruct Hview as (_ & -> & _).
        apply (Hfull1 j); [|exact Hr'].
        destruct (decide (j = i)) as [->|]; [congruence | lia].
    + destruct (ContactManifoldTable_update_step_removed w1 t1 dt i r m row w2 m2)
        as (w3 & Hstep3 & _ & Hh3 & _); auto.
      rewrite Hstep3 in Hstep. injection Hstep as <-.
      cbn [fst snd ContactManifoldTable.manifolds].
      pose proof (array_get_lt _ _ _ Hslot) as Hi.
      split; [rewrite array_set_length; lia|].
      split.
      * intros j r' Hj.
        assert (i <> j) by (intros ->; rewrite array_get_set_eq in Hj; discriminate).
        rewrite array_get_set_ne in Hj by auto. auto.
      * intros j r' Hj Hr'.
        assert (i <> j) by (intros ->; rewrite array_get_set_eq in Hr'; discriminate).
        rewrite array_get_set_ne in Hr' by auto.
        assert (r <> r') by (intros ->; eauto).
        rewrite Hh3, lookup_insert_ne by auto. apply (Hfull1 j); [lia | exact Hr'].
  - unfold I. cbn [fst snd]. split; [exact Hcons|]. split; [reflexivity|].
    split; [auto|]. intros j r Hj. lia.
  - cbn [fst snd] in *. exists w', t'.
    split; [exact Hrun|]. split; [exact Hlen|].
    intros j r Hj. split; [now apply Hsub|].
    destruct (Hfull j r) as (m & Hm & Hnum); [|exact Hj|].
    { apply array_get_lt in Hj. lia. }
    exists m. split; [exact Hm|].
    destruct Hcons' as (Hslots' & _). destruct (Hslots' j r Hj) as (m0 & Hm0 & Hwf0 & _).
    assert (m0 = m) as -> by congruence.
    destruct Hwf0 as (_ & _ & Hcount & _). lia.
Qed.

Lemma ContactManifoldTable_update_prunes_witness :
  exists w1 t1 w' t',
    @ContactManifoldTable_registerContact exactMath Sample.world ContactManifoldTable_new
      0%nat 1%nat Sample.data = Ok (w1, t1) /\
    @ContactManifoldTable_update exactMath w1 t1 (1 # 60) = Ok (w', t') /\
    length (ContactManifoldTable.manifolds t') = length (ContactManifoldTable.manifolds t1).
Proof.
  destruct Sample_registered as (w1 & t1 & Hrun & Hreach).
  destruct (@ContactManifoldTable_update_prunes exactMath w1 t1 (1 # 60)
              (@Table_reachable_consistent exactMath w1 t1 Hreach))
    as (w' & t' & Hrun' & Hlen & _).
  exists w1, t1, w', t'. now split.
Defined.

(** ** The loops over the contacts of a manifold *)

Lemma live_take_S {A} (a : list (option A)) (i : nat) :
  live (take (S i) a) = (live (take i a) + occupied (array_get a i))%nat.
Proof.
  unfold array_get. destruct (a !! i) as [o|] eqn:Hi.
  - rewrite (take_S_r a i o Hi), live_app. cbn. destruct o; unfold live; cbn; lia.
  - apply lookup_ge_None in Hi. rewrite !take_ge by lia. cbn. lia.
Qed.

(** A loop that calls a method on every live contact, where the method keeps
    the collision data, makes four body calls and establishes [Q]. *)
Lemma each_contact_loop_post (method : World -> Contact.t -> result (World * Contact.t))
    (Q : Contact.t -> Prop) :
  (forall w c d, Contact.data c = Some d ->
     exists w' c' e1 e2 e3 e4,
       method w c = Ok (w', c') /\ Contact.data c' = Some d /\ Q c' /\
       log w' = log w ++ [e1; e2; e3; e4] /\
       is_body_call e1 /\ is_body_call e2 /\ is_body_call e3 /\ is_body_call e4) ->
  forall w m, Manifold_wf m ->
    exists w' m' events,
      for_loop (each_contact_step method) 0 (length (Manifold.contacts m)) (w, m)
      = Ok (w', m') /\
      (forall j, slotData m' j = slotData m j) /\
      (forall j c, array_get (Manifold.contacts m') j = Some c -> Q c) /\
      Manifold.numContacts m' = Manifold.numContacts m /\
      Manifold.lru m' = Manifold.lru m /\
      log w' = log w ++ events /\
      length events = (4 * live (Manifold.contacts m))%nat /\
      Forall is_body_call events.
Proof.
  intros Hmethod w m Hwf.
  pose (P := fun (i : nat) (s : World * Manifold.t) =>
    Manifold_wf s.2 /\
    length (Manifold.contacts s.2) = length (Manifold.contacts m) /\
    Manifold.numContacts s.2 = Manifold.numContacts m /\
    Manifold.lru s.2 = Manifold.lru m /\
    (forall j, slotData s.2 j = slotData m j) /\
    (forall j, (i <= j)%nat ->
       array_get (Manifold.contacts s.2) j = array_get (Manifold.contacts m) j) /\
    (forall j c, (j < i)%nat -> array_get (Manifold.contacts s.2) j = Some c -> Q c) /\
    exists events, log s.1 = log w ++ events /\ Forall is_body_call events /\
                   length events = (4 * live (take i (Manifold.contacts m)))%nat).
  destruct (for_loop_invariant P (each_contact_step method)) with
    (count := length (Manifold.contacts m)) (from := 0%nat) (s := (w, m))
    as ([w' m'] & Hrun & _ & Hlen & Hnum & Hlru & Hdata & _ & HQ & events & Hlog & Hbody & Hcount).
  - intros i [w1 m1] (Hwf1 & Hlen1 & Hnum1 & Hlru1 & Hdata1 & Hrest1 & HQ1
                      & events & Hlog1 & Hbody1 & Hcount1).
    cbn [fst snd] in *. unfold P, each_contact_step.
    pose proof (Hrest1 i ltac:(lia)) as Hi.
    destruct (array_get (Manifold.contacts m1) i) as [c|] eqn:Hget.
    + pose proof Hwf1 as (_ & _ & _ & Hhas).
      destruct (Hhas i c Hget) as [d Hd].
      destruct (Hmethod w1 c d Hd)
        as (w2 & c2 & e1 & e2 & e3 & e4 & Hm & Hd2 & Hq & Hlog2 & Hb1 & Hb2 & Hb3 & Hb4).
      rewrite Hm, bind_Ok. eexists. split; [reflexivity|].
      cbn [fst snd Manifold.contacts Manifold_set_contacts Manifold.numContacts Manifold.lru].
      split; [eapply Manifold_replace_wf; eauto|].
      split; [rewrite array_set_length; apply array_get_lt in Hget; lia|].
      split; [exact Hnum1|]. split; [exact Hlru1|].
      split.
      { intro j. rewrite <- Hdata1. unfold slotData.
        cbn [Manifold.contacts Manifold_set_contacts].
        destruct (decide (i = j)) as [<-|Hne].
        - rewrite array_get_set_eq, Hget. cbn. congruence.
        - now rewrite array_get_set_ne. }
      split; [intros j Hj; rewrite array_get_set_ne by lia; apply Hrest1; lia|].
      split.
      { intros j c' Hj Hc'. destruct (decide (i = j)) as [<-|Hne].
        - rewrite array_get_set_eq in Hc'. now injection Hc' as <-.
        - rewrite array_get_set_ne in Hc' by auto. apply (HQ1 j); [lia | exact Hc']. }
      exists (events ++ [e1; e2; e3; e4]).
      split; [rewrite Hlog2, Hlog1, <- app_assoc; reflexivity|].
      split; [apply Forall_app; split; [exact Hbody1 | repeat constructor; assumption]|].
      rewrite length_app, Hcount1, live_take_S, <- Hi. cbn. lia.
    + eexists. split; [reflexivity|]. cbn [fst snd].
      split; [exact Hwf1|]. split; [exact Hlen1|]. split; [exact Hnum1|].
      split; [exact Hlru1|]. split; [exact Hdata1|].
      split; [intros j Hj; apply Hrest1; lia|].
      split.
      { intros j c' Hj Hc'. destruct (decide (i = j)) as [<-|Hne]; [congruence|].
        apply (HQ1 j); [lia | exact Hc']. }
      exists events. split; [exact Hlog1|]. split; [exact Hbody1|].
      rewrite Hcount1, live_take_S, <- Hi. cbn. lia.
  - unfold P. cbn [fst snd]. split; [exact Hwf|].
    split; [reflexivity|]. split; [reflexivity|]. split; [reflexivity|].
    split; [reflexivity|]. split; [reflexivity|]. split; [intros; lia|].
    exists []. split; [now rewrite app_nil_r|]. split; [constructor|]. reflexivity.
  - cbn [fst snd] in *. exists w', m', events.
    split; [exact Hrun|]. split; [exact Hdata|].
    split.
    { intros j c Hj. apply (HQ j c); [|exact Hj].
      apply array_get_lt in Hj. lia. }
    split; [exact Hnum|]. split; [exact Hlru|]. split; [exact Hlog|].
    split; [|exact Hbody]. rewrite Hcount, take_ge by lia. reflexivity.
Qed.

(** X18.  The prep phase on a manifold: [update] is called on every live
    contact and on nothing else, four body calls each and no event; the
    slots keep their collision data, counter and cursor stay, and afterwards
    every live contact has its six accumulators at zero. *)
Theorem Manifold_prepContacts_clears (w : World) (m : Manifold.t) (dt : Q)
    (Hwf : Manifold_wf m) :
  exists w' m' events,
    Manifold_prepContacts w m dt = Ok (w', m') /\
    (forall j, slotData m' j = slotData m j) /\
    (forall j c, array_get (Manifold.contacts m') j = Some c -> Contact_cleared c) /\
    Manifold.numContacts m' = Manifold.numContacts m /\
    Manifold.lru m' = Manifold.lru m /\
    log w' = log w ++ events /\
    length events = (4 * live (Manifold.contacts m))%nat /\
    Forall is_body_call events.
Proof.
  apply (each_contact_loop_post (fun w c => Contact_update w c dt) Contact_cleared);
    [|exact Hwf].
  intros w0 c d Hd.
  destruct (Contact_update_shape w0 c d dt Hd) as (w1 & c1 & bias & Hrun & Hlog & Hframe).
  eexists w1, c1, _, _, _, _. split; [exact Hrun|].
  split; [rewrite Hframe; exact Hd|].
  split; [rewrite Hframe; repeat split|].
  split; [exact Hlog|]. cbn. tauto.
Qed.

Lemma Manifold_prepContacts_clears_witness :
  exists w' m' events,
    Manifold_prepContacts Sample.world Sample.manifold (1 # 60) = Ok (w', m') /\
    (forall j c, array_get (Manifold.contacts m') j = Some c -> Contact_cleared c) /\
    log w' = log Sample.world ++ events /\
    length events = 4%nat.
Proof.
  destruct (Manifold_prepContacts_clears Sample.world Sample.manifold (1 # 60)
              Sample_manifold_wf)
    as (w' & m' & events & Hrun & _ & Hclear & _ & _ & Hlog & Hcount & _).
  exists w', m', events.
  split; [exact Hrun|]. split; [exact Hclear|]. split; [exact Hlog | exact Hcount].
Defined.

Lemma Contact_resolve_four (w : World) (c : Contact.t) (d : CollisionData.t) :
  Contact.data c = Some d ->
  exists w' c' e1 e2 e3 e4,
    Contact_resolve w c = Ok (w', c') /\ Contact.data c' = Some d /\
    0 <= Contact.normalImpulse c' /\
    log w' = log w ++ [e1; e2; e3; e4] /\
    is_body_call e1 /\ is_body_call e2 /\ is_body_call e3 /\ is_body_call e4.
Proof.
  intro Hd. unfold Contact_resolve. rewrite Hd. cbv zeta.
  eexists _, _, _, _, _, _. split; [reflexivity|].
  split; [exact Hd|].
  split; [apply Math_max_nonneg|].
  split.
  { rewrite !log_applyAngularImpulse, !log_applyImpulse, !log_applyAngularImpulse,
      !log_applyImpulse, <- !app_assoc. reflexivity. }
  cbn. tauto.
Qed.

(** X19.  One solver pass on a manifold: [resolve] is called on every live
    contact and on nothing else, four body calls each and no event; the
    slots keep their collision data, counter and cursor stay, and afterwards
    no live contact has a negative normal impulse. *)
Theorem Manifold_resolveContacts_pass (w : World) (m : Manifold.t) (Hwf : Manifold_wf m) :
  exists w' m' events,
    Manifold_resolveContacts w m = Ok (w', m') /\
    (forall j, slotData m' j = slotData m j) /\
    (forall j c, array_get (Manifold.contacts m') j = Some c ->
                 0 <= Contact.normalImpulse c) /\
    Manifold.numContacts m' = Manifold.numContacts m /\
    Manifold.lru m' = Manifold.lru m /\
    log w' = log w ++ events /\
    length events = (4 * live (Manifold.contacts m))%nat /\
    Forall is_body_call events.
Proof.
  apply (each_contact_loop_post Contact_resolve (fun c => 0 <= Contact.normalImpulse c));
    [|exact Hwf].
  intros w0 c d Hd. apply Contact_resolve_four. exact Hd.
Qed.

Lemma Manifold_resolveContacts_pass_witness :
  exists w' m' events,
    Manifold_resolveContacts Sample.world Sample.manifold = Ok (w', m') /\
    log w' = log Sample.world ++ events /\
    length events = 4%nat.
Proof.
  destruct (Manifold_resolveContacts_pass Sample.world Sample.manifold Sample_manifold_wf)
    as (w' & m' & events & Hrun & _ & _ & _ & _ & Hlog & Hcount & _).
  exists w', m', events. split; [exact Hrun|]. split; [exact Hlog | exact Hcount].
Defined.

(** ** Effective masses *)

(** X20.  For two bodies that do not rotate (zero inverse inertia) the three
    effective masses that [init] computes are all the reciprocal of the sum
    of the two inverse masses, wherever the contact point lies. *)
Theorem Contact_init_effective_mass `{MathLib} (w : World) (c : Contact.t)
    (data : CollisionData.t) (Hdata : Contact.data c = Some data)
    (HinertiaA : Body.inverseInertia (getBody w (Contact.bodyA c)) = Mat33.zero)
    (HinertiaB : Body.inverseInertia (getBody w (Contact.bodyB c)) = Mat33.zero) :
  let reduced := 1 / (Body.inverseMass (getBody w (Contact.bodyA c))
                      + Body.inverseMass (getBody w (Contact.bodyB c))) in
  exists c',
    Contact_init w c = Ok c' /\
    Contact.effNormalMass c' == reduced /\
    Contact.effTangentialMass1 c' == reduced /\
    Contact.effTangentialMass2 c' == reduced.
Proof.
  intro reduced. unfold Contact_init. rewrite Hdata. cbv zeta.
  eexists. split; [reflexivity|].
  cbn [Contact.effNormalMass Contact.effTangentialMass1 Contact.effTangentialMass2].
  assert (Hterm : forall b r, Body.inverseInertia b = Mat33.zero -> inertiaTerm b r == 0).
  { intros b r Hb. unfold inertiaTerm. rewrite Hb.
    unfold Vec3.dot, Mat33.vectorMultiply. cbn. ring. }
  unfold reduced.
  repeat split;
    rewrite (Hterm _ _ HinertiaA), (Hterm _ _ HinertiaB), !Qplus_0_r; reflexivity.
Qed.

Lemma Contact_init_effective_mass_witness :
  exists c',
    @Contact_init exactMath Sample.world Sample.contact = Ok c' /\
    Contact.effNormalMass c' == 1 / (1 + 1) /\
    Contact.effTangentialMass1 c' == 1 / (1 + 1) /\
    Contact.effTangentialMass2 c' == 1 / (1 + 1).
Proof.
  apply (@Contact_init_effective_mass exactMath Sample.world Sample.contact Sample.data);
    reflexivity.
Defined.

(** ** Collision data is released once *)

Lemma Manifold_update_loop_conserves `{MathLib} (posA posB : Vec3.t) (w : World)
    (m : Manifold.t) :
  Manifold_wf m ->
  forall count from,
  exists w' m',
    for_loop (Manifold_update_step posA posB) from count (w, m) = Ok (w', m') /\
    Manifold_wf m' /\
    (length (poolCollisionData w') + live (Manifold.contacts m')
     = length (poolCollisionData w) + live (Manifold.contacts m))%nat /\
    (length (poolContact w') + live (Manifold.contacts m')
     = length (poolContact w) + live (Manifold.contacts m))%nat.
Proof.
  intros Hwf count from.
  destruct (for_loop_invariant
              (fun _ s =>
                 Manifold_wf s.2 /\
                 (length (poolCollisionData s.1) + live (Manifold.contacts s.2)
                  = length (poolCollisionData w) + live (Manifold.contacts m))%nat /\
                 (length (poolContact s.1) + live (Manifold.contacts s.2)
                  = length (poolContact w) + live (Manifold.contacts m))%nat)
              (Manifold_update_step posA posB)) with
    (count := count) (from := from) (s := (w, m)) as ([w' m'] & Hrun & Hinv).
  - intros i [w1 m1] (Hwf1 & Hdata1 & Hcontact1). cbn [fst snd] in *.
    unfold Manifold_update_step.
    destruct (array_get (Manifold.contacts m1) i) as [c|] eqn:Hget; [|eauto].
    pose proof Hwf1 as (_ & _ & _ & Hhas). destruct (Hhas i c Hget) as [d Hd]. rewrite Hd.
    destruct (Manifold_stale posA posB d); [|eauto].
    eexists. split; [reflexivity|].
    split; [now apply Manifold_removeContact_wf|].
    pose proof (live_array_set (Manifold.contacts m1) i None) as Hlive.
    rewrite Hget in Hlive. cbn [occupied] in Hlive.
    unfold Manifold_removeContact, freeCollisionData, OMFreeContact, array_push.
    cbn [fst snd poolCollisionData poolContact Manifold.contacts Manifold_set_contacts
         Manifold_set_numContacts].
    rewrite !length_app. cbn [length]. lia.
  - cbn [fst snd]. now split.
  - exists w', m'. now split.
Qed.

(** X21.  Collision data and contact objects are released exactly once.
    [addContact] takes one collision data in: afterwards the live contacts
    and the released data together are one more than before.  [contains]
    and [Manifold.update] only move data from live contacts to the pool, so
    that sum stays; the same holds for the contact objects in their pool. *)
Theorem Manifold_releases_once `{MathLib} (w : World) (m : Manifold.t) (a b : BodyRef)
    (d : CollisionData.t) (dt : Q) (Hwf : Manifold_wf m) :
  let held (s : World) (x : Manifold.t) :=
    (length (poolCollisionData s) + live (Manifold.contacts x))%nat in
  (exists w' m', Manifold_addContact w m a b d = Ok (w', m') /\
                 held w' m' = S (held w m)) /\
  (exists w' m' found, Manifold_contains w m d = Ok (w', m', found) /\
                       held w' m' = held w m /\
                       (length (poolContact w') + live (Manifold.contacts m')
                        = length (poolContact w) + live (Manifold.contacts m))%nat) /\
  (exists w' m' persists, Manifold_update w m dt = Ok (w', m', persists) /\
                          held w' m' = held w m /\
                          (length (poolContact w') + live (Manifold.contacts m')
                           = length (poolContact w) + live (Manifold.contacts m))%nat).
Proof.
  intro held. unfold held. split; [|split].
  - destruct (Manifold_addContact_spec w m a b d)
      as (w' & m' & c & Hadd & _ & _ & _ & _ & Hlive & _ & _ & _ & _ & Hpool).
    exists w', m'. split; [exact Hadd|].
    destruct (array_get (Manifold.contacts m) (Manifold.lru m)) as [old|].
    + destruct Hpool as [-> _]. rewrite length_app. cbn in *. lia.
    + rewrite Hpool. cbn in *. lia.
  - destruct (Manifold_contains_loop_first (CollisionData.worldContactA d)
                (CollisionData.worldContactB d) (length (Manifold.contacts m)) 0 w m Hwf)
      as (w' & m' & found & Hrun & Hno & Hyes); [intros; lia|].
    exists w', m', found. split; [exact Hrun|].
    destruct found.
    + destruct (Hyes eq_refl) as (k & c & d0 & _ & Hk & _ & _ & _ & Hrem).
      injection Hrem as -> ->.
      pose proof (live_array_set (Manifold.contacts m) k None) as Hlive.
      rewrite Hk in Hlive. cbn [occupied] in Hlive.
      unfold freeCollisionData, OMFreeContact, array_push.
      cbn [poolCollisionData poolContact Manifold.contacts Manifold_set_contacts
           Manifold_set_numContacts].
      rewrite !length_app. cbn [length]. lia.
    + destruct (Hno eq_refl) as (-> & -> & _). now split.
  - destruct (Manifold_update_loop_conserves
                (Body.position (getBody w (Manifold.bodyA m)))
                (Body.position (getBody w (Manifold.bodyB m))) w m Hwf
                (length (Manifold.contacts m)) 0%nat)
      as (w' & m' & Hrun & _ & Hdata & Hcontact).
    unfold Manifold_update. rewrite Hrun, bind_Ok.
    destruct (negb (Manifold.numContacts m' =? 0)%Z); eexists _, _, _;
      (split; [reflexivity|]); now split.
Qed.

Lemma Manifold_releases_once_witness :
  exists w' m',
    @Manifold_addContact exactMath Sample.world Sample.manifold 0%nat 1%nat (Sample.dataOf 4)
    = Ok (w', m') /\
    (length (poolCollisionData w') + live (Manifold.contacts m'))%nat
    = S (length (poolCollisionData Sample.world) + live (Manifold.contacts Sample.manifold)).
Proof.
  apply (@Manifold_releases_once exactMath Sample.world Sample.manifold 0%nat 1%nat
           (Sample.dataOf 4) (1 # 60) Sample_manifold_wf).
Defined.
